(** * Drone dispatch control plane: a shallow embedding of its coordination code

    The development follows the Python services of the repository:

    - [Py]         the dynamically typed documents the services exchange
                   (JSON values, plus the Python [set] one code path builds);
    - [Eff]        programs as trees of calls to the outside world, with
                   exceptions and process-local state; an executable
                   interpreter [run] and a predicate transformer [wp];
    - [Kvstore]    the backend replica ([kvstore/app.py]);
    - [Kvfront]    the replication coordinator ([kvfront/app.py]);
    - [Dispatcher] assignment and autoscaling ([dispatcher/app.py]);
    - [DroneSim]   the per-drone tick ([drone_sim/app.py]).

    Numbers are rationals: comparisons are those of the source, float
    rounding and the values NaN and infinity are outside the model.  The
    great-circle distance [haversine_km] needs trigonometry and is a
    parameter of the sections that use it. *)

From Stdlib Require Import QArith Qround Qabs Lqa ZArith String Ascii List Lia Bool.
From stdpp Require Import base option list strings gmap.

Local Set Warnings "-register-all".
Local Open Scope Z_scope.
Local Open Scope string_scope.
Local Open Scope list_scope.

(* ===================================================================== *)
(** * Python values *)
(* ===================================================================== *)

Module Py.

(** Exceptions the modelled code can raise.  [Unsupported] marks the few
    places where Python would go on but the model does not follow
    (printing a float, parsing a numeric string). *)
Inductive exn : Type :=
| TypeError
| KeyError
| AttributeError
| ValueError
| HTTPException (code : Z)
| TransportError
| Unsupported.

Inductive res (A : Type) : Type :=
| Ok (a : A)
| Err (e : exn).
Arguments Ok {A} a.
Arguments Err {A} e.

#[global] Instance res_ret : MRet res := fun A a => Ok a.
#[global] Instance res_bind : MBind res := fun A B f m =>
  match m with
  | Ok a => f a
  | Err e => Err e
  end.

(** A document is a JSON value; [PSet] is Python's [set], which [json]
    cannot serialise.  A [dict] keeps insertion order, its keys are
    strings and are unique. *)
Inductive pyval : Type :=
| PNone
| PBool (b : bool)
| PNum (q : Q)
| PStr (s : string)
| PList (l : list pyval)
| PDict (d : list (string * pyval))
| PSet (l : list pyval).

Definition PInt (z : Z) : pyval := PNum (inject_Z z).

Definition is_none (v : pyval) : {v = PNone} + {v ≠ PNone}.
Proof. destruct v; (by left) || (by right). Defined.

(** ** Dictionaries as insertion-ordered association lists *)

Fixpoint assoc {A : Type} (k : string) (d : list (string * A)) : option A :=
  match d with
  | [] => None
  | (k', v) :: d' => if String.eqb k k' then Some v else assoc k d'
  end.

(** [d[k] = v]: overwrite in place, or append a new key. *)
Fixpoint assoc_set {A : Type} (k : string) (v : A) (d : list (string * A))
  : list (string * A) :=
  match d with
  | [] => [(k, v)]
  | (k', v') :: d' =>
      if String.eqb k k' then (k', v) :: d' else (k', v') :: assoc_set k v d'
  end.

Lemma assoc_assoc_set {A : Type} (k k' : string) (v : A) (d : list (string * A)) :
  assoc k' (assoc_set k v d) = if String.eqb k' k then Some v else assoc k' d.
Proof.
  induction d as [|[k0 v0] d IH]; simpl.
  - by destruct (String.eqb k' k).
  - destruct (String.eqb k k0) eqn:E; simpl.
    + apply String.eqb_eq in E. subst k0.
      by destruct (String.eqb k' k).
    + destruct (String.eqb k' k0) eqn:E'; [|done].
      apply String.eqb_eq in E'. subst k0.
      destruct (String.eqb k' k) eqn:E''; [|done].
      apply String.eqb_eq in E''. subst k'. by rewrite String.eqb_refl in E.
Qed.

(** ** Truthiness, [or], equality *)

Definition truthy (v : pyval) : bool :=
  match v with
  | PNone => false
  | PBool b => b
  | PNum q => negb (Qeq_bool q 0)
  | PStr s => negb (String.eqb s "")
  | PList l => match l with [] => false | _ => true end
  | PDict d => match d with [] => false | _ => true end
  | PSet l => match l with [] => false | _ => true end
  end.

(** [a or b] *)
Definition py_or (a b : pyval) : pyval := if truthy a then a else b.

(** Python's [==]: numbers by value ([True == 1]), lists pointwise,
    dictionaries key by key whatever the order. *)
Fixpoint py_eqb (a b : pyval) {struct a} : bool :=
  match a, b with
  | PNone, PNone => true
  | PBool x, PBool y => Bool.eqb x y
  | PBool x, PNum q => Qeq_bool (if x then 1 else 0) q
  | PNum q, PBool x => Qeq_bool q (if x then 1 else 0)
  | PNum p, PNum q => Qeq_bool p q
  | PStr s, PStr t => String.eqb s t
  | PList l, PList m =>
      (fix go (l m : list pyval) : bool :=
         match l, m with
         | [], [] => true
         | x :: l', y :: m' => py_eqb x y && go l' m'
         | _, _ => false
         end) l m
  | PDict d, PDict e =>
      Nat.eqb (length d) (length e) &&
      (fix go (d : list (string * pyval)) : bool :=
         match d with
         | [] => true
         | (k, v) :: d' =>
             match assoc k e with
             | Some w => py_eqb v w
             | None => false
             end && go d'
         end) d
  | PSet l, PSet m =>
      Nat.eqb (length l) (length m) &&
      (fix go (l : list pyval) : bool :=
         match l with
         | [] => true
         | x :: l' =>
             (fix mem (m : list pyval) : bool :=
                match m with
                | [] => false
                | y :: m' => py_eqb x y || mem m'
                end) m && go l'
         end) l
  | _, _ => false
  end.

(** [x in l] on a list (or the elements of a set). *)
Definition py_mem (x : pyval) (l : list pyval) : bool :=
  existsb (py_eqb x) l.

(** ** Attribute and item access *)

(** [d.get(k)] *)
Definition dict_get (d : pyval) (k : string) : res pyval :=
  match d with
  | PDict l => Ok (default PNone (assoc k l))
  | _ => Err AttributeError
  end.

(** [d.get(k, dflt)] *)
Definition dict_get_or (d : pyval) (k : string) (dflt : pyval) : res pyval :=
  match d with
  | PDict l => Ok (default dflt (assoc k l))
  | _ => Err AttributeError
  end.

(** [d[k]] for a string [k] *)
Definition subscript (d : pyval) (k : string) : res pyval :=
  match d with
  | PDict l => match assoc k l with Some v => Ok v | None => Err KeyError end
  | _ => Err TypeError
  end.

(** [dict(d)]: the copy of a dictionary is the identity on values; building
    a dictionary out of a sequence of pairs is not modelled. *)
Definition dict_copy (d : pyval) : res pyval :=
  match d with
  | PDict l => Ok (PDict l)
  | PNone | PBool _ | PNum _ => Err TypeError
  | _ => Err Unsupported
  end.

(** [d[k] = v] *)
Definition dict_set (d : pyval) (k : string) (v : pyval) : pyval :=
  match d with
  | PDict l => PDict (assoc_set k v l)
  | _ => d
  end.

(** [k in d] for a dictionary [d] *)
Definition dict_has (d : pyval) (k : string) : bool :=
  match d with
  | PDict l => match assoc k l with Some _ => true | None => false end
  | _ => false
  end.

Definition is_dict (d : pyval) : bool :=
  match d with PDict _ => true | _ => false end.

(** ** Numbers *)

(** The operand of an arithmetic operator or of a comparison with a number. *)
Definition py_num (v : pyval) : res Q :=
  match v with
  | PNum q => Ok q
  | PBool b => Ok (if b then 1 else 0)%Q
  | _ => Err TypeError
  end.

(** [float(v)].  A number is returned as it is, which is what [float]
    does to a float; an integer too long for a float would be rounded,
    and a string parsed, neither of which is modelled: the second shows
    as [Unsupported]. *)
Definition py_float (v : pyval) : res Q :=
  match v with
  | PNum q => Ok q
  | PBool b => Ok (if b then 1 else 0)%Q
  | PStr _ => Err Unsupported
  | _ => Err TypeError
  end.

(** [int(v)]: truncation toward zero *)
Definition py_int (v : pyval) : res Z :=
  match v with
  | PNum q => Ok (Z.quot (Qnum q) (Zpos (Qden q)))
  | PBool b => Ok (if b then 1 else 0)
  | PStr _ => Err Unsupported
  | _ => Err TypeError
  end.

Definition Qltb (a b : Q) : bool := negb (Qle_bool b a).

Lemma Qltb_lt (a b : Q) : Qltb a b = true ↔ (a < b)%Q.
Proof.
  unfold Qltb. rewrite negb_true_iff, <- not_true_iff_false, Qle_bool_iff.
  split; [apply Qnot_le_lt | apply Qlt_not_le].
Qed.

Lemma Qltb_ge (a b : Q) : Qltb a b = false ↔ (b <= a)%Q.
Proof.
  unfold Qltb. by rewrite negb_false_iff, Qle_bool_iff.
Qed.

Lemma res_bind_ok {A B : Type} (a : A) (f : A → res B) : Ok a ≫= f = f a.
Proof. done. Qed.

(** The ordering operators [<], [<=], [>], [>=].  Python orders numbers
    with numbers; the lexicographic order of two strings or two lists is
    not modelled; every other pair raises. *)
Definition py_cmp (op : Q → Q → bool) (a b : pyval) : res bool :=
  match a, b with
  | (PNum _ | PBool _), (PNum _ | PBool _) =>
      x ← py_num a; y ← py_num b; Ok (op x y)
  | PStr _, PStr _ | PList _, PList _ | PSet _, PSet _ => Err Unsupported
  | _, _ => Err TypeError
  end.

Definition py_le : pyval → pyval → res bool := py_cmp Qle_bool.
Definition py_lt : pyval → pyval → res bool := py_cmp Qltb.
Definition py_ge : pyval → pyval → res bool := py_cmp (fun x y => Qle_bool y x).
Definition py_gt : pyval → pyval → res bool := py_cmp (fun x y => Qltb y x).

Lemma py_le_num (a b : Q) : py_le (PNum a) (PNum b) = Ok (Qle_bool a b).
Proof. done. Qed.

(** [int(q)] and [math.ceil(q)] on a number, [round(q)] (half to even). *)
Definition Qtrunc (q : Q) : Z := Z.quot (Qnum q) (Zpos (Qden q)).

Definition py_round (q : Q) : Z :=
  let f := Qfloor q in
  let r := (q - inject_Z f)%Q in
  if Qltb r (1 # 2) then f
  else if Qltb (1 # 2) r then f + 1
  else if Z.even f then f else f + 1.

(** ** Strings *)

Definition lower_ascii (c : ascii) : ascii :=
  let n := nat_of_ascii c in
  if (Nat.leb 65 n && Nat.leb n 90)%bool then ascii_of_nat (n + 32) else c.

Fixpoint lower_string (s : string) : string :=
  match s with
  | EmptyString => EmptyString
  | String c s' => String (lower_ascii c) (lower_string s')
  end.

(** [v.lower()] *)
Definition py_lower (v : pyval) : res pyval :=
  match v with
  | PStr s => Ok (PStr (lower_string s))
  | _ => Err AttributeError
  end.

(** The text an f-string puts for [v]. *)
Definition py_format (v : pyval) : res string :=
  match v with
  | PStr s => Ok s
  | PNone => Ok "None"
  | PBool true => Ok "True"
  | PBool false => Ok "False"
  | _ => Err Unsupported
  end.

(** ** Iteration, sets, JSON *)

Fixpoint chars (s : string) : list pyval :=
  match s with
  | EmptyString => []
  | String c s' => PStr (String c EmptyString) :: chars s'
  end.

(** The elements a [for] loop visits. *)
Definition py_iter (v : pyval) : res (list pyval) :=
  match v with
  | PList l => Ok l
  | PSet l => Ok l
  | PDict d => Ok (map (fun kv => PStr (fst kv)) d)
  | PStr s => Ok (chars s)
  | _ => Err TypeError
  end.

Definition hashable (v : pyval) : bool :=
  match v with
  | PList _ | PDict _ | PSet _ => false
  | _ => true
  end.

(** [s.add(x)] on the elements of a set. *)
Definition set_add (x : pyval) (s : list pyval) : list pyval :=
  if py_mem x s then s else s ++ [x].

(** [x in s] and [x not in s] for a set [s]: [x] is hashed first. *)
Definition set_mem (x : pyval) (s : list pyval) : res bool :=
  if hashable x then Ok (py_mem x s) else Err TypeError.

(** [set(v)] *)
Definition py_set (v : pyval) : res (list pyval) :=
  l ← py_iter v;
  if forallb hashable l then Ok (fold_left (fun s x => set_add x s) l [])
  else Err TypeError.

(** Whether [json.dumps(v)] succeeds. *)
Fixpoint json_serializable (v : pyval) : bool :=
  match v with
  | PSet _ => false
  | PList l => forallb json_serializable l
  | PDict d =>
      (fix go (d : list (string * pyval)) : bool :=
         match d with
         | [] => true
         | (_, w) :: d' => json_serializable w && go d'
         end) d
  | _ => true
  end.


Lemma json_assoc_set (k : string) (v : pyval) (d : list (string * pyval)) :
  json_serializable (PDict d) = true → json_serializable v = true →
  json_serializable (PDict (assoc_set k v d)) = true.
Proof.
  intros Hd Hv. induction d as [|[k' w] d IH]; simpl in *.
  - by rewrite Hv.
  - apply andb_true_iff in Hd as [Hw Hd].
    destruct (String.eqb k k'); simpl.
    + by rewrite Hv, Hd.
    + rewrite Hw. simpl. by apply IH.
Qed.

Lemma json_dict_set (d : pyval) (k : string) (v : pyval) :
  json_serializable d = true → json_serializable v = true →
  json_serializable (dict_set d k v) = true.
Proof.
  intros Hd Hv. destruct d; try done. by apply json_assoc_set.
Qed.

Lemma dict_get_set (d : pyval) (k k' : string) (v : pyval) :
  is_dict d = true →
  dict_get (dict_set d k v) k' =
    if String.eqb k' k then Ok v else dict_get d k'.
Proof.
  destruct d; try done. intros _. simpl. rewrite assoc_assoc_set.
  by destruct (String.eqb k' k).
Qed.

Lemma dict_copy_ok (d d' : pyval) : dict_copy d = Ok d' → d' = d ∧ is_dict d = true.
Proof. destruct d; try done. by intros [= <-]. Qed.

Lemma dict_get_is_dict (d v : pyval) (k : string) :
  dict_get d k = Ok v → is_dict d = true.
Proof. by destruct d. Qed.

End Py.
Export Py.

(* ===================================================================== *)
(** * Programs: calls to the outside world, exceptions, local state *)
(* ===================================================================== *)

Module Eff.

Section Prog.
(** [E R] are the calls whose answer has type [R]; [S] is the state the
    process keeps in module-level variables. *)
Context {E : Type → Type} {S : Type}.

Inductive prog (A : Type) : Type :=
| Ret (a : A)
| Raise (e : exn)
| Load (k : S → prog A)
| Store (s : S) (k : prog A)
| Vis {R : Type} (c : E R) (k : R → prog A).
Arguments Ret {A} a.
Arguments Raise {A} e.
Arguments Load {A} k.
Arguments Store {A} s k.
Arguments Vis {A R} c k.

Fixpoint bind {A B : Type} (m : prog A) (f : A → prog B) : prog B :=
  match m with
  | Ret a => f a
  | Raise e => Raise e
  | Load k => Load (fun s => bind (k s) f)
  | Store s k => Store s (bind k f)
  | Vis c k => Vis c (fun r => bind (k r) f)
  end.

(** A fallible pure expression evaluated inside a program. *)
Definition lift {A : Type} (r : res A) : prog A :=
  match r with
  | Ok a => Ret a
  | Err e => Raise e
  end.

Definition call {R : Type} (c : E R) : prog R := Vis c Ret.

(** [try: m except Exception: ...], with the outcome handed to the caller. *)
Fixpoint attempt {A : Type} (m : prog A) : prog (res A) :=
  match m with
  | Ret a => Ret (Ok a)
  | Raise e => Ret (Err e)
  | Load k => Load (fun s => attempt (k s))
  | Store s k => Store s (attempt k)
  | Vis c k => Vis c (fun r => attempt (k r))
  end.

(** [try: m finally: fin] *)
Definition finally {A : Type} (m : prog A) (fin : prog unit) : prog A :=
  bind (attempt m) (fun r => bind fin (fun _ => lift r)).

(** [for x in l: acc = body acc x] *)
Fixpoint foldM {A X : Type} (body : A → X → prog A) (l : list X) (acc : A)
  : prog A :=
  match l with
  | [] => Ret acc
  | x :: l' => bind (body acc x) (foldM body l')
  end.

(** [[f x for x in l]] *)
Fixpoint mapM {X Y : Type} (f : X → prog Y) (l : list X) : prog (list Y) :=
  match l with
  | [] => Ret []
  | x :: l' => bind (f x) (fun y => bind (mapM f l') (fun ys => Ret (y :: ys)))
  end.

(** ** Running a program against an environment *)

(** One answered call. *)
Inductive event : Type :=
| Ev {R : Type} (c : E R) (r : R).

Definition trace : Type := list event.

(** The environment answers every call and may change while doing so:
    other processes write to the same store between two calls. *)
Definition handler (W : Type) : Type := ∀ R, E R → W → R * W.

Record outcome (A W : Type) : Type := Outcome {
  result : res A;
  final_state : S;
  final_world : W;
  events : trace
}.
Arguments Outcome {A W}.
Arguments result {A W}.
Arguments final_state {A W}.
Arguments final_world {A W}.
Arguments events {A W}.

Definition logged {A W : Type} (e : event) (o : outcome A W) : outcome A W :=
  Outcome (result o) (final_state o) (final_world o) (e :: events o).

Fixpoint run {A W : Type} (h : handler W) (p : prog A) (s : S) (w : W)
  : outcome A W :=
  match p with
  | Ret a => Outcome (Ok a) s w []
  | Raise e => Outcome (Err e) s w []
  | Load k => run h (k s) s w
  | Store s' k => run h k s' w
  | Vis c k => let '(r, w') := h _ c w in logged (Ev c r) (run h (k r) s w')
  end.

(** ** Reasoning: what holds of the result, the state and the calls made,
    whatever the environment answers *)

Definition post (A : Type) : Type := res A → S → trace → Prop.

Fixpoint wp {A : Type} (p : prog A) (Q : post A) (s : S) (t : trace) : Prop :=
  match p with
  | Ret a => Q (Ok a) s t
  | Raise e => Q (Err e) s t
  | Load k => wp (k s) Q s t
  | Store s' k => wp k Q s' t
  | Vis c k => ∀ r, wp (k r) Q s (t ++ [Ev c r])
  end.

Lemma wp_sound {A W : Type} (h : handler W) (p : prog A) :
  ∀ (Q : post A) s w t,
    wp p Q s t →
    Q (result (run h p s w)) (final_state (run h p s w))
      (t ++ events (run h p s w)).
Proof.
  induction p as [a|e|k IH|s' k IH|R c k IH]; intros Q s w t Hwp; simpl in *.
  - by rewrite app_nil_r.
  - by rewrite app_nil_r.
  - by apply IH.
  - by apply IH.
  - destruct (h R c w) as [r w'] eqn:Eh. simpl.
    specialize (IH r Q s w' _ (Hwp r)).
    by rewrite <- app_assoc in IH.
Qed.

Lemma wp_mono {A : Type} (p : prog A) :
  ∀ (Q Q' : post A) s t,
    (∀ r s' t', Q r s' t' → Q' r s' t') → wp p Q s t → wp p Q' s t.
Proof.
  induction p as [a|e|k IH|s' k IH|R c k IH]; intros Q Q' s t HQ Hwp;
    simpl in *; eauto.
Qed.

(** The rule for sequencing. *)
Definition then_wp {A B : Type} (f : A → prog B) (Q : post B) : post A :=
  fun r s t =>
    match r with
    | Ok a => wp (f a) Q s t
    | Err e => Q (Err e) s t
    end.

Lemma wp_bind {A B : Type} (m : prog A) (f : A → prog B) :
  ∀ (Q : post B) s t, wp m (then_wp f Q) s t → wp (bind m f) Q s t.
Proof.
  induction m as [a|e|k IH|s' k IH|R c k IH]; intros Q s t Hwp;
    simpl in *; eauto.
Qed.

Lemma wp_lift {A : Type} (r : res A) (Q : post A) s t :
  Q r s t → wp (lift r) Q s t.
Proof. by destruct r. Qed.

Lemma wp_attempt {A : Type} (m : prog A) :
  ∀ (Q : post (res A)) s t,
    wp m (fun r s' t' => Q (Ok r) s' t') s t → wp (attempt m) Q s t.
Proof.
  induction m as [a|e|k IH|s' k IH|R c k IH]; intros Q s t Hwp;
    simpl in *; eauto.
Qed.

(** Loops: an invariant [I] on the accumulator, the state and the calls
    made so far. *)
Lemma wp_foldM {A X : Type} (body : A → X → prog A) (I : A → S → trace → Prop)
    (Q : post A) :
  ∀ (l : list X) acc s t,
    I acc s t →
    (∀ acc s t x, x ∈ l → I acc s t →
       wp (body acc x)
          (fun r s' t' => match r with
                          | Ok acc' => I acc' s' t'
                          | Err e => Q (Err e) s' t'
                          end) s t) →
    (∀ acc s t, I acc s t → Q (Ok acc) s t) →
    wp (foldM body l acc) Q s t.
Proof.
  induction l as [|x l IH]; intros acc s t HI Hbody Hend; simpl.
  - by apply Hend.
  - apply wp_bind. eapply wp_mono; [|apply Hbody; [left|exact HI]].
    intros [acc'|e] s' t' H; simpl; [|done].
    apply IH; [done| |done].
    intros acc0 s0 t0 y Hy. apply Hbody. by right.
Qed.

(** ** Running sequenced programs *)

(** The calls [t] made before those of [o]. *)
Definition prefixed {A W : Type} (t : trace) (o : outcome A W) : outcome A W :=
  Outcome (result o) (final_state o) (final_world o) (t ++ events o).

Definition and_then {A B W : Type} (h : handler W) (f : A → prog B)
    (o : outcome A W) : outcome B W :=
  match result o with
  | Ok a => prefixed (events o) (run h (f a) (final_state o) (final_world o))
  | Err e => Outcome (Err e) (final_state o) (final_world o) (events o)
  end.

Lemma run_bind {A B W : Type} (h : handler W) (m : prog A) (f : A → prog B) :
  ∀ s w, run h (bind m f) s w = and_then h f (run h m s w).
Proof.
  induction m as [a|e|k IH|s' k IH|R c k IH]; intros s w; simpl.
  - unfold and_then, prefixed; simpl. by destruct (run h (f a) s w).
  - done.
  - apply IH.
  - apply IH.
  - destruct (h R c w) as [r w']. rewrite IH.
    unfold and_then, prefixed, logged; simpl.
    by destruct (result (run h (k r) s w')).
Qed.

Lemma and_then_ok {A B W : Type} (h : handler W) (f : A → prog B) a s w t :
  and_then h f (Outcome (Ok a) s w t) = prefixed t (run h (f a) s w).
Proof. done. Qed.

Lemma and_then_err {A B W : Type} (h : handler W) (f : A → prog B) e s w t :
  and_then h f (Outcome (Err e) s w t) = Outcome (Err e) s w t.
Proof. done. Qed.

Lemma prefixed_outcome {A W : Type} (t : trace) (r : res A) s (w : W) t' :
  prefixed t (Outcome r s w t') = Outcome r s w (t ++ t').
Proof. done. Qed.

Lemma prefixed_nil {A W : Type} (o : outcome A W) : prefixed [] o = o.
Proof. by destruct o. Qed.

Lemma prefixed_prefixed {A W : Type} (t t' : trace) (o : outcome A W) :
  prefixed t (prefixed t' o) = prefixed (t ++ t') o.
Proof. unfold prefixed; simpl. by rewrite app_assoc. Qed.

Lemma run_ret {A W : Type} (h : handler W) (a : A) s w :
  run h (Ret a) s w = Outcome (Ok a) s w [].
Proof. done. Qed.

Lemma run_raise {A W : Type} (h : handler W) (e : exn) s w :
  run h (Raise e : prog A) s w = Outcome (Err e) s w [].
Proof. done. Qed.

Lemma run_call {R W : Type} (h : handler W) (c : E R) s w :
  run h (call c) s w =
    Outcome (Ok (fst (h R c w))) s (snd (h R c w)) [Ev c (fst (h R c w))].
Proof. unfold call. simpl. by destruct (h R c w). Qed.

Lemma run_lift {A W : Type} (h : handler W) (r : res A) s w :
  run h (lift r) s w = Outcome r s w [].
Proof. by destruct r. Qed.

End Prog.

Arguments prog E S A : clear implicits.
Arguments Ret {E S A} a.
Arguments Raise {E S A} e.
Arguments Load {E S A} k.
Arguments Store {E S A} s k.
Arguments Vis {E S A R} c k.
Arguments Ev {E R} c r.
Arguments Outcome {E S A W}.
Arguments result {E S A W}.
Arguments final_state {E S A W}.
Arguments final_world {E S A W}.
Arguments events {E S A W}.
Arguments prefixed {E S A W}.
Arguments and_then {E S A B W}.
Arguments event E : clear implicits.
Arguments trace E : clear implicits.
Arguments handler E W : clear implicits.
Arguments outcome E S A W : clear implicits.
Arguments post E S A : clear implicits.

#[global] Instance prog_ret {E S} : MRet (prog E S) := fun A a => Ret a.
#[global] Instance prog_bind {E S} : MBind (prog E S) := fun A B f m => bind m f.

Lemma run_mbind {E S A B W} (h : handler E W) (m : prog E S A)
    (f : A → prog E S B) s w :
  run h (m ≫= f) s w = and_then h f (run h m s w).
Proof. apply run_bind. Qed.

Lemma run_mret {E S A W} (h : handler E W) (a : A) (s : S) w :
  run h (mret a) s w = Outcome (Ok a) s w [].
Proof. done. Qed.

Lemma wp_mbind {E S A B} (m : prog E S A) (f : A → prog E S B)
    (Q : post E S B) s t :
  wp m (then_wp f Q) s t → wp (m ≫= f) Q s t.
Proof. apply wp_bind. Qed.

Lemma wp_call {E S R} (c : E R) (Q : post E S R) s t :
  (∀ r, Q (Ok r) s (t ++ [Ev c r])) → wp (call c) Q s t.
Proof. done. Qed.

(** A postcondition on the calls alone. *)
Definition always {E S A} (P : trace E → Prop) : post E S A := fun _ _ t => P t.

Lemma wp_mret {E S A} (a : A) (Q : post E S A) s t :
  Q (Ok a) s t → wp (mret a) Q s t.
Proof. done. Qed.

Section Only.
Context {E : Type → Type} {S : Type}.

(** Every call the program can make, whatever the answers, satisfies [ok]. *)
Fixpoint only {A : Type} (ok : event E → Prop) (p : prog E S A) : Prop :=
  match p with
  | Ret _ | Raise _ => True
  | Load k => ∀ s, only ok (k s)
  | Store _ k => only ok k
  | Vis c k => ∀ r, ok (Ev c r) ∧ only ok (k r)
  end.

Lemma wp_only {A : Type} (ok : event E → Prop) (p : prog E S A) :
  ∀ (Q : post E S A) s t,
    only ok p →
    (∀ r s' t', Forall ok t' → Q r s' (t ++ t')) →
    wp p Q s t.
Proof.
  induction p as [a|e|k IH|s' k IH|R c k IH]; intros Q s t Hok HQ; simpl in *.
  - rewrite <- (app_nil_r t). by apply HQ.
  - rewrite <- (app_nil_r t). by apply HQ.
  - by apply IH.
  - by apply IH.
  - intros r. destruct (Hok r) as [Hc Hk]. apply IH; [done|].
    intros r' s' t' Ht'. rewrite <- app_assoc. apply HQ. by constructor.
Qed.

Lemma only_bind {A B : Type} (ok : event E → Prop) (m : prog E S A)
    (f : A → prog E S B) :
  only ok m → (∀ a, only ok (f a)) → only ok (m ≫= f).
Proof.
  intros Hm Hf. unfold mbind, prog_bind.
  induction m as [a|e|k IH|s' k IH|R c k IH]; simpl in *; eauto.
  intros r. destruct (Hm r). eauto.
Qed.

Lemma only_lift {A : Type} (ok : event E → Prop) (r : res A) :
  only ok (lift r : prog E S A).
Proof. by destruct r. Qed.

Lemma only_mret {A : Type} (ok : event E → Prop) (a : A) :
  only ok (mret a : prog E S A).
Proof. done. Qed.

Lemma only_call {R : Type} (ok : event E → Prop) (c : E R) :
  (∀ r, ok (Ev c r)) → only ok (call c : prog E S R).
Proof. intros H r. by split. Qed.

Lemma only_attempt {A : Type} (ok : event E → Prop) (m : prog E S A) :
  only ok m → only ok (attempt m).
Proof.
  induction m as [a|e|k IH|s' k IH|R c k IH]; simpl in *; eauto.
  intros Hm r. destruct (Hm r). eauto.
Qed.

End Only.

(** Goes through a program whose calls all satisfy the same condition;
    [tac] proves the condition at each call. *)
Ltac only_steps tac :=
  repeat first
    [ apply only_mret
    | apply only_lift
    | apply only_call; intros; tac
    | apply only_bind; [|intros ?]
    | match goal with
      | |- only _ (if ?b then _ else _) => destruct b
      | |- only _ (match ?x with _ => _ end) => destruct x
      | |- only _ (Raise _) => exact I
      | |- only _ (Ret _) => exact I
      end ].

Lemma wp_extends {E S A} (p : prog E S A) :
  ∀ (Q : post E S A) s t,
    wp p Q s t →
    wp p (fun r s' t' => Q r s' t' ∧ ∃ t'', t' = t ++ t'') s t.
Proof.
  induction p as [a|e|k IH|s' k IH|R c k IH]; intros Q s t Hwp; simpl in *.
  - split; [done|]. exists []. by rewrite app_nil_r.
  - split; [done|]. exists []. by rewrite app_nil_r.
  - by apply IH.
  - by apply IH.
  - intros r. eapply wp_mono; [|apply IH, Hwp].
    intros r' s' t' [HQ (t'' & ->)]. split; [done|].
    exists (Ev c r :: t''). by rewrite <- app_assoc.
Qed.

Lemma only_mapM {E S X Y} (ok : event E → Prop) (f : X → prog E S Y)
    (l : list X) :
  (∀ x, only ok (f x)) → only ok (mapM f l).
Proof.
  intros Hf. induction l as [|x l IH]; [done|].
  cbn [mapM]. apply (only_bind ok (f x)); [done|]. intros y.
  apply (only_bind ok (mapM f l)); [done|]. by intros ys.
Qed.

(** Runs a program as far as the calls it makes are known. *)
Ltac run_steps :=
  repeat first
    [ rewrite run_mbind | rewrite run_bind | rewrite run_call
    | rewrite run_lift | rewrite run_mret | rewrite run_ret
    | rewrite run_raise | rewrite and_then_ok | rewrite and_then_err
    | rewrite prefixed_outcome | rewrite prefixed_nil ].

End Eff.
Export Eff.

(* ===================================================================== *)
(** * The backend replica (kvstore/app.py) *)
(* ===================================================================== *)

Module Kvstore.

(** The table [kv_store(key PRIMARY KEY, value)] as a finite map.  A row
    holds the text [json.dumps] wrote; it is kept here as the value
    [json.loads] reads back from it. *)
Abbreviation table := (gmap string pyval).

(** [db_get]: the stored value, [None] when there is no row. *)
Definition db_get (tbl : table) (key : string) : pyval :=
  match tbl !! key with
  | None => PNone
  | Some v => v
  end.

(** [db_put]: insert or update.  [json.dumps] runs first and raises on a
    value that is not JSON. *)
Definition db_put (key : string) (value : pyval) (tbl : table) : res table :=
  if json_serializable value then Ok (<[key := value]> tbl) else Err TypeError.

(** [db_cas]: one [BEGIN IMMEDIATE] transaction under [_db_lock], hence one
    step on the table.  The result pairs the returned boolean with the
    table after [COMMIT] or [ROLLBACK]. *)
Definition db_cas (key : string) (old new : pyval) (tbl : table)
  : res (bool * table) :=
  if negb (json_serializable new) then Err TypeError else
  match tbl !! key with
  | None =>
      (* chiave assente *)
      match old with
      | PNone => Ok (true, <[key := new]> tbl)
      | _ => Ok (false, tbl)
      end
  | Some current_obj =>
      match old with
      | PNone => Ok (false, tbl)
      | _ =>
          if py_eqb current_obj old then Ok (true, <[key := new]> tbl)
          else Ok (false, tbl)
      end
  end.

(** ** First-writer-wins creation *)

Lemma db_cas_absent (key : string) (old new : pyval) (tbl : table) :
  json_serializable new = true →
  tbl !! key = None →
  db_cas key old new tbl =
    Ok (match old with
        | PNone => (true, <[key := new]> tbl)
        | _ => (false, tbl)
        end).
Proof.
  intros Hj Hk. unfold db_cas. rewrite Hj, Hk. simpl. by destruct old.
Qed.

Lemma db_cas_none_present (key : string) (new cur : pyval) (tbl : table) :
  json_serializable new = true →
  tbl !! key = Some cur →
  db_cas key PNone new tbl = Ok (false, tbl).
Proof. intros Hj Hk. unfold db_cas. by rewrite Hj, Hk. Qed.

(** C10: a backend CAS with [old = None] succeeds exactly when the key has
    no row, and then creates the row holding [new]; when the key has a
    row it answers false and the table is unchanged; a CAS with another
    [old] on an absent key answers false and the table is unchanged. *)
Theorem db_cas_first_writer_wins (key : string) (old new : pyval) (tbl : table) :
  json_serializable new = true →
  (∃ ok tbl',
      db_cas key PNone new tbl = Ok (ok, tbl')
      ∧ (ok = true ↔ tbl !! key = None)
      ∧ (ok = true → tbl' = <[key := new]> tbl ∧ db_get tbl' key = new)
      ∧ (ok = false → tbl' = tbl))
  ∧ (old ≠ PNone → tbl !! key = None →
     db_cas key old new tbl = Ok (false, tbl)).
Proof.
  intros Hj. split.
  - destruct (tbl !! key) as [cur|] eqn:Hk.
    + exists false, tbl. rewrite (db_cas_none_present _ _ cur) by done.
      repeat split; try done.
    + exists true, (<[key := new]> tbl). rewrite db_cas_absent by done.
      repeat split; try done.
      unfold db_get. by rewrite lookup_insert_eq.
  - intros Hold Hk. rewrite db_cas_absent by done. by destruct old.
Qed.

Lemma db_cas_first_writer_wins_witness :
  (∃ ok tbl',
      db_cas "idem:k1" PNone (PStr "id-1") (<["idem:k0" := PStr "id-0"]> ∅)
        = Ok (ok, tbl')
      ∧ (ok = true ↔ (<["idem:k0" := PStr "id-0"]> ∅ : table) !! "idem:k1" = None)
      ∧ (ok = true →
         tbl' = <["idem:k1" := PStr "id-1"]> (<["idem:k0" := PStr "id-0"]> ∅)
         ∧ db_get tbl' "idem:k1" = PStr "id-1")
      ∧ (ok = false → tbl' = <["idem:k0" := PStr "id-0"]> ∅))
  ∧ (PStr "id-9" ≠ PNone →
     (<["idem:k0" := PStr "id-0"]> ∅ : table) !! "idem:k1" = None →
     db_cas "idem:k1" (PStr "id-9") (PStr "id-1") (<["idem:k0" := PStr "id-0"]> ∅)
       = Ok (false, <["idem:k0" := PStr "id-0"]> ∅)).
Proof.
  apply (db_cas_first_writer_wins "idem:k1" (PStr "id-9") (PStr "id-1")
           (<["idem:k0" := PStr "id-0"]> ∅)).
  reflexivity.
Defined.

(** ** The LRU cache in front of the table *)

Module LRU.

(** [LRUCache]: [_d] is the [OrderedDict], least recently used entry
    first; [_size_bytes] is the running total the class keeps. *)
Record LRUCache : Type := Cache {
  _d : list (string * pyval);
  _size_bytes : Z
}.

(** [OrderedDict.pop(k)] *)
Fixpoint pop (k : string) (d : list (string * pyval)) : list (string * pyval) :=
  match d with
  | [] => []
  | (k', v) :: d' => if String.eqb k k' then d' else (k', v) :: pop k d'
  end.

Section Cache.
(** [_sizeof(k, v)]: the bytes of the key plus those of the compact JSON
    text of the value, or plus 32 when the value has none. *)
Variable _sizeof : string → pyval → Z.
Variable max_items max_bytes : Z.

(** The first loop of [_evict]: by size. *)
Fixpoint evict_bytes (d : list (string * pyval)) (size : Z)
  : list (string * pyval) * Z :=
  match d with
  | [] => ([], size)
  | (k, v) :: d' =>
      if Z.ltb max_bytes size then evict_bytes d' (size - _sizeof k v)
      else (d, size)
  end.

(** The second loop of [_evict]: by number of entries. *)
Fixpoint evict_items (d : list (string * pyval)) (size : Z)
  : list (string * pyval) * Z :=
  match d with
  | [] => ([], size)
  | (k, v) :: d' =>
      if Z.ltb max_items (Z.of_nat (length d))
      then evict_items d' (size - _sizeof k v)
      else (d, size)
  end.

Definition _evict (c : LRUCache) : LRUCache :=
  let '(d, size) := evict_bytes (_d c) (_size_bytes c) in
  let '(d, size) := evict_items d size in
  Cache d size.

(** [get]: the value, [None] on a miss; a hit moves the entry to the
    most recently used end. *)
Definition get (k : string) (c : LRUCache) : pyval * LRUCache :=
  match assoc k (_d c) with
  | None => (PNone, c)
  | Some v => (v, Cache (pop k (_d c) ++ [(k, v)]) (_size_bytes c))
  end.

Definition put (k : string) (v : pyval) (c : LRUCache) : LRUCache :=
  let c1 := match assoc k (_d c) with
            | Some old => Cache (pop k (_d c)) (_size_bytes c - _sizeof k old)
            | None => c
            end in
  _evict (Cache (_d c1 ++ [(k, v)]) (_size_bytes c1 + _sizeof k v)).

Definition delete (k : string) (c : LRUCache) : LRUCache :=
  match assoc k (_d c) with
  | Some old => Cache (pop k (_d c)) (_size_bytes c - _sizeof k old)
  | None => c
  end.

Definition clear (c : LRUCache) : LRUCache := Cache [] 0.

(** The bytes of the entries, as [_sizeof] counts them. *)
Definition accounted (d : list (string * pyval)) : Z :=
  fold_right (fun e acc => _sizeof (fst e) (snd e) + acc) 0 d.

(** The keys are distinct and [_size_bytes] is the size of what is held. *)
Definition cache_ok (c : LRUCache) : Prop :=
  NoDup (map fst (_d c)) ∧ _size_bytes c = accounted (_d c).

Lemma accounted_app (d d' : list (string * pyval)) :
  accounted (d ++ d') = accounted d + accounted d'.
Proof. induction d as [|[k v] d IH]; simpl; lia. Qed.

Lemma assoc_None_notin (k : string) (d : list (string * pyval)) :
  assoc k d = None ↔ k ∉ map fst d.
Proof.
  induction d as [|[k' v] d IH]; simpl.
  - split; [intros _ H; by apply elem_of_nil in H|done].
  - destruct (String.eqb k k') eqn:E.
    + apply String.eqb_eq in E. subst k'. split; [done|].
      intros H. exfalso. apply H. by left.
    + apply String.eqb_neq in E. rewrite IH. split.
      * intros H Hin. apply elem_of_cons in Hin as [?|?]; [done|by apply H].
      * intros H Hin. apply H. by right.
Qed.

Lemma assoc_Some_in (k : string) (v : pyval) (d : list (string * pyval)) :
  assoc k d = Some v → (k, v) ∈ d.
Proof.
  induction d as [|[k' v'] d IH]; simpl; [done|].
  destruct (String.eqb k k') eqn:E.
  - apply String.eqb_eq in E. subst k'. intros [= ->]. by left.
  - intros H. right. by apply IH.
Qed.

Lemma in_assoc_Some (k : string) (v : pyval) (d : list (string * pyval)) :
  NoDup (map fst d) → (k, v) ∈ d → assoc k d = Some v.
Proof.
  induction d as [|[k' v'] d IH]; simpl; intros Hnd Hin.
  - by apply elem_of_nil in Hin.
  - apply NoDup_cons in Hnd as [Hk' Hnd].
    apply elem_of_cons in Hin as [[= -> ->]|Hin].
    + by rewrite String.eqb_refl.
    + destruct (String.eqb k k') eqn:E; [|by apply IH].
      apply String.eqb_eq in E. subst k'. exfalso. apply Hk'.
      apply list_elem_of_fmap. by exists (k, v).
Qed.

Lemma pop_subseteq (k : string) (d : list (string * pyval)) : pop k d ⊆ d.
Proof.
  induction d as [|[k' v] d IH]; simpl; [done|].
  destruct (String.eqb k k').
  - intros e He. by right.
  - intros e He. apply elem_of_cons in He as [->|He]; [by left|].
    right. by apply IH.
Qed.

Lemma pop_keys (k : string) (d : list (string * pyval)) :
  NoDup (map fst d) → NoDup (map fst (pop k d)) ∧ k ∉ map fst (pop k d).
Proof.
  induction d as [|[k' v] d IH]; simpl; intros Hnd.
  - split; [constructor|]. intros H. by apply elem_of_nil in H.
  - apply NoDup_cons in Hnd as [Hk' Hnd].
    destruct (String.eqb k k') eqn:E.
    + apply String.eqb_eq in E. by subst k'.
    + apply String.eqb_neq in E. destruct (IH Hnd) as [Hnd' Hk].
      split.
      * simpl. apply NoDup_cons. split; [|done].
        intros Hin. apply Hk'. apply list_elem_of_fmap in Hin as ([k0 v0] & -> & Hin).
        apply list_elem_of_fmap. exists (k0, v0). split; [done|].
        by apply (pop_subseteq k).
      * simpl. intros Hin. apply elem_of_cons in Hin as [?|?]; [done|by apply Hk].
Qed.

Lemma pop_accounted (k : string) (old : pyval) (d : list (string * pyval)) :
  assoc k d = Some old → accounted (pop k d) = accounted d - _sizeof k old.
Proof.
  induction d as [|[k' v] d IH]; simpl; [done|].
  destruct (String.eqb k k') eqn:E.
  - apply String.eqb_eq in E. subst k'. intros [= ->]. lia.
  - intros H. simpl. rewrite (IH H). lia.
Qed.

Lemma pop_other (k k' : string) (d : list (string * pyval)) :
  k' ≠ k → assoc k' (pop k d) = assoc k' d.
Proof.
  intros Hne. induction d as [|[k0 v] d IH]; simpl; [done|].
  destruct (String.eqb k k0) eqn:E.
  - apply String.eqb_eq in E. subst k0.
    by rewrite (proj2 (String.eqb_neq k' k) Hne).
  - simpl. by rewrite IH.
Qed.

(** What the two loops leave is the most recently used end of what they
    were given, and the size went down by what they dropped. *)
Lemma evict_bytes_suffix (d : list (string * pyval)) (size : Z) :
  ∃ dropped, d = dropped ++ fst (evict_bytes d size)
             ∧ snd (evict_bytes d size) = size - accounted dropped.
Proof.
  revert size. induction d as [|[k v] d IH]; intros size; simpl.
  - exists []. simpl. split; [done|lia].
  - destruct (Z.ltb max_bytes size).
    + destruct (IH (size - _sizeof k v)) as (dropped & Hd & Hs).
      exists ((k, v) :: dropped). simpl. split; [by rewrite <- Hd|]. lia.
    + exists []. simpl. split; [done|lia].
Qed.

Lemma evict_items_suffix (d : list (string * pyval)) (size : Z) :
  ∃ dropped, d = dropped ++ fst (evict_items d size)
             ∧ snd (evict_items d size) = size - accounted dropped.
Proof.
  revert size. induction d as [|[k v] d IH]; intros size.
  - exists []. simpl. split; [done|lia].
  - cbn [evict_items]. destruct (Z.ltb max_items (Z.of_nat (length ((k, v) :: d)))).
    + destruct (IH (size - _sizeof k v)) as (dropped & Hd & Hs).
      exists ((k, v) :: dropped). simpl. split; [by rewrite <- Hd|]. lia.
    + exists []. simpl. split; [done|lia].
Qed.

Lemma evict_suffix (c : LRUCache) :
  ∃ dropped, _d c = dropped ++ _d (_evict c)
             ∧ _size_bytes (_evict c) = _size_bytes c - accounted dropped.
Proof.
  unfold _evict.
  destruct (evict_bytes_suffix (_d c) (_size_bytes c)) as (dr1 & Hd1 & Hs1).
  destruct (evict_bytes (_d c) (_size_bytes c)) as [d1 s1]. simpl in *.
  destruct (evict_items_suffix d1 s1) as (dr2 & Hd2 & Hs2).
  destruct (evict_items d1 s1) as [d2 s2]. simpl in *.
  exists (dr1 ++ dr2). rewrite <- app_assoc, <- Hd2. split; [done|].
  rewrite accounted_app. lia.
Qed.

Lemma evict_ok (c : LRUCache) : cache_ok c → cache_ok (_evict c).
Proof.
  intros [Hnd Hsz]. destruct (evict_suffix c) as (dropped & Hd & Hs).
  split.
  - rewrite Hd, map_app in Hnd. by apply NoDup_app in Hnd as (_ & _ & ?).
  - rewrite Hs, Hsz. rewrite Hd at 1. rewrite accounted_app. lia.
Qed.

Lemma delete_ok (k : string) (c : LRUCache) :
  cache_ok c → cache_ok (delete k c) ∧ k ∉ map fst (_d (delete k c)).
Proof.
  intros [Hnd Hsz]. unfold delete.
  destruct (assoc k (_d c)) as [old|] eqn:E.
  - destruct (pop_keys k (_d c) Hnd) as [Hnd' Hk].
    split; [|done]. split; [done|]. simpl.
    rewrite (pop_accounted k old) by done. lia.
  - split; [done|]. by apply assoc_None_notin.
Qed.

Lemma snoc_ok (k : string) (v : pyval) (c : LRUCache) :
  cache_ok c → k ∉ map fst (_d c) →
  cache_ok (Cache (_d c ++ [(k, v)]) (_size_bytes c + _sizeof k v)).
Proof.
  intros [Hnd Hsz] Hk. split; simpl.
  - rewrite map_app. apply NoDup_app. split; [done|]. split.
    + intros x Hx Hx'. simpl in Hx'. apply list_elem_of_singleton in Hx'.
      by subst x.
    + simpl. apply NoDup_singleton.
  - rewrite accounted_app. simpl. lia.
Qed.

Lemma put_unfold (k : string) (v : pyval) (c : LRUCache) :
  put k v c =
    _evict (Cache (_d (delete k c) ++ [(k, v)])
                  (_size_bytes (delete k c) + _sizeof k v)).
Proof. done. Qed.


Lemma put_ok (k : string) (v : pyval) (c : LRUCache) :
  cache_ok c → cache_ok (put k v c).
Proof.
  intros Hok. rewrite put_unfold. apply evict_ok.
  destruct (delete_ok k c Hok) as [Hd Hk]. by apply snoc_ok.
Qed.

Lemma get_ok (k : string) (c : LRUCache) :
  cache_ok c → cache_ok (snd (get k c)).
Proof.
  intros Hok.
  unfold get. destruct (assoc k (_d c)) as [v'|] eqn:E; [|done].
  destruct (delete_ok k c Hok) as [Hd Hk]. unfold delete in Hd, Hk.
  rewrite E in Hd, Hk.
  pose proof (snoc_ok k v' _ Hd Hk) as [Hnd Hsz]. simpl in *.
  split; [done|]. simpl. lia.
Qed.

(** *** The cache keeps its accounts *)

(** X1: [get], [put], [delete] and [clear] keep the keys distinct and
    [_size_bytes] equal to the size of the entries held. *)
Theorem LRUCache_keeps_accounts (c : LRUCache) (k : string) (v : pyval) :
  cache_ok c →
  cache_ok (snd (get k c)) ∧ cache_ok (put k v c)
  ∧ cache_ok (delete k c) ∧ cache_ok (clear c).
Proof.
  intros Hok. split; [|split; [|split]].
  - by apply get_ok.
  - by apply put_ok.
  - by apply delete_ok.
  - split; [constructor|done].
Qed.

Lemma evict_items_length (d : list (string * pyval)) (size : Z) :
  (Z.of_nat (length (fst (evict_items d size))) <= Z.max 0 max_items)%Z.
Proof.
  revert size. induction d as [|[k v] d IH]; intros size.
  - simpl. lia.
  - cbn [evict_items].
    destruct (Z.ltb max_items (Z.of_nat (length ((k, v) :: d)))) eqn:E.
    + apply IH.
    + cbn [fst]. lia.
Qed.

Lemma evict_bytes_fits (d : list (string * pyval)) (size : Z) :
  fst (evict_bytes d size) = [] ∨ (snd (evict_bytes d size) <= max_bytes)%Z.
Proof.
  revert size. induction d as [|[k v] d IH]; intros size; simpl.
  - by left.
  - destruct (Z.ltb max_bytes size) eqn:E; [apply IH|]. right. simpl. lia.
Qed.

Lemma accounted_nonneg (d : list (string * pyval)) :
  (∀ k v, (0 <= _sizeof k v)%Z) → (0 <= accounted d)%Z.
Proof.
  intros Hpos. induction d as [|[k v] d IH]; simpl; [lia|].
  specialize (Hpos k v). lia.
Qed.

(** X2: after [put] the cache holds at most [max_items] entries (none
    when [max_items] is negative), and either nothing or no more than
    [max_bytes] bytes. *)
Theorem LRUCache_put_within_limits (c : LRUCache) (k : string) (v : pyval) :
  (∀ k v, (0 <= _sizeof k v)%Z) →
  (Z.of_nat (length (_d (put k v c))) <= Z.max 0 max_items)%Z
  ∧ (_d (put k v c) = [] ∨ (_size_bytes (put k v c) <= max_bytes)%Z).
Proof.
  intros Hpos. rewrite put_unfold. unfold _evict.
  set (c1 := Cache _ _).
  pose proof (evict_bytes_fits (_d c1) (_size_bytes c1)) as Hb.
  destruct (evict_bytes (_d c1) (_size_bytes c1)) as [d1 s1]. simpl in Hb.
  pose proof (evict_items_length d1 s1) as Hl.
  destruct (evict_items_suffix d1 s1) as (dropped & Hd & Hs).
  destruct (evict_items d1 s1) as [d2 s2]. simpl in *.
  split; [done|]. destruct Hb as [->|Hb].
  - left. symmetry in Hd. by apply app_eq_nil in Hd as [_ ?].
  - right. pose proof (accounted_nonneg dropped Hpos). lia.
Qed.

Lemma evict_bytes_keeps_last (d : list (string * pyval)) (k : string)
    (v : pyval) :
  (_sizeof k v <= max_bytes)%Z →
  ∃ d', fst (evict_bytes (d ++ [(k, v)]) (accounted (d ++ [(k, v)])))
        = d' ++ [(k, v)].
Proof.
  intros Hfit. induction d as [|[k' v'] d IH].
  - exists []. simpl. by rewrite (proj2 (Z.ltb_ge _ _)) by lia.
  - cbn [app evict_bytes].
    destruct (Z.ltb max_bytes (accounted ((k', v') :: d ++ [(k, v)]))).
    + destruct IH as (d' & Hd'). exists d'. rewrite <- Hd'.
      replace (accounted ((k', v') :: d ++ [(k, v)]) - _sizeof k' v')
        with (accounted (d ++ [(k, v)])) by (simpl; lia).
      done.
    + by exists ((k', v') :: d).
Qed.

Lemma evict_items_keeps_last (d : list (string * pyval)) (k : string)
    (v : pyval) (size : Z) :
  (1 <= max_items)%Z →
  ∃ d', fst (evict_items (d ++ [(k, v)]) size) = d' ++ [(k, v)].
Proof.
  intros Hone. revert size. induction d as [|[k' v'] d IH]; intros size.
  - exists []. simpl. by rewrite (proj2 (Z.ltb_ge _ _)) by lia.
  - cbn [app evict_items].
    destruct (Z.ltb max_items (Z.of_nat (length ((k', v') :: d ++ [(k, v)])))).
    + apply IH.
    + by exists ((k', v') :: d).
Qed.

(** X3: an entry that fits on its own survives its own [put]: it is the
    most recently used entry afterwards and [get] returns it. *)
Theorem LRUCache_put_then_get (c : LRUCache) (k : string) (v : pyval) :
  cache_ok c → (_sizeof k v <= max_bytes)%Z → (1 <= max_items)%Z →
  last (_d (put k v c)) = Some (k, v) ∧ fst (get k (put k v c)) = v.
Proof.
  intros Hok Hfit Hone.
  pose proof (put_ok k v c Hok) as Hok'.
  assert (Hlast : ∃ d', _d (put k v c) = d' ++ [(k, v)]).
  { rewrite put_unfold. unfold _evict.
    destruct (delete_ok k c Hok) as [Hd Hk].
    pose proof (snoc_ok k v _ Hd Hk) as [_ Hsz]. simpl in Hsz.
    set (c1 := Cache _ _) in *. cbn [_d _size_bytes] .
    change (_size_bytes c1) with (_size_bytes (delete k c) + _sizeof k v).
    rewrite Hsz.
    destruct (evict_bytes_keeps_last (_d (delete k c)) k v Hfit) as (d1 & Hd1).
    destruct (evict_bytes _ _) as [d1' s1]. simpl in Hd1. subst d1'.
    destruct (evict_items_keeps_last d1 k v s1 Hone) as (d2 & Hd2).
    destruct (evict_items _ _) as [d2' s2]. simpl in Hd2. subst d2'.
    by exists d2. }
  destruct Hlast as (d' & Hd'). split.
  - rewrite Hd'. apply last_snoc.
  - unfold get. destruct Hok' as [Hnd _].
    rewrite (in_assoc_Some k v) ; [done|done|].
    rewrite Hd'. apply elem_of_app. right. by left.
Qed.

(** X4: [put] drops entries from the least recently used end only: what
    it keeps is the most recently used end of the order in which [k] is
    the newest entry; a hit of [get] makes its key the newest. *)
Theorem LRUCache_evicts_least_recent (c : LRUCache) (k : string) (v : pyval) :
  (∃ dropped, _d (delete k c) ++ [(k, v)] = dropped ++ _d (put k v c))
  ∧ (∀ k' v', assoc k' (_d c) = Some v' →
       fst (get k' c) = v'
       ∧ _d (snd (get k' c)) = _d (delete k' c) ++ [(k', v')]).
Proof.
  split.
  - rewrite put_unfold.
    destruct (evict_suffix (Cache (_d (delete k c) ++ [(k, v)])
                (_size_bytes (delete k c) + _sizeof k v))) as (dropped & Hd & _).
    by exists dropped.
  - intros k' v' E. unfold get, delete. by rewrite E.
Qed.


Lemma put_entries (k k' : string) (v v' : pyval) (c : LRUCache) :
  cache_ok c → assoc k' (_d (put k v c)) = Some v' →
  (k' = k ∧ v' = v) ∨ (k' ≠ k ∧ assoc k' (_d c) = Some v').
Proof.
  intros Hok E.
  destruct (delete_ok k c Hok) as [Hd Hk].
  pose proof (snoc_ok k v _ Hd Hk) as [Hnd _]. simpl in Hnd.
  apply assoc_Some_in in E.
  assert (Hin : (k', v') ∈ _d (delete k c) ++ [(k, v)]).
  { rewrite put_unfold in E.
    destruct (evict_suffix (Cache (_d (delete k c) ++ [(k, v)])
                (_size_bytes (delete k c) + _sizeof k v))) as (dropped & Hdr & _).
    simpl in Hdr. rewrite Hdr. apply elem_of_app. by right. }
  apply elem_of_app in Hin as [Hin|Hin].
  - right. assert (Hne : k' ≠ k).
    { intros ->. apply Hk. apply list_elem_of_fmap. by exists (k, v'). }
    split; [done|].
    destruct Hd as [Hnd' _]. apply (in_assoc_Some k' v') in Hin; [|done].
    unfold delete in Hin. destruct (assoc k (_d c)); [|done].
    simpl in Hin. by rewrite pop_other in Hin.
  - left. apply list_elem_of_singleton in Hin. by injection Hin as -> ->.
Qed.

Lemma get_entries (k k' : string) (v' : pyval) (c : LRUCache) :
  cache_ok c → assoc k' (_d (snd (get k c))) = Some v' →
  assoc k' (_d c) = Some v'.
Proof.
  intros Hok E. unfold get in E.
  destruct (assoc k (_d c)) as [v|] eqn:Ek; [|done]. simpl in E.
  destruct (delete_ok k c Hok) as [Hd Hk]. unfold delete in Hd, Hk.
  rewrite Ek in Hd, Hk. simpl in Hk.
  apply assoc_Some_in in E. apply elem_of_app in E as [Hin|Hin].
  - assert (Hne : k' ≠ k).
    { intros ->. apply Hk. apply list_elem_of_fmap. by exists (k, v'). }
    destruct Hd as [Hnd' _]. apply (in_assoc_Some k' v') in Hin; [|done].
    by rewrite pop_other in Hin.
  - apply list_elem_of_singleton in Hin. by injection Hin as -> ->.
Qed.

End Cache.

End LRU.

(** ** The endpoints *)

Section Endpoints.
(** [CACHE = LRUCache(MAX_CACHE_ITEMS, MAX_CACHE_SIZE_BYTES)] *)
Variable _sizeof : string → pyval → Z.
Variable MAX_CACHE_ITEMS MAX_CACHE_SIZE_BYTES : Z.

Local Abbreviation LRUCache := LRU.LRUCache.
Local Abbreviation get := LRU.get.
Local Abbreviation put := (LRU.put _sizeof MAX_CACHE_ITEMS MAX_CACHE_SIZE_BYTES).
Local Abbreviation cache_ok := (LRU.cache_ok _sizeof).

(** The process: the table and [CACHE]. *)
Record server : Type := Server {
  db : table;
  CACHE : LRUCache
}.

Definition found (key : string) (v : pyval) : pyval :=
  PDict [("key", PStr key); ("value", v)].

Definition ok_true : pyval := PDict [("ok", PBool true)].

(** [GET /kv/{key}]: the cache first, then the table, which fills the
    cache. *)
Definition get_key (key : string) (s : server) : res pyval * server :=
  let '(v, c) := get key (CACHE s) in
  match v with
  | PNone =>
      match db_get (db s) key with
      | PNone => (Err (HTTPException 404), Server (db s) c)
      | v => (Ok (found key v), Server (db s) (put key v c))
      end
  | _ => (Ok (found key v), Server (db s) c)
  end.

(** [PUT /kv/{key}]: write-through, the table then the cache. *)
Definition put_key (key : string) (value : pyval) (s : server)
  : res pyval * server :=
  match db_put key value (db s) with
  | Ok tbl => (Ok ok_true, Server tbl (put key value (CACHE s)))
  | Err e => (Err e, s)
  end.

(** [POST /kv/cas] *)
Definition cas (key : string) (old new : pyval) (s : server)
  : res pyval * server :=
  match db_cas key old new (db s) with
  | Ok (true, tbl) => (Ok ok_true, Server tbl (put key new (CACHE s)))
  | Ok (false, tbl) =>
      (Ok (PDict [("ok", PBool false); ("current", db_get tbl key)]),
       Server tbl (CACHE s))
  | Err e => (Err e, s)
  end.

Inductive request : Type :=
| GET (key : string)
| PUT (key : string) (value : pyval)
| CAS (key : string) (old new : pyval).

Definition serve (r : request) (s : server) : res pyval * server :=
  match r with
  | GET key => get_key key s
  | PUT key value => put_key key value s
  | CAS key old new => cas key old new s
  end.

(** The process after the requests [rs], served one after the other. *)
Definition served (rs : list request) (s : server) : server :=
  fold_left (fun s r => snd (serve r s)) rs s.

(** The process at startup: the table as the file holds it, the cache
    empty. *)
Definition started (tbl : table) : server := Server tbl (LRU.Cache [] 0).

(** Every cached value that is not [None] is the value of the table. *)
Definition coherent (s : server) : Prop :=
  cache_ok (CACHE s)
  ∧ ∀ k v, assoc k (LRU._d (CACHE s)) = Some v → v ≠ PNone → db s !! k = Some v.

Lemma fill_coherent (k : string) (v : pyval) (tbl : table) (c : LRUCache) :
  cache_ok c →
  (∀ k' v', assoc k' (LRU._d c) = Some v' → v' ≠ PNone → tbl !! k' = Some v') →
  db_get tbl k = v → v ≠ PNone →
  coherent (Server tbl (put k v c)).
Proof.
  intros Hok Hco Edb Hv. split; [by apply LRU.put_ok|]. simpl.
  intros k' v' E Hne. apply LRU.put_entries in E as [[-> ->]|[_ E]]; [| |done].
  - unfold db_get in Edb. destruct (tbl !! k); simpl in *; by subst.
  - by apply Hco.
Qed.

Lemma get_key_coherent (k : string) (s : server) :
  coherent s →
  fst (get_key k s) = match db_get (db s) k with
                      | PNone => Err (HTTPException 404)
                      | v => Ok (found k v)
                      end
  ∧ db (snd (get_key k s)) = db s
  ∧ coherent (snd (get_key k s)).
Proof.
  intros [Hok Hco]. unfold get_key.
  pose proof (LRU.get_ok _sizeof k (CACHE s) Hok) as Hok'.
  pose proof (LRU.get_entries _sizeof k) as Hge.
  destruct (get k (CACHE s)) as [v c] eqn:Eg. simpl in Hok'.
  assert (Hco' : ∀ k' v', assoc k' (LRU._d c) = Some v' → v' ≠ PNone →
                          db s !! k' = Some v').
  { intros k' v' E. apply Hco. apply (Hge k' v' (CACHE s) Hok).
    by rewrite Eg. }
  assert (Hhit : v ≠ PNone → db_get (db s) k = v).
  { intros Hv. unfold get in Eg.
    destruct (assoc k (LRU._d (CACHE s))) as [v0|] eqn:E0.
    - injection Eg as <- <-. unfold db_get. by rewrite (Hco k v0 E0 Hv).
    - by injection Eg as <- <-. }
  destruct (is_none v) as [->|Hv].
  - pose proof (fill_coherent k (db_get (db s) k) (db s) c Hok' Hco' eq_refl)
      as Hfill.
    destruct (db_get (db s) k) eqn:Edb; simpl;
      (split; [done|]; split; [done|]); try (by apply Hfill).
    by split.
  - rewrite (Hhit Hv). destruct v; try done; simpl; by repeat split.
Qed.

Lemma put_key_coherent (k : string) (v : pyval) (s : server) :
  coherent s → coherent (snd (put_key k v s)).
Proof.
  intros [Hok Hco]. unfold put_key, db_put.
  destruct (json_serializable v); [|done]. simpl.
  split; [by apply LRU.put_ok|]. simpl.
  intros k' v' E Hne. apply LRU.put_entries in E as [[-> ->]|[Hk E]]; [| |done].
  - by rewrite lookup_insert_eq.
  - rewrite lookup_insert_ne by done. by apply Hco.
Qed.

Lemma db_cas_writes (k : string) (old new : pyval) (tbl tbl' : table) :
  db_cas k old new tbl = Ok (true, tbl') → tbl' = <[k := new]> tbl.
Proof.
  unfold db_cas. destruct (json_serializable new); [|done]. simpl.
  destruct (tbl !! k) as [cur|]; destruct old; try done;
    try (by intros [= <-]);
    destruct (py_eqb cur _); by intros [= <-].
Qed.

Lemma db_cas_refused (k : string) (old new : pyval) (tbl tbl' : table) :
  db_cas k old new tbl = Ok (false, tbl') → tbl' = tbl.
Proof.
  unfold db_cas. destruct (json_serializable new); [|done]. simpl.
  destruct (tbl !! k) as [cur|]; destruct old; try done;
    try (by intros [= <-]);
    destruct (py_eqb cur _); by intros [= <-].
Qed.

Lemma cas_coherent (k : string) (old new : pyval) (s : server) :
  coherent s → coherent (snd (cas k old new s)).
Proof.
  intros [Hok Hco]. unfold cas.
  destruct (db_cas k old new (db s)) as [[[] tbl]|e] eqn:E; [| |done].
  - apply db_cas_writes in E. subst tbl. simpl.
    split; [by apply LRU.put_ok|]. simpl.
    intros k' v' E Hne. apply LRU.put_entries in E as [[-> ->]|[Hk E]]; [| |done].
    + by rewrite lookup_insert_eq.
    + rewrite lookup_insert_ne by done. by apply Hco.
  - apply db_cas_refused in E. by subst tbl.
Qed.

Lemma served_coherent (rs : list request) (s : server) :
  coherent s → coherent (served rs s).
Proof.
  revert s. induction rs as [|r rs IH]; intros s Hs; [done|].
  apply IH. destruct r; simpl.
  - by apply get_key_coherent.
  - by apply put_key_coherent.
  - by apply cas_coherent.
Qed.

Lemma started_coherent (tbl : table) : coherent (started tbl).
Proof. split; [split; [constructor|done]|done]. Qed.


(** X6: a key whose value is JSON [null] has a row and cannot be read:
    after a PUT of [None], which answers ok, a GET of the key answers
    404, and yet a CAS that expects the key to be absent is refused. *)
Theorem put_key_null_is_unreadable (tbl : table) (rs : list request)
    (key : string) (new : pyval) :
  json_serializable new = true →
  let s := served rs (started tbl) in
  let s' := snd (put_key key PNone s) in
  fst (put_key key PNone s) = Ok ok_true
  ∧ db s' !! key = Some PNone
  ∧ fst (get_key key s') = Err (HTTPException 404)
  ∧ fst (cas key PNone new s')
    = Ok (PDict [("ok", PBool false); ("current", PNone)])
  ∧ db (snd (cas key PNone new s')) = db s'.
Proof.
  intros Hj s s'.
  assert (Hs : coherent s) by apply served_coherent, started_coherent.
  assert (Hs' : coherent s') by by apply put_key_coherent.
  assert (Hrow : db s' !! key = Some PNone).
  { subst s'. unfold put_key, db_put. simpl. by rewrite lookup_insert_eq. }
  split; [done|]. split; [done|].
  destruct (get_key_coherent key s' Hs') as (Hg & _ & _).
  split.
  - rewrite Hg. unfold db_get. by rewrite Hrow.
  - unfold cas. rewrite (db_cas_none_present key new PNone) by done. simpl.
    unfold db_get. by rewrite lookup_insert_eq.
Qed.


End Endpoints.

(** ** Locks *)

(** [STORE_LOCKS]: lock name -> expiry time. *)
Abbreviation locks := (gmap string Q).

(** [POST /lock/acquire/{key}], given the reading of the clock. *)
Definition lock_acquire (key : string) (ttl_sec : Z) (now : Q) (ls : locks)
  : pyval * locks :=
  let exp := default 0%Q (ls !! key) in
  if Qle_bool exp now
  then (PDict [("ok", PBool true)], <[key := (now + inject_Z ttl_sec)%Q]> ls)
  else (PDict [("ok", PBool false); ("expires_at", PNum exp)], ls).

(** [POST /lock/release/{key}] *)
Definition lock_release (key : string) (ls : locks) : pyval * locks :=
  (PDict [("ok", PBool true)], delete key ls).

Definition granted (r : pyval * locks) : bool :=
  match dict_get (fst r) "ok" with
  | Ok v => truthy v
  | Err _ => false
  end.


(** X9: nothing ties a lock to who holds it.  Once the expiry has come a
    lock is granted again without any release, and after a release, by
    whoever sends it, the next request is granted (the clock is not
    negative); a release of a name that is not locked changes nothing. *)
Theorem lock_acquire_after_expiry_or_release (key : string)
    (ttl_sec ttl_sec' : Z) (now now' : Q) (ls : locks) :
  (0 <= now')%Q →
  (granted (lock_acquire key ttl_sec now ls) = true →
   (now + inject_Z ttl_sec <= now')%Q →
   granted (lock_acquire key ttl_sec' now'
              (snd (lock_acquire key ttl_sec now ls))) = true)
  ∧ granted (lock_acquire key ttl_sec' now' (snd (lock_release key ls))) = true
  ∧ (ls !! key = None → snd (lock_release key ls) = ls).
Proof.
  intros Hpos. split; [|split].
  - intros Hg Hle. unfold lock_acquire in *.
    destruct (Qle_bool (default 0%Q (ls !! key)) now) eqn:E; [|done].
    simpl. rewrite lookup_insert_eq. simpl.
    apply Qle_bool_iff in Hle. by rewrite Hle.
  - unfold lock_acquire, lock_release. simpl. rewrite lookup_delete_eq. simpl.
    apply Qle_bool_iff in Hpos. by rewrite Hpos.
  - intros Hk. simpl. by apply delete_id.
Qed.

(** ** Examples *)

(** The estimate [_sizeof] falls back on: the key plus 32 bytes. *)
Definition key_plus_32 (k : string) (v : pyval) : Z :=
  Z.of_nat (String.length k) + 32.

Definition one_entry : LRU.LRUCache := LRU.Cache [("a", PInt 1)] 33.

Lemma LRUCache_keeps_accounts_witness :
  LRU.cache_ok key_plus_32 (LRU.put key_plus_32 2 1000 "b" (PInt 2) one_entry).
Proof.
  apply (LRU.LRUCache_keeps_accounts key_plus_32 2 1000 one_entry "b" (PInt 2)).
  split; [apply NoDup_singleton | reflexivity].
Defined.

Lemma LRUCache_put_within_limits_witness :
  (Z.of_nat (length (LRU._d (LRU.put key_plus_32 1 1000 "b" (PInt 2) one_entry)))
   <= Z.max 0 1)%Z.
Proof.
  apply (LRU.LRUCache_put_within_limits key_plus_32 1 1000 one_entry "b" (PInt 2)).
  intros k v. unfold key_plus_32. lia.
Defined.

Lemma LRUCache_put_then_get_witness :
  fst (LRU.get "b" (LRU.put key_plus_32 1 1000 "b" (PInt 2) one_entry)) = PInt 2.
Proof.
  apply (LRU.LRUCache_put_then_get key_plus_32 1 1000 one_entry "b" (PInt 2)).
  - split; [apply NoDup_singleton | reflexivity].
  - vm_compute. discriminate.
  - lia.
Defined.

Lemma put_key_null_is_unreadable_witness :
  fst (get_key key_plus_32 10 1000 "k"
         (snd (put_key key_plus_32 10 1000 "k" PNone (started ∅))))
  = Err (HTTPException 404).
Proof.
  apply (put_key_null_is_unreadable key_plus_32 10 1000 ∅ [] "k" (PStr "v")).
  reflexivity.
Defined.



Lemma lock_acquire_after_expiry_or_release_witness :
  granted (lock_acquire "drone:d1" 20 101
             (snd (lock_release "drone:d1"
                     (snd (lock_acquire "drone:d1" 20 100 ∅))))) = true.
Proof.
  apply (lock_acquire_after_expiry_or_release "drone:d1" 20 20 100 101
           (snd (lock_acquire "drone:d1" 20 100 ∅))).
  discriminate.
Defined.

End Kvstore.

(* ===================================================================== *)
(** * The replication coordinator (kvfront/app.py) *)
(* ===================================================================== *)

Module Kvfront.

(** Requests the coordinator sends, each with what the helper that sends
    it returns. *)
Inductive fcall : Type → Type :=
| GetOne (base key : string) : fcall pyval
    (* get_one: the stored value; None on 404 and on any failure *)
| PutOne (base key : string) (val : pyval) : fcall bool
    (* put_one: whether the backend answered 200 or 201 *)
| PostCas (base key : string) (old new : pyval) : fcall (res pyval)
    (* c.post(base/kv/cas), raise_for_status, r.json() *)
| Time : fcall Q.
    (* time.time() *)

(** [_HINTS]: backend url -> writes still to deliver, oldest first. *)
Definition hints : Type := list (string * list (string * pyval)).

Abbreviation fprog := (prog fcall hints).

Record config : Type := Config {
  BACKENDS : list string;
  RF : Z;
  READ_REPAIR : bool;
  HINT_FLUSH_SEC : Z
}.

Definition default_config : config :=
  {| BACKENDS := ["http://kvstore:9000"]; RF := 1;
     READ_REPAIR := true; HINT_FLUSH_SEC := 2 |}.

(** ** MD5 (RFC 1321), as [hashlib.md5] computes it *)

Module MD5.

(** [floor(2^32 * abs(sin(i + 1)))] for [i] from 0 to 63 *)
Definition K : list Z :=
  [3614090360; 3905402710; 606105819; 3250441966; 4118548399; 1200080426;
   2821735955; 4249261313; 1770035416; 2336552879; 4294925233; 2304563134;
   1804603682; 4254626195; 2792965006; 1236535329; 4129170786; 3225465664;
   643717713; 3921069994; 3593408605; 38016083; 3634488961; 3889429448;
   568446438; 3275163606; 4107603335; 1163531501; 2850285829; 4243563512;
   1735328473; 2368359562; 4294588738; 2272392833; 1839030562; 4259657740;
   2763975236; 1272893353; 4139469664; 3200236656; 681279174; 3936430074;
   3572445317; 76029189; 3654602809; 3873151461; 530742520; 3299628645;
   4096336452; 1126891415; 2878612391; 4237533241; 1700485571; 2399980690;
   4293915773; 2240044497; 1873313359; 4264355552; 2734768916; 1309151649;
   4149444226; 3174756917; 718787259; 3951481745].

(** The rotation of each of the 64 steps *)
Definition shifts : list Z :=
  [7; 12; 17; 22; 7; 12; 17; 22; 7; 12; 17; 22; 7; 12; 17; 22;
   5; 9; 14; 20; 5; 9; 14; 20; 5; 9; 14; 20; 5; 9; 14; 20;
   4; 11; 16; 23; 4; 11; 16; 23; 4; 11; 16; 23; 4; 11; 16; 23;
   6; 10; 15; 21; 6; 10; 15; 21; 6; 10; 15; 21; 6; 10; 15; 21].

Definition w32 (x : Z) : Z := x mod 2 ^ 32.

Definition rotl (x c : Z) : Z :=
  w32 (Z.lor (Z.shiftl x c) (Z.shiftr x (32 - c))).

Definition not32 (x : Z) : Z := w32 (Z.lnot x).

(** The bytes of a string; a string holds its UTF-8 encoding. *)
Definition bytes (s : string) : list Z :=
  map (fun a => Z.of_N (N_of_ascii a)) (list_ascii_of_string s).

(** [k] bytes of [x], least significant first *)
Fixpoint le_bytes (k : nat) (x : Z) : list Z :=
  match k with
  | O => []
  | S k' => x mod 256 :: le_bytes k' (x / 256)
  end.

Fixpoint le_word (bs : list Z) : Z :=
  match bs with
  | [] => 0
  | b :: bs' => b + 256 * le_word bs'
  end.

(** The message, a 1 bit, zeros up to 56 modulo 64, and the length in
    bits on 8 bytes. *)
Definition pad (msg : list Z) : list Z :=
  let n := Z.of_nat (length msg) in
  msg ++ [128] ++ repeat 0 (Z.to_nat ((55 - n) mod 64)) ++ le_bytes 8 (8 * n).

(** [n] groups of [size] elements *)
Fixpoint chunks {A : Type} (n size : nat) (l : list A) : list (list A) :=
  match n with
  | O => []
  | S n' => firstn size l :: chunks n' size (skipn size l)
  end.

Definition step (M : list Z) (st : Z * Z * Z * Z) (i : Z) : Z * Z * Z * Z :=
  let '(A, B, C, D) := st in
  let '(F, g) :=
    if Z.ltb i 16 then (Z.lor (Z.land B C) (Z.land (not32 B) D), i)
    else if Z.ltb i 32 then
      (Z.lor (Z.land D B) (Z.land (not32 D) C), (5 * i + 1) mod 16)
    else if Z.ltb i 48 then (Z.lxor (Z.lxor B C) D, (3 * i + 5) mod 16)
    else (Z.lxor C (Z.lor B (not32 D)), (7 * i) mod 16) in
  let F := w32 (F + A + nth (Z.to_nat i) K 0 + nth (Z.to_nat g) M 0) in
  (D, w32 (B + rotl F (nth (Z.to_nat i) shifts 0)), B, C).

Definition block (st : Z * Z * Z * Z) (chunk : list Z) : Z * Z * Z * Z :=
  let M := map le_word (chunks 16 4 chunk) in
  let '(a0, b0, c0, d0) := st in
  let '(A, B, C, D) := fold_left (step M) (map Z.of_nat (seq 0 64)) st in
  (w32 (a0 + A), w32 (b0 + B), w32 (c0 + C), w32 (d0 + D)).

(** The 16 bytes of the digest *)
Definition digest (msg : list Z) : list Z :=
  let padded := pad msg in
  let '(a0, b0, c0, d0) :=
    fold_left block (chunks (length padded / 64) 64 padded)
              (1732584193, 4023233417, 2562383102, 271733878) in
  le_bytes 4 a0 ++ le_bytes 4 b0 ++ le_bytes 4 c0 ++ le_bytes 4 d0.

(** [int(hashlib.md5(s.encode("utf-8")).hexdigest(), 16)] *)
Definition hexdigest_int (s : string) : Z :=
  fold_left (fun acc b => acc * 256 + b) (digest (bytes s)) 0.

End MD5.

Section Coordinator.
Variable cfg : config.
(** [_h]: the MD5 digest of the key read as an integer. *)
Variable _h : string → Z.

(** The replication factor after [if RF > len(BACKENDS): RF = len(BACKENDS)]. *)
Definition effective_RF : Z :=
  if Z.ltb (Z.of_nat (length (BACKENDS cfg))) (RF cfg)
  then Z.of_nat (length (BACKENDS cfg)) else RF cfg.

Definition replica_set (key : string) : list string :=
  match BACKENDS cfg with
  | [] => []
  | _ =>
      let n := Z.of_nat (length (BACKENDS cfg)) in
      let start := _h key mod n in
      map (fun i => nth (Z.to_nat ((start + Z.of_nat i) mod n)) (BACKENDS cfg) "")
          (seq 0 (Z.to_nat effective_RF))
  end.

(** [wrap], given the reading of the clock *)
Definition wrapped (ts : Q) (value : pyval) : pyval :=
  PDict [("_ts", PNum ts); ("data", value)].

Definition unwrap (stored : pyval) : res (Q * pyval) :=
  if is_dict stored && dict_has stored "_ts" && dict_has stored "data" then
    ts ← subscript stored "_ts" ≫= py_float;
    data ← subscript stored "data";
    Ok (ts, data)
  else Ok (0%Q, stored).

(** [unwrap(v)[1] if v is not None else None] *)
Definition unwrap_data (v : pyval) : res pyval :=
  match v with
  | PNone => Ok PNone
  | _ => p ← unwrap v; Ok (snd p)
  end.

(** [unwrap(v)[0] if v is not None else -1.0] *)
Definition unwrap_ts (v : pyval) : res Q :=
  match v with
  | PNone => Ok (-1)%Q
  | _ => p ← unwrap v; Ok (fst p)
  end.

(** [_HINTS.setdefault(b, []).append(item)] *)
Definition hint_append (b : string) (item : string * pyval) : fprog unit :=
  Load (fun hs => Store (assoc_set b (default [] (assoc b hs) ++ [item]) hs) (Ret tt)).

(** The LWW loop of [get_key]: the first response whose timestamp is
    strictly above all earlier ones, starting from [(-1.0, None, -1)]. *)
Fixpoint lww_scan (vals : list pyval) (i : Z) (best : Q * pyval * Z)
  : res (Q * pyval * Z) :=
  match vals with
  | [] => Ok best
  | v :: vals' =>
      match v with
      | PNone => lww_scan vals' (i + 1) best
      | _ =>
          p ← unwrap v;
          let '(best_ts, _, _) := best in
          if Qltb best_ts (fst p)
          then lww_scan vals' (i + 1) (fst p, snd p, i)
          else lww_scan vals' (i + 1) best
      end
  end.

(** The [to_fix] loop of [get_key]; [vals[i]] is read along [reps]. *)
Fixpoint to_fix (rv : list (string * pyval)) (best_ts : Q) : res (list string) :=
  match rv with
  | [] => Ok []
  | (b, v) :: rv' =>
      ts ← unwrap_ts v;
      rest ← to_fix rv' best_ts;
      if Qle_bool 0 ts && Qltb ts best_ts then Ok (b :: rest) else Ok rest
  end.

(** [asyncio.gather] over [get_one]: one answer per replica, in the
    order of the replica set. *)
Definition fan_out (reps : list string) (key : string) : fprog (list pyval) :=
  mapM (fun b => call (GetOne b key)) reps.

(** [_repair_many]: the results of [put_one] are dropped. *)
Definition _repair_many (bases : list string) (key : string) (wrapped_value : pyval)
  : fprog unit :=
  foldM (fun _ b => _ ← call (PutOne b key wrapped_value); mret tt) bases tt.

Definition get_key (key : string) : fprog pyval :=
  let reps := replica_set key in
  match reps with
  | [] => Raise (HTTPException 503)
  | _ =>
      vals ← fan_out reps key;
      best ← lift (lww_scan vals 0 ((-1)%Q, PNone, -1));
      let '(best_ts, best_val, best_idx) := best in
      if Z.ltb best_idx 0 then Raise (HTTPException 404) else
      _ ← (if READ_REPAIR cfg && Qle_bool 0 best_ts then
             fix_ ← lift (to_fix (combine reps vals) best_ts);
             match fix_ with
             | [] => mret tt
             | _ => _repair_many fix_ key (wrapped best_ts best_val)
             end
           else mret tt);
      mret (PDict [("key", PStr key); ("value", best_val)])
  end.

Definition cas_failed (current : pyval) : pyval :=
  PDict [("ok", PBool false); ("current", current)].

Definition cas_ok : pyval := PDict [("ok", PBool true)].

(** The loop over the secondaries at the end of [cas]. *)
Definition replicate (secondaries : list string) (key : string) (new_wrapped : pyval)
  : fprog unit :=
  foldM (fun _ b =>
           ok ← call (PutOne b key new_wrapped);
           if negb ok then hint_append b (key, new_wrapped) else mret tt)
        secondaries tt.

Definition cas (key : string) (old new : pyval) : fprog pyval :=
  match replica_set key with
  | [] => Raise (HTTPException 503)
  | primary :: secondaries =>
      cur_raw ← call (GetOne primary key);
      cur_unwrapped ← lift (unwrap_data cur_raw);
      if negb (py_eqb cur_unwrapped old) then mret (cas_failed cur_unwrapped) else
      now ← call Time;
      let new_wrapped := wrapped now new in
      r ← call (PostCas primary key cur_raw new_wrapped);
      resp ← lift r;
      ok ← lift (dict_get resp "ok");
      if negb (truthy ok) then
        current_backend ← lift (dict_get resp "current");
        current_unwrapped ← lift (unwrap_data current_backend);
        mret (cas_failed current_unwrapped)
      else
        _ ← replicate secondaries key new_wrapped;
        mret cas_ok
  end.

(** A Python float: [m * 2^e] with [m] on 53 bits.  [float(x)] returns
    such a number as it is, and so does the model. *)
Definition is_float (q : Q) : Prop :=
  ∃ m e : Z, (Z.abs m < 2 ^ 53)%Z ∧ (-1074 <= e)%Z ∧ (e <= 971)%Z
             ∧ (q == inject_Z m * 2 ^ e)%Q.

(** What the response of a replica holds.  Nothing, when the replica
    returned [None].  The record [{"_ts": ts, "data": data}] holds
    [data], written at [ts].  Any other value is a raw one: it holds
    itself, written at time 0. *)
Inductive holds : pyval → option (Q * pyval) → Prop :=
| holds_nothing : holds PNone None
| holds_record (d : list (string * pyval)) (ts : Q) (data : pyval) :
    assoc "_ts" d = Some (PNum ts) → assoc "data" d = Some data →
    is_float ts →
    holds (PDict d) (Some (ts, data))
| holds_raw (v : pyval) :
    v ≠ PNone →
    (∀ d, v = PDict d → assoc "_ts" d = None ∨ assoc "data" d = None) →
    holds v (Some (0%Q, v)).

Definition data_of (a : option (Q * pyval)) : pyval :=
  match a with
  | Some (_, data) => data
  | None => PNone
  end.

(** A replica answered, with a timestamp strictly older than [ts]. *)
Definition older (ts : Q) (a : option (Q * pyval)) : bool :=
  match a with
  | Some (t, _) => Qltb t ts
  | None => false
  end.

(** The replicas that answered with a timestamp strictly older than
    [ts], in the order of the replica set. *)
Definition stale_replicas (reps : list string)
    (answers : list (option (Q * pyval))) (ts : Q) : list string :=
  map fst (List.filter (fun ba => older ts (snd ba)) (combine reps answers)).

(** The answer number [i] is the first one with the highest timestamp. *)
Definition newest (answers : list (option (Q * pyval))) (i : nat) (ts : Q)
    (data : pyval) : Prop :=
  answers !! i = Some (Some (ts, data))
  ∧ (∀ j ts' d', (j < i)%nat → answers !! j = Some (Some (ts', d')) →
                 (ts' < ts)%Q)
  ∧ (∀ j ts' d', answers !! j = Some (Some (ts', d')) → (ts' <= ts)%Q).

(** [_HINTS] once [item] went to [secondaries] and [put_one] answered
    [oks]: one more hint for each secondary that answered false. *)
Fixpoint hinted (hs : hints) (secondaries : list string) (oks : list bool)
    (item : string * pyval) : hints :=
  match secondaries, oks with
  | b :: bs, ok :: oks' =>
      hinted (if (ok : bool) then hs
              else assoc_set b (default [] (assoc b hs) ++ [item]) hs)
             bs oks' item
  | _, _ => hs
  end.

Definition hints_of (hs : hints) (b : string) : list (string * pyval) :=
  default [] (assoc b hs).

Lemma hinted_keeps (item : string * pyval) (b : string) :
  ∀ secondaries oks hs,
    item ∈ hints_of hs b → item ∈ hints_of (hinted hs secondaries oks item) b.
Proof.
  induction secondaries as [|b' bs IH]; intros [|ok oks] hs Hin; simpl; try done.
  apply IH. destruct ok; [done|].
  unfold hints_of in *. rewrite assoc_assoc_set.
  destruct (String.eqb b b') eqn:E; [|done]. simpl.
  apply String.eqb_eq in E. subst b'. apply elem_of_app. by left.
Qed.

Lemma hinted_failed (item : string * pyval) :
  ∀ secondaries oks hs i b,
    secondaries !! i = Some b → oks !! i = Some false →
    item ∈ hints_of (hinted hs secondaries oks item) b.
Proof.
  induction secondaries as [|b' bs IH]; intros [|ok oks] hs i b Hb Hok;
    try done.
  destruct i as [|i]; simpl in *.
  - injection Hb as ->. injection Hok as ->.
    apply hinted_keeps. unfold hints_of. rewrite assoc_assoc_set.
    rewrite String.eqb_refl. simpl. apply elem_of_app. right. by left.
  - by eapply IH.
Qed.

Lemma run_hint_append {W : Type} (h : handler fcall W) (b : string)
    (item : string * pyval) (hs : hints) (w : W) :
  run h (hint_append b item) hs w =
    Outcome (Ok tt) (assoc_set b (default [] (assoc b hs) ++ [item]) hs) w [].
Proof. done. Qed.

Lemma run_replicate {W : Type} (h : handler fcall W) (key : string) (nw : pyval) :
  ∀ secondaries hs w,
    ∃ oks w',
      length oks = length secondaries
      ∧ run h (replicate secondaries key nw) hs w =
          Outcome (Ok tt) (hinted hs secondaries oks (key, nw)) w'
            (zip_with (fun b ok => Ev (PutOne b key nw) ok) secondaries oks).
Proof.
  unfold replicate.
  induction secondaries as [|b bs IH]; intros hs w.
  - by exists [], w.
  - cbn [foldM]. run_steps.
    destruct (h bool (PutOne b key nw) w) as [ok w1] eqn:E1.
    destruct ok; cbn [fst snd negb].
    + destruct (IH hs w1) as (oks & w' & Hlen & Hrun).
      exists (true :: oks), w'. split; [cbn; by rewrite Hlen|].
      run_steps. by rewrite Hrun.
    + destruct (IH (assoc_set b (default [] (assoc b hs) ++ [(key, nw)]) hs) w1)
        as (oks & w' & Hlen & Hrun).
      exists (false :: oks), w'. split; [cbn; by rewrite Hlen|].
      rewrite run_hint_append. run_steps. by rewrite Hrun.
Qed.

Lemma lww_scan_answer (v : pyval) (vals : list pyval) (i : Z)
    (best : Q * pyval * Z) (p : Q * pyval) :
  v ≠ PNone → unwrap v = Ok p →
  lww_scan (v :: vals) i best =
    if Qltb (fst (fst best)) (fst p)
    then lww_scan vals (i + 1) (fst p, snd p, i)
    else lww_scan vals (i + 1) best.
Proof.
  intros Hv Hu. destruct best as [[bts bval] bidx].
  destruct v; try done; cbn [lww_scan]; rewrite Hu; done.
Qed.

Lemma holds_unwrap (v : pyval) (ts : Q) (data : pyval) :
  holds v (Some (ts, data)) → v ≠ PNone ∧ unwrap v = Ok (ts, data).
Proof.
  inversion 1 as [|d ts' data' Hts Hdata Hf|v' Hne Hraw]; subst.
  - split; [done|]. unfold unwrap.
    cbn [is_dict dict_has subscript andb]. by rewrite Hts, Hdata.
  - split; [done|]. unfold unwrap.
    match goal with
    | |- (if is_dict ?x && _ && _ then _ else _) = _ =>
        destruct x as [| | | |l|l|l]; try done
    end.
    cbn [is_dict dict_has andb].
    destruct (Hraw l eq_refl) as [-> | ->]; [done|].
    by destruct (assoc "_ts" l).
Qed.

Lemma holds_none (v : pyval) (a : option (Q * pyval)) :
  holds v a → (v = PNone ↔ a = None).
Proof. inversion 1; subst; split; done. Qed.

Lemma holds_unwrap_data (v : pyval) (a : option (Q * pyval)) :
  holds v a → unwrap_data v = Ok (data_of a).
Proof.
  intros H. destruct a as [[ts data]|].
  - apply holds_unwrap in H as [Hv Hu].
    destruct v; try done; cbn [unwrap_data]; by rewrite Hu.
  - by apply holds_none in H as [_ ->].
Qed.

Lemma lww_scan_holds (v : pyval) (a : option (Q * pyval)) (vals : list pyval)
    (i : Z) (best : Q * pyval * Z) :
  holds v a →
  lww_scan (v :: vals) i best =
    match a with
    | None => lww_scan vals (i + 1) best
    | Some (ts, data) =>
        if Qltb (fst (fst best)) ts then lww_scan vals (i + 1) (ts, data, i)
        else lww_scan vals (i + 1) best
    end.
Proof.
  intros H. destruct a as [[ts data]|].
  - apply holds_unwrap in H as [Hv Hu].
    by rewrite (lww_scan_answer v vals i best (ts, data)).
  - by apply holds_none in H as [_ ->].
Qed.

(** The scan keeps what it has when no answer is newer. *)
Lemma lww_scan_settled (vals : list pyval) (answers : list (option (Q * pyval))) :
  Forall2 holds vals answers →
  ∀ (i : Z) (best : Q * pyval * Z),
    (∀ ts d, Some (ts, d) ∈ answers → (ts <= fst (fst best))%Q) →
    lww_scan vals i best = Ok best.
Proof.
  induction 1 as [|v a vals answers Hv _ IH]; intros i best Hle; [done|].
  rewrite (lww_scan_holds v a) by done.
  assert (Hle' : ∀ ts d, Some (ts, d) ∈ answers → (ts <= fst (fst best))%Q).
  { intros ts d Hin. apply (Hle ts d). by right. }
  destruct a as [[ts data]|]; [|by apply IH].
  assert (Hts : (ts <= fst (fst best))%Q) by (apply (Hle ts data); by left).
  apply Qltb_ge in Hts. rewrite Hts. by apply IH.
Qed.

(** The scan ends on the first answer with the highest timestamp. *)
Lemma lww_scan_newest (vals : list pyval) (answers : list (option (Q * pyval))) :
  Forall2 holds vals answers →
  ∀ (k : nat) (i : Z) (best : Q * pyval * Z) (ts : Q) (data : pyval),
    newest answers k ts data →
    (fst (fst best) < ts)%Q →
    lww_scan vals i best = Ok (ts, data, i + Z.of_nat k).
Proof.
  induction 1 as [|v a vals answers Hv Hall IH];
    intros k i best ts data (Hk & Hbefore & Hmax) Hbest; [done|].
  rewrite (lww_scan_holds v a) by done.
  destruct k as [|k].
  - cbn in Hk. injection Hk as ->.
    apply Qltb_lt in Hbest. rewrite Hbest.
    rewrite (lww_scan_settled vals answers Hall).
    + do 3 f_equal. lia.
    + intros ts' d' Hin. cbn [fst].
      apply list_elem_of_lookup in Hin as [j Hj].
      by apply (Hmax (S j) ts' d').
  - assert (Hn : newest answers k ts data).
    { split; [done|]. split.
      - intros j ts' d' Hj. apply (Hbefore (S j)). lia.
      - intros j ts' d'. apply (Hmax (S j)). }
    replace (i + Z.of_nat (S k)) with (i + 1 + Z.of_nat k) by lia.
    destruct a as [[t d]|]; [|by apply IH].
    assert (Ht : (t < ts)%Q) by (apply (Hbefore 0%nat t d); [lia|done]).
    destruct (Qltb (fst (fst best)) t); by apply IH.
Qed.

(** Either no replica answered, or one answer is the first with the
    highest timestamp. *)
Lemma newest_exists (answers : list (option (Q * pyval))) :
  (∀ a, a ∈ answers → a = None) ∨ ∃ k ts data, newest answers k ts data.
Proof.
  induction answers as [|a answers IH].
  { left. intros a Ha. by apply elem_of_nil in Ha. }
  destruct IH as [Hnone|(k & ts & data & Hk & Hbefore & Hmax)].
  - destruct a as [[t d]|].
    + right. exists 0%nat, t, d. split; [done|]. split; [intros; lia|].
      intros [|j] ts' d' Hj.
      * injection Hj as <- <-. apply Qle_refl.
      * cbn in Hj. apply list_elem_of_lookup_2 in Hj. by apply Hnone in Hj.
    + left. intros a [->|Ha]%elem_of_cons; [done|by apply Hnone].
  - right. destruct a as [[t d]|].
    + destruct (Qlt_le_dec t ts) as [Hlt|Hge].
      * exists (S k), ts, data. split; [done|]. split.
        -- intros [|j] ts' d' Hj Hl.
           ++ by injection Hl as <- <-.
           ++ apply (Hbefore j ts' d'); [lia|done].
        -- intros [|j] ts' d' Hl.
           ++ injection Hl as <- <-. by apply Qlt_le_weak.
           ++ by apply (Hmax j ts' d').
      * exists 0%nat, t, d. split; [done|]. split; [intros; lia|].
        intros [|j] ts' d' Hl.
        -- injection Hl as <- <-. apply Qle_refl.
        -- eapply Qle_trans; [by apply (Hmax j ts' d')|done].
    + exists (S k), ts, data. split; [done|]. split.
      * intros [|j] ts' d' Hj Hl; [done|]. apply (Hbefore j ts' d'); [lia|done].
      * intros [|j] ts' d' Hl; [done|]. by apply (Hmax j ts' d').
Qed.

Lemma to_fix_stale (reps : list string) :
  ∀ (vals : list pyval) (answers : list (option (Q * pyval))) (ts : Q),
    Forall2 holds vals answers →
    (∀ t d, Some (t, d) ∈ answers → (0 <= t)%Q) →
    to_fix (combine reps vals) ts = Ok (stale_replicas reps answers ts).
Proof.
  unfold stale_replicas.
  induction reps as [|b reps IH]; intros vals answers ts Hh Hnn; [done|].
  destruct Hh as [|v a vals answers Hv Hall]; [done|].
  assert (Hnn' : ∀ t d, Some (t, d) ∈ answers → (0 <= t)%Q).
  { intros t d Hin. apply (Hnn t d). by right. }
  cbn [combine to_fix List.filter snd]. rewrite (IH vals answers ts Hall Hnn').
  destruct a as [[t d]|].
  - apply holds_unwrap in Hv as [Hne Hu].
    assert (Hts : unwrap_ts v = Ok t)
      by (destruct v; try done; cbn [unwrap_ts]; by rewrite Hu).
    rewrite Hts. cbn [mbind res_bind older].
    assert (Ht : Qle_bool 0 t = true).
    { apply Qle_bool_iff, (Hnn t d). by left. }
    rewrite Ht. cbn [andb]. by destruct (Qltb t ts).
  - apply holds_none in Hv as [_ ->]; [|done]. done.
Qed.

Lemma run_fan_out {W : Type} (h : handler fcall W) (key : string) :
  ∀ (reps : list string) (hs : hints) (w : W),
    ∃ vals w',
      length vals = length reps
      ∧ run h (fan_out reps key) hs w =
          Outcome (Ok vals) hs w'
            (zip_with (fun b v => Ev (GetOne b key) v) reps vals).
Proof.
  unfold fan_out.
  induction reps as [|b reps IH]; intros hs w.
  - by exists [], w.
  - cbn [mapM]. run_steps.
    destruct (IH hs (snd (h pyval (GetOne b key) w))) as (vals & w' & Hlen & Hrun).
    rewrite Hrun. run_steps.
    exists (fst (h pyval (GetOne b key) w) :: vals), w'.
    split; [cbn; by rewrite Hlen|]. by rewrite app_nil_r.
Qed.

Lemma run_repair_many {W : Type} (h : handler fcall W) (key : string)
    (wv : pyval) :
  ∀ (bases : list string) (hs : hints) (w : W),
    ∃ oks w',
      length oks = length bases
      ∧ run h (_repair_many bases key wv) hs w =
          Outcome (Ok tt) hs w'
            (zip_with (fun b ok => Ev (PutOne b key wv) ok) bases oks).
Proof.
  unfold _repair_many.
  induction bases as [|b bases IH]; intros hs w.
  - by exists [], w.
  - cbn [foldM]. run_steps.
    destruct (IH hs (snd (h bool (PutOne b key wv) w))) as (oks & w' & Hlen & Hrun).
    rewrite Hrun. run_steps.
    exists (fst (h bool (PutOne b key wv) w) :: oks), w'.
    split; [cbn; by rewrite Hlen|done].
Qed.

(** C3, amended: a coordinator GET whose replicas answered with
    timestamps that are not negative.  It answers 404 exactly when every
    replica of the key returned nothing.  Otherwise it answers the data
    of the first response with the highest timestamp; when [READ_REPAIR]
    is set the read-repair PUTs carry that data, wrapped with that
    timestamp, to exactly the replicas that answered with a strictly
    older timestamp (a replica that returned nothing is not written),
    and when it is not set there is no read-repair. *)
Theorem get_key_lww {W : Type} (h : handler fcall W) (w : W) (hs : hints)
    (key : string) (vals : list pyval) (answers : list (option (Q * pyval))) :
  replica_set key ≠ [] →
  result (run h (fan_out (replica_set key) key) hs w) = Ok vals →
  Forall2 holds vals answers →
  (∀ ts data, Some (ts, data) ∈ answers → (0 <= ts)%Q) →
  let o := run h (get_key key) hs w in
  let gets := zip_with (fun b v => Ev (GetOne b key) v) (replica_set key) vals in
  length vals = length (replica_set key)
  ∧ (result o = Err (HTTPException 404) ↔ ∀ a, a ∈ answers → a = None)
  ∧ ((∀ a, a ∈ answers → a = None) → events o = gets)
  ∧ (∀ i ts data,
       newest answers i ts data →
       let stale := if READ_REPAIR cfg
                    then stale_replicas (replica_set key) answers ts
                    else [] in
       result o = Ok (PDict [("key", PStr key); ("value", data)])
       ∧ ∃ oks,
           length oks = length stale
           ∧ events o =
               gets ++ zip_with (fun b ok => Ev (PutOne b key (wrapped ts data)) ok)
                                stale oks).
Proof.
  intros Hreps Hvals Hh Hnn o gets.
  destruct (run_fan_out h key (replica_set key) hs w) as (vals' & w1 & Hlen & Hfan).
  rewrite Hfan in Hvals. injection Hvals as ->.
  split; [done|].
  assert (Ho : ∀ ts data idx,
             lww_scan vals 0 ((-1)%Q, PNone, -1) = Ok (ts, data, idx) →
             o = prefixed gets
                   (run h (if Z.ltb idx 0 then Raise (HTTPException 404) else
                           _ ← (if READ_REPAIR cfg && Qle_bool 0 ts then
                                  fix_ ← lift (to_fix (combine (replica_set key) vals) ts);
                                  match fix_ with
                                  | [] => mret tt
                                  | _ => _repair_many fix_ key (wrapped ts data)
                                  end
                                else mret tt);
                           mret (PDict [("key", PStr key); ("value", data)]))
                      hs w1)).
  { intros ts data idx Hscan. subst o gets. unfold get_key.
    destruct (replica_set key) eqn:E; [done|].
    run_steps. rewrite Hfan. run_steps. rewrite Hscan. by run_steps. }
  assert (Hnone : (∀ a, a ∈ answers → a = None) →
                  result o = Err (HTTPException 404) ∧ events o = gets).
  { intros Hall.
    rewrite (Ho (-1)%Q PNone (-1)).
    - cbn. by rewrite ?app_nil_r.
    - apply (lww_scan_settled vals answers Hh).
      intros ts d Hin. by apply Hall in Hin. }
  assert (Hwin : ∀ i ts data,
             newest answers i ts data →
             let stale := if READ_REPAIR cfg
                          then stale_replicas (replica_set key) answers ts
                          else [] in
             result o = Ok (PDict [("key", PStr key); ("value", data)])
             ∧ ∃ oks,
                 length oks = length stale
                 ∧ events o =
                     gets ++ zip_with
                       (fun b ok => Ev (PutOne b key (wrapped ts data)) ok)
                       stale oks).
  { intros i ts data Hn stale.
    assert (Hts : (0 <= ts)%Q).
    { destruct Hn as (Hi & _). apply (Hnn ts data).
      by apply list_elem_of_lookup_2 in Hi. }
    rewrite (Ho ts data (0 + Z.of_nat i)).
    2:{ apply (lww_scan_newest vals answers Hh); [done|]. cbn [fst]. lra. }
    rewrite (proj2 (Z.ltb_ge (0 + Z.of_nat i) 0)) by lia.
    apply Qle_bool_iff in Hts. rewrite Hts.
    destruct (READ_REPAIR cfg) eqn:Hrr; subst stale; cbn [andb].
    - destruct (run_repair_many h key (wrapped ts data)
                  (stale_replicas (replica_set key) answers ts) hs w1)
        as (oks & w2 & Hlen' & Hrep).
      assert (Hnn' : ∀ t d, Some (t, d) ∈ answers → (0 <= t)%Q) by done.
      run_steps. rewrite (to_fix_stale _ _ _ _ Hh Hnn'). run_steps.
      destruct (stale_replicas (replica_set key) answers ts) as [|b bs] eqn:Es.
      + destruct oks; [|done]. run_steps. cbn. split; [done|]. by exists [].
      + rewrite Hrep. run_steps. cbn. rewrite !app_nil_r.
        split; [done|]. by exists oks.
    - run_steps. cbn. split; [done|]. exists []. by rewrite !app_nil_r. }
  split; [|split; [|exact Hwin]].
  - split; [|by intros Hall; apply Hnone].
    intros Hres.
    destruct (newest_exists answers) as [Hall|(k & ts & data & Hn)]; [done|].
    destruct (Hwin k ts data Hn) as [Hr _]. rewrite Hr in Hres. discriminate.
  - by intros Hall; apply Hnone.
Qed.


End Coordinator.

(** [_h]: the MD5 digest of the key, in hexadecimal, read as an integer. *)
Definition _h (s : string) : Z := MD5.hexdigest_int s.

(** ** A cluster to run the coordinator against *)

(** The tables of the backends, the backends that are unreachable, and
    the clock of the coordinator. *)
Record cluster : Type := Cluster {
  tables : gmap string (gmap string pyval);
  down : list string;
  clock : Q
}.

Definition table_of (cl : cluster) (base : string) : gmap string pyval :=
  default ∅ (tables cl !! base).

Definition is_down (cl : cluster) (base : string) : bool :=
  existsb (String.eqb base) (down cl).

Definition with_table (cl : cluster) (base : string) (tbl : gmap string pyval)
  : cluster :=
  Cluster (<[base := tbl]> (tables cl)) (down cl) (clock cl).

(** Each request is answered by the backend of [Kvstore]. *)
Definition backend_answer : handler fcall cluster :=
  fun R c =>
    match c in fcall R return cluster → R * cluster with
    | GetOne base key => fun cl =>
        if is_down cl base then (PNone, cl)
        else (Kvstore.db_get (table_of cl base) key, cl)
    | PutOne base key val => fun cl =>
        if is_down cl base then (false, cl) else
        match Kvstore.db_put key val (table_of cl base) with
        | Ok tbl => (true, with_table cl base tbl)
        | Err _ => (false, cl)
        end
    | PostCas base key old new => fun cl =>
        if is_down cl base then (Err TransportError, cl) else
        match Kvstore.db_cas key old new (table_of cl base) with
        | Ok (true, tbl) => (Ok (PDict [("ok", PBool true)]), with_table cl base tbl)
        | Ok (false, _) =>
            (Ok (PDict [("ok", PBool false);
                        ("current", Kvstore.db_get (table_of cl base) key)]), cl)
        | Err e => (Err e, cl)
        end
    | Time => fun cl => (clock cl, Cluster (tables cl) (down cl) (clock cl + 1))
    end.

(** Another process writes to the backends between two requests of the
    coordinator: [others n] is what it does to the cluster just before
    the request number [n] (from 0) is answered. *)
Definition racing (others : nat → cluster → cluster)
  : handler fcall (nat * cluster) :=
  fun R c w =>
    let '(r, cl) := backend_answer R c (others (fst w) (snd w)) in
    (r, (S (fst w), cl)).

Definition two_replicas : config :=
  {| BACKENDS := ["http://a:9000"; "http://b:9000"]; RF := 2;
     READ_REPAIR := true; HINT_FLUSH_SEC := 2 |}.

Definition no_repair : config :=
  {| BACKENDS := ["http://a:9000"; "http://b:9000"]; RF := 2;
     READ_REPAIR := false; HINT_FLUSH_SEC := 2 |}.

(** The digest of ["k"] is odd: replica b is the primary of the key and
    replica a its secondary. *)
Lemma replica_set_k :
  replica_set two_replicas _h "k" = ["http://b:9000"; "http://a:9000"].
Proof. vm_compute. reflexivity. Qed.

(** Replica a holds the value written at time 5, replica b the one
    written at time 3. *)
Definition diverged : cluster :=
  {| tables :=
       <["http://a:9000" := <["k" := wrapped 5 (PStr "new")]> ∅]>
         (<["http://b:9000" := <["k" := wrapped 3 (PStr "old")]> ∅]> ∅);
     down := [];
     clock := 7 |}.

(** The same, with replica a unreachable. *)
Definition a_down : cluster :=
  {| tables := tables diverged; down := ["http://a:9000"]; clock := 7 |}.

(** Both replicas hold a record stamped before time 0. *)
Definition predated : cluster :=
  {| tables :=
       <["http://a:9000" := <["k" := wrapped (-5) (PStr "x")]> ∅]>
         (<["http://b:9000" := <["k" := wrapped (-5) (PStr "x")]> ∅]> ∅);
     down := [];
     clock := 7 |}.

(** Just before the third request is answered, another writer stores a
    newer value on replica b. *)
Definition overtaken (n : nat) (cl : cluster) : cluster :=
  if Nat.eqb n 2
  then with_table cl "http://b:9000" (<["k" := wrapped 6 (PStr "other")]> ∅)
  else cl.

Lemma is_float_small (n : Z) : (Z.abs n < 2 ^ 53)%Z → is_float (inject_Z n).
Proof.
  intros Hn. exists n, 0%Z. repeat split; [done|lia|lia|].
  cbn. by rewrite Qmult_1_r.
Qed.

(** C3, as stated, fails.  Both replicas answer with a record stamped
    -5: no timestamp exceeds the -1 the scan starts from, and the GET
    answers 404 although no replica returned missing.  With
    [READ_REPAIR] unset, replica b answers with the older timestamp 3
    and is not written. *)
Lemma get_key_sentinel_and_switch :
  let o := run backend_answer (get_key two_replicas _h "k") [] predated in
  let o' := run backend_answer (get_key no_repair _h "k") [] diverged in
  events o = [Ev (GetOne "http://b:9000" "k") (wrapped (-5) (PStr "x"));
              Ev (GetOne "http://a:9000" "k") (wrapped (-5) (PStr "x"))]
  ∧ result o = Err (HTTPException 404)
  ∧ events o' = [Ev (GetOne "http://b:9000" "k") (wrapped 3 (PStr "old"));
                 Ev (GetOne "http://a:9000" "k") (wrapped 5 (PStr "new"))]
  ∧ result o' = Ok (PDict [("key", PStr "k"); ("value", PStr "new")]).
Proof. vm_compute. repeat split; reflexivity. Qed.

Lemma get_key_lww_witness :
  let o := run backend_answer (get_key two_replicas _h "k") [] diverged in
  result o = Ok (PDict [("key", PStr "k"); ("value", PStr "new")])
  ∧ ∃ ok,
      events o = [Ev (GetOne "http://b:9000" "k") (wrapped 3 (PStr "old"));
                  Ev (GetOne "http://a:9000" "k") (wrapped 5 (PStr "new"));
                  Ev (PutOne "http://b:9000" "k" (wrapped 5 (PStr "new"))) ok].
Proof.
  destruct (get_key_lww two_replicas _h backend_answer diverged [] "k"
              [wrapped 3 (PStr "old"); wrapped 5 (PStr "new")]
              [Some (3%Q, PStr "old"); Some (5%Q, PStr "new")])
    as (_ & _ & _ & H).
  - rewrite replica_set_k. discriminate.
  - vm_compute. reflexivity.
  - constructor; [|constructor; [|constructor]].
    + apply holds_record; [reflexivity|reflexivity|].
      apply (is_float_small 3). reflexivity.
    + apply holds_record; [reflexivity|reflexivity|].
      apply (is_float_small 5). reflexivity.
  - intros ts data Hin.
    apply elem_of_cons in Hin as [Hin|Hin];
      [|apply elem_of_cons in Hin as [Hin|Hin]; [|by apply elem_of_nil in Hin]];
      injection Hin as -> _; lra.
  - destruct (H 1%nat 5%Q (PStr "new")) as [Hres (oks & Hlen & Hev)].
    + split; [reflexivity|]. split.
      * intros [|[|j]] ts' d' Hj Hl; [|lia|lia].
        injection Hl as <- _. lra.
      * intros [|[|j]] ts' d' Hl; [| |done]; injection Hl as <- _; lra.
    + split; [exact Hres|].
      rewrite replica_set_k in Hlen, Hev.
      destruct oks as [|ok [|]]; try discriminate Hlen.
      exists ok. rewrite Hev. reflexivity.
Defined.


(** ** Replica sets, writes and hinted handoff *)

Section Writes.
Variable cfg : config.
Variable _h : string → Z.

Local Abbreviation replica_set := (replica_set cfg _h).
Local Abbreviation effective_RF := (effective_RF cfg).

(** [PUT /kv/{key}] *)
Definition put_key (key : string) (value : pyval) : fprog pyval :=
  match replica_set key with
  | [] => Raise (HTTPException 503)
  | reps =>
      now ← call Time;
      let wrapped := wrapped now value in
      ok ← foldM (fun ok b =>
                    r ← call (PutOne b key wrapped);
                    if (r : bool) then mret (ok + 1)
                    else _ ← hint_append b (key, wrapped); mret ok)
                 reps 0;
      if Z.eqb ok 0 then Raise (HTTPException 503) else
      mret (PDict [("ok", PBool true); ("written", PInt ok);
                   ("rf", PInt effective_RF)])
  end.

Lemma mod_inj_below (n a x y : Z) :
  0 < n → 0 <= x < n → 0 <= y < n → (a + x) mod n = (a + y) mod n → x = y.
Proof.
  intros Hn Hx Hy Heq.
  pose proof (Z.div_mod (a + x) n ltac:(lia)) as H1.
  pose proof (Z.div_mod (a + y) n ltac:(lia)) as H2.
  rewrite Heq in H1.
  assert (x - y = n * ((a + x) / n - (a + y) / n)) by lia.
  assert ((a + x) / n - (a + y) / n = 0) by nia.
  lia.
Qed.

(** X10: with distinct backends configured, the replica set of a key
    holds [min(RF, len(BACKENDS))] backends (none when [RF] is not
    positive), all of them configured and no two the same; replica
    number [i] is the backend [i] places after the slot of the key's
    hash, wrapping around. *)
Theorem replica_set_distinct (key : string) :
  BACKENDS cfg ≠ [] → NoDup (BACKENDS cfg) →
  let n := Z.of_nat (length (BACKENDS cfg)) in
  length (replica_set key) = Z.to_nat (Z.min (RF cfg) n)
  ∧ NoDup (replica_set key)
  ∧ (∀ b, b ∈ replica_set key → b ∈ BACKENDS cfg)
  ∧ ∀ i, (i < length (replica_set key))%nat →
      replica_set key !! i
      = BACKENDS cfg !! Z.to_nat ((_h key + Z.of_nat i) mod n).
Proof.
  intros Hne Hnd n.
  assert (Hn : 0 < n) by (subst n; destruct (BACKENDS cfg); [done|simpl; lia]).
  assert (Hrf : Z.to_nat effective_RF = Z.to_nat (Z.min (RF cfg) n)).
  { unfold Kvfront.effective_RF. fold n. destruct (Z.ltb_spec n (RF cfg)); f_equal; lia. }
  assert (Hdef : replica_set key =
            (fun i => nth (Z.to_nat ((_h key mod n + Z.of_nat i) mod n))
                          (BACKENDS cfg) "")
              <$> seq 0 (Z.to_nat (Z.min (RF cfg) n))).
  { unfold Kvfront.replica_set. fold n. rewrite <- Hrf.
    destruct (BACKENDS cfg); [done|]. done. }
  assert (Hidx : ∀ i, 0 <= (_h key mod n + Z.of_nat i) mod n < n).
  { intros i. apply Z.mod_pos_bound. lia. }
  assert (Hnth : ∀ i, nth (Z.to_nat ((_h key mod n + Z.of_nat i) mod n))
                          (BACKENDS cfg) ""
                      ∈ BACKENDS cfg
                 ∧ BACKENDS cfg !! Z.to_nat ((_h key mod n + Z.of_nat i) mod n)
                   = Some (nth (Z.to_nat ((_h key mod n + Z.of_nat i) mod n))
                               (BACKENDS cfg) "")).
  { intros i. specialize (Hidx i).
    destruct (lookup_lt_is_Some_2 (BACKENDS cfg)
                (Z.to_nat ((_h key mod n + Z.of_nat i) mod n))) as [b Hb].
    { subst n. lia. }
    rewrite (nth_lookup_Some _ _ _ _ Hb). split; [|done].
    by eapply list_elem_of_lookup_2. }
  rewrite Hdef. split; [by rewrite length_fmap, length_seq|].
  split; [|split].
  - apply NoDup_fmap_2_strong; [|apply NoDup_seq].
    intros x y Hx Hy Heq.
    apply elem_of_seq in Hx, Hy.
    destruct (Hnth x) as [_ Hbx]. destruct (Hnth y) as [_ Hby].
    rewrite Heq in Hbx.
    pose proof (NoDup_lookup _ _ _ _ Hnd Hbx Hby) as Hi.
    pose proof (Hidx x). pose proof (Hidx y).
    apply Z2Nat.inj in Hi; [|lia|lia].
    apply mod_inj_below in Hi; lia.
  - intros b Hb. apply list_elem_of_fmap in Hb as (i & -> & _). apply Hnth.
  - intros i Hi. rewrite length_fmap, length_seq in Hi.
    rewrite list_lookup_fmap, lookup_seq_lt by done. simpl.
    destruct (Hnth i) as [_ Hb]. rewrite Z.add_mod_idemp_l in Hb by lia.
    rewrite Z.add_mod_idemp_l by lia. by rewrite Hb.
Qed.

(** The replicas that answered a PUT with 200 or 201. *)
Definition accepted (oks : list bool) : Z :=
  Z.of_nat (length (List.filter (fun ok : bool => ok) oks)).

Lemma accepted_cons (ok : bool) (oks : list bool) :
  accepted (ok :: oks) = (if ok then 1 else 0) + accepted oks.
Proof. unfold accepted. destruct ok; cbn [List.filter length]; lia. Qed.

Lemma run_put_loop {W : Type} (h : handler fcall W) (key : string)
    (wv : pyval) :
  ∀ (reps : list string) (ok0 : Z) (hs : hints) (w : W),
    ∃ oks w',
      length oks = length reps
      ∧ run h (foldM (fun ok b =>
                        r ← call (PutOne b key wv);
                        if (r : bool) then mret (ok + 1)
                        else _ ← hint_append b (key, wv); mret ok)
                     reps ok0) hs w
        = Outcome (Ok (ok0 + accepted oks)) (hinted hs reps oks (key, wv)) w'
            (zip_with (fun b ok => Ev (PutOne b key wv) ok) reps oks).
Proof.
  induction reps as [|b reps IH]; intros ok0 hs w.
  - exists [], w. split; [done|]. cbn. by rewrite Z.add_0_r.
  - cbn [foldM]. run_steps.
    destruct (h bool (PutOne b key wv) w) as [ok w1] eqn:E1.
    destruct ok; cbn [fst snd].
    + destruct (IH (ok0 + 1) hs w1) as (oks & w' & Hlen & Hrun).
      exists (true :: oks), w'. split; [cbn; by rewrite Hlen|].
      run_steps. rewrite Hrun. run_steps. rewrite accepted_cons.
      cbn [hinted zip_with app]. by rewrite Z.add_assoc.
    + destruct (IH ok0 (assoc_set b (default [] (assoc b hs) ++ [(key, wv)]) hs) w1)
        as (oks & w' & Hlen & Hrun).
      exists (false :: oks), w'. split; [cbn; by rewrite Hlen|].
      run_steps. rewrite run_hint_append. run_steps. rewrite Hrun. run_steps.
      rewrite accepted_cons. cbn [hinted zip_with app]. by rewrite Z.add_0_l.
Qed.


(** *** One round of [flush_hints] *)

(** What the flusher asks of the outside world: the sleep between two
    rounds and a PUT sent with [c.put], answered by a status code or by
    an exception. *)
Inductive hcall : Type → Type :=
| FlushSleep (sec : Z) : hcall unit
| HintPut (base key : string) (val : pyval) : hcall (res Z).

Abbreviation hprog := (prog hcall hints).

(** A PUT of the flusher is delivered when the answer is 200. *)
Definition delivered (r : res Z) : bool :=
  match r with
  | Ok status => Z.eqb status 200
  | Err _ => false
  end.

(** The loop over the items hinted for [b]; the result is [still]. *)
Definition flush_items (b : string) (items : list (string * pyval))
  : hprog (list (string * pyval)) :=
  foldM (fun still item =>
           r ← call (HintPut b (fst item) (snd item));
           if delivered r then mret still else mret (still ++ [item]))
        items [].

(** [_HINTS.pop(b, None)] *)
Definition hints_pop (b : string) (hs : hints) : hints :=
  List.filter (fun e => negb (String.eqb (fst e) b)) hs.

(** The body of [for b, items in list(_HINTS.items())]; the accumulator
    is [to_del]. *)
Definition flush_backend (to_del : list string)
    (e : string * list (string * pyval)) : hprog (list string) :=
  still ← flush_items (fst e) (snd e);
  match still with
  | [] => mret (to_del ++ [fst e])
  | _ => Load (fun hs => Store (assoc_set (fst e) still hs) (Ret to_del))
  end.

(** One iteration of [while True] in [flush_hints]; nothing in the
    [try] block can raise, the exceptions of the PUTs being caught one
    by one. *)
Definition flush_round : hprog unit :=
  _ ← call (FlushSleep (Z.max 1 (HINT_FLUSH_SEC cfg)));
  Load (fun hs =>
    match hs with
    | [] => Ret tt
    | _ =>
        to_del ← foldM flush_backend hs [];
        Load (fun hs' =>
          Store (fold_left (fun hs b => hints_pop b hs) to_del hs') (Ret tt))
    end).

(** The items of [items] whose PUT was not delivered, given the answers. *)
Definition undelivered (items : list (string * pyval)) (answers : list (res Z))
  : list (string * pyval) :=
  map fst (List.filter (fun p => negb (delivered (snd p))) (combine items answers)).

(** [_HINTS] after a round, given the answers to the PUTs of each backend. *)
Fixpoint remaining (hs : hints) (answers : list (list (res Z))) : hints :=
  match hs, answers with
  | (b, items) :: hs', ans :: answers' =>
      match undelivered items ans with
      | [] => remaining hs' answers'
      | still => (b, still) :: remaining hs' answers'
      end
  | _, _ => []
  end.

(** The PUTs of a round, given the answers. *)
Fixpoint sent (hs : hints) (answers : list (list (res Z))) : trace hcall :=
  match hs, answers with
  | (b, items) :: hs', ans :: answers' =>
      zip_with (fun item r => Ev (HintPut b (fst item) (snd item)) r) items ans
      ++ sent hs' answers'
  | _, _ => []
  end.

Lemma run_flush_items {W : Type} (h : handler hcall W) (b : string) :
  ∀ (items still0 : list (string * pyval)) (hs : hints) (w : W),
    ∃ ans w',
      length ans = length items
      ∧ run h (foldM (fun still item =>
                        r ← call (HintPut b (fst item) (snd item));
                        if delivered r then mret still
                        else mret (still ++ [item]))
                     items still0) hs w
        = Outcome (Ok (still0 ++ undelivered items ans)) hs w'
            (zip_with (fun item r => Ev (HintPut b (fst item) (snd item)) r)
                      items ans).
Proof.
  induction items as [|item items IH]; intros still0 hs w.
  - exists [], w. split; [done|]. cbn. by rewrite app_nil_r.
  - cbn [foldM]. run_steps.
    destruct (h _ (HintPut b (fst item) (snd item)) w) as [r w1] eqn:E1.
    cbn [fst snd].
    destruct (delivered r) eqn:Ed.
    + destruct (IH still0 hs w1) as (ans & w' & Hlen & Hrun).
      exists (r :: ans), w'. split; [cbn; by rewrite Hlen|].
      run_steps. rewrite Hrun. run_steps.
      unfold undelivered. cbn [combine List.filter snd]. rewrite Ed. done.
    + destruct (IH (still0 ++ [item]) hs w1) as (ans & w' & Hlen & Hrun).
      exists (r :: ans), w'. split; [cbn; by rewrite Hlen|].
      run_steps. rewrite Hrun. run_steps.
      unfold undelivered. cbn [combine List.filter snd]. rewrite Ed.
      cbn [negb map fst]. by rewrite <- app_assoc.
Qed.

Lemma run_flush_items_nil {W : Type} (h : handler hcall W) (b : string)
    (items : list (string * pyval)) (hs : hints) (w : W) :
  ∃ ans w',
    length ans = length items
    ∧ run h (flush_items b items) hs w
      = Outcome (Ok (undelivered items ans)) hs w'
          (zip_with (fun item r => Ev (HintPut b (fst item) (snd item)) r)
                    items ans).
Proof. apply (run_flush_items h b items [] hs w). Qed.

Lemma flush_backend_unfold (to_del : list string) (b : string)
    (items : list (string * pyval)) :
  flush_backend to_del (b, items) =
    (still ← flush_items b items;
     match still with
     | [] => mret (to_del ++ [b])
     | _ => Load (fun hs => Store (assoc_set b still hs) (Ret to_del))
     end).
Proof. done. Qed.

(** [_HINTS] and [to_del] at the end of the loop over the backends. *)
Fixpoint updated (hs : hints) (answers : list (list (res Z))) : hints :=
  match hs, answers with
  | (b, items) :: hs', ans :: answers' =>
      (b, match undelivered items ans with
          | [] => items
          | still => still
          end) :: updated hs' answers'
  | _, _ => []
  end.

Fixpoint emptied (hs : hints) (answers : list (list (res Z))) : list string :=
  match hs, answers with
  | (b, items) :: hs', ans :: answers' =>
      match undelivered items ans with
      | [] => b :: emptied hs' answers'
      | _ => emptied hs' answers'
      end
  | _, _ => []
  end.

Lemma assoc_set_middle (b : string) (v v' : list (string * pyval))
    (pre rest : hints) :
  b ∉ map fst pre →
  assoc_set b v' (pre ++ (b, v) :: rest) = pre ++ (b, v') :: rest.
Proof.
  induction pre as [|[k x] pre IH]; simpl; intros Hb.
  - by rewrite String.eqb_refl.
  - destruct (String.eqb b k) eqn:E.
    + apply String.eqb_eq in E. subst k. exfalso. apply Hb. by left.
    + rewrite IH; [done|]. intros Hin. apply Hb. by right.
Qed.

Lemma run_flush_backends {W : Type} (h : handler hcall W) :
  ∀ (l pre : hints) (to_del : list string) (w : W),
    NoDup (map fst (pre ++ l)) →
    ∃ answers w',
      Forall2 (fun e ans => length ans = length (snd e)) l answers
      ∧ run h (foldM flush_backend l to_del) (pre ++ l) w
        = Outcome (Ok (to_del ++ emptied l answers))
            (pre ++ updated l answers) w' (sent l answers).
Proof.
  induction l as [|[b items] l IH]; intros pre to_del w Hnd.
  - exists [], w. split; [constructor|]. cbn. by rewrite !app_nil_r.
  - cbn [foldM]. run_steps. rewrite flush_backend_unfold. run_steps.
    destruct (run_flush_items_nil h b items (pre ++ (b, items) :: l) w)
      as (ans & w1 & Hlen & Hrun).
    rewrite Hrun. run_steps.
    assert (Hb : b ∉ map fst pre).
    { rewrite map_app in Hnd. apply NoDup_app in Hnd as (_ & Hd & _).
      intros Hin. apply (Hd b Hin). by left. }
    destruct (undelivered items ans) as [|i0 still] eqn:Eu.
    + run_steps.
      destruct (IH (pre ++ [(b, items)]) (to_del ++ [b]) w1)
        as (answers & w' & Hall & Hrun').
      { by rewrite <- app_assoc. }
      rewrite <- app_assoc in Hrun'. cbn [app] in Hrun'. rewrite Hrun'.
      run_steps. exists (ans :: answers), w'.
      split; [by constructor|].
      cbn [emptied updated sent]. rewrite Eu.
      rewrite <- !app_assoc. by cbn [app].
    + cbn [run]. rewrite assoc_set_middle by done.
      destruct (IH (pre ++ [(b, i0 :: still)]) to_del w1)
        as (answers & w' & Hall & Hrun').
      { rewrite <- app_assoc. cbn [app]. rewrite map_app in *. done. }
      rewrite <- app_assoc in Hrun'. cbn [app] in Hrun'.
      change (run h (Ret to_del) (pre ++ (b, i0 :: still) :: l) w1)
        with (Outcome (E:=hcall) (Ok to_del) (pre ++ (b, i0 :: still) :: l) w1 []).
      run_steps. rewrite Hrun'. run_steps.
      exists (ans :: answers), w'.
      split; [by constructor|].
      cbn [emptied updated sent]. rewrite Eu.
      rewrite <- !app_assoc. by cbn [app].
Qed.

Lemma keys_updated (l : hints) (answers : list (list (res Z))) :
  length answers = length l → map fst (updated l answers) = map fst l.
Proof.
  revert answers. induction l as [|[b items] l IH]; intros [|ans answers] Hlen;
    try done.
  cbn [updated map fst]. f_equal. apply IH. by injection Hlen.
Qed.

Lemma emptied_keys (l : hints) (answers : list (list (res Z))) (b : string) :
  b ∈ emptied l answers → b ∈ map fst l.
Proof.
  revert answers. induction l as [|[b' items] l IH]; intros [|ans answers] Hin;
    try (by apply elem_of_nil in Hin).
  cbn [emptied] in Hin. cbn [map fst].
  destruct (undelivered items ans).
  - apply elem_of_cons in Hin as [->|Hin]; [by left|right; by eapply IH].
  - right. by eapply IH.
Qed.

Lemma hints_pop_notin (b : string) (s : hints) :
  b ∉ map fst s → hints_pop b s = s.
Proof.
  induction s as [|[k x] s IH]; [done|]. cbn [map fst hints_pop List.filter].
  intros Hb. destruct (String.eqb k b) eqn:E.
  - apply String.eqb_eq in E. subst k. exfalso. apply Hb. by left.
  - cbn [negb]. fold (hints_pop b s). rewrite IH; [done|].
    intros Hin. apply Hb. by right.
Qed.

Lemma pops_keep (ds : list string) (e : string * list (string * pyval))
    (s : hints) :
  fst e ∉ ds →
  fold_left (fun hs b => hints_pop b hs) ds (e :: s)
  = e :: fold_left (fun hs b => hints_pop b hs) ds s.
Proof.
  revert s. induction ds as [|d ds IH]; intros s Hd; [done|].
  cbn [fold_left]. unfold hints_pop at 2. cbn [List.filter].
  destruct (String.eqb (fst e) d) eqn:E.
  - apply String.eqb_eq in E. exfalso. apply Hd. rewrite E. by left.
  - cbn [negb]. fold (hints_pop d s). apply IH. intros Hin. apply Hd. by right.
Qed.

Lemma pops_remaining (l : hints) (answers : list (list (res Z))) :
  NoDup (map fst l) → length answers = length l →
  fold_left (fun hs b => hints_pop b hs) (emptied l answers) (updated l answers)
  = remaining l answers.
Proof.
  revert answers. induction l as [|[b items] l IH]; intros [|ans answers] Hnd Hlen;
    try done.
  cbn [map fst] in Hnd. apply NoDup_cons in Hnd as [Hb Hnd].
  injection Hlen as Hlen.
  cbn [emptied updated remaining].
  destruct (undelivered items ans) as [|i0 still] eqn:Eu.
  - cbn [fold_left]. unfold hints_pop at 2. cbn [List.filter fst].
    rewrite String.eqb_refl. cbn [negb]. fold (hints_pop b (updated l answers)).
    rewrite hints_pop_notin by (by rewrite keys_updated).
    by apply IH.
  - rewrite pops_keep.
    + f_equal. by apply IH.
    + intros Hin. apply Hb. by eapply emptied_keys.
Qed.

Lemma sent_delivered (hs : hints) (answers : list (list (res Z)))
    (i j : nat) (b : string) (items : list (string * pyval))
    (ans : list (res Z)) (item : string * pyval) (r : res Z) :
  hs !! i = Some (b, items) → answers !! i = Some ans →
  items !! j = Some item → ans !! j = Some r →
  Ev (HintPut b (fst item) (snd item)) r ∈ sent hs answers.
Proof.
  revert answers i. induction hs as [|[b' items'] hs IH];
    intros [|ans' answers] [|i] Hb Ha Hi Hr; try done; cbn [sent].
  - injection Hb as -> ->. injection Ha as ->.
    apply elem_of_app. left.
    apply list_elem_of_lookup. exists j.
    rewrite lookup_zip_with, Hi. simpl. by rewrite Hr.
  - apply elem_of_app. right. by eapply IH.
Qed.

Lemma undelivered_elem (items : list (string * pyval)) (ans : list (res Z))
    (j : nat) (item : string * pyval) (r : res Z) :
  items !! j = Some item → ans !! j = Some r → delivered r = false →
  item ∈ undelivered items ans.
Proof.
  unfold undelivered.
  revert ans j. induction items as [|it items IH]; intros [|a ans] [|j] Hi Hr Hd;
    try done; cbn [combine List.filter snd].
  - injection Hi as ->. injection Hr as ->. rewrite Hd. by left.
  - destruct (negb (delivered a)); [right|]; by eapply IH.
Qed.

Lemma remaining_kept (hs : hints) (answers : list (list (res Z)))
    (i : nat) (b : string) (items : list (string * pyval))
    (ans : list (res Z)) (item : string * pyval) :
  NoDup (map fst hs) →
  hs !! i = Some (b, items) → answers !! i = Some ans →
  item ∈ undelivered items ans →
  item ∈ hints_of (remaining hs answers) b.
Proof.
  revert answers i. induction hs as [|[b' items'] hs IH];
    intros [|ans' answers] [|i] Hnd Hb Ha Hin; try done;
    cbn [map fst] in Hnd; apply NoDup_cons in Hnd as [Hb' Hnd];
    cbn [remaining].
  - injection Hb as -> ->. injection Ha as ->.
    destruct (undelivered items ans) as [|i0 still] eqn:Eu;
      [by apply elem_of_nil in Hin|].
    unfold hints_of. cbn [assoc]. by rewrite String.eqb_refl.
  - assert (Hne : b ≠ b').
    { intros ->. apply Hb'. apply list_elem_of_fmap. exists (b', items).
      split; [done|]. by eapply list_elem_of_lookup_2. }
    specialize (IH answers i Hnd Hb Ha Hin).
    destruct (undelivered items' ans'); [done|].
    unfold hints_of in *. cbn [assoc].
    by rewrite (proj2 (String.eqb_neq b b') Hne).
Qed.


(** *** A write, then a read, against the backends *)

(** The cluster once [wv] was PUT under [key] to the replicas [reps]:
    each backend that is up holds it. *)
Definition stored (cl : cluster) (reps : list string) (key : string)
    (wv : pyval) : cluster :=
  fold_left (fun cl b =>
               if is_down cl b then cl
               else with_table cl b (<[key := wv]> (table_of cl b)))
            reps cl.

(** The replicas that are up. *)
Definition ups (cl : cluster) (reps : list string) : Z :=
  Z.of_nat (length (List.filter (fun b => negb (is_down cl b)) reps)).

Lemma table_of_with_table (cl : cluster) (b b' : string)
    (t : gmap string pyval) :
  table_of (with_table cl b t) b' = if String.eqb b b' then t else table_of cl b'.
Proof.
  unfold table_of, with_table. simpl.
  destruct (String.eqb b b') eqn:E.
  - apply String.eqb_eq in E. subst b'. by rewrite lookup_insert_eq.
  - apply String.eqb_neq in E. by rewrite lookup_insert_ne.
Qed.

Lemma stored_down (reps : list string) (key : string) (wv : pyval) :
  ∀ cl, down (stored cl reps key wv) = down cl
        ∧ clock (stored cl reps key wv) = clock cl.
Proof.
  induction reps as [|b reps IH]; intros cl; [done|].
  cbn [stored fold_left]. fold (stored (if is_down cl b then cl
    else with_table cl b (<[key := wv]> (table_of cl b))) reps key wv).
  destruct (IH (if is_down cl b then cl
                else with_table cl b (<[key := wv]> (table_of cl b)))) as [Hd Hc].
  rewrite Hd, Hc. by destruct (is_down cl b).
Qed.

Lemma stored_keeps (reps : list string) (key : string) (wv : pyval) (b : string) :
  ∀ cl, table_of cl b !! key = Some wv →
        table_of (stored cl reps key wv) b !! key = Some wv.
Proof.
  induction reps as [|b' reps IH]; intros cl Hb; [done|].
  cbn [stored fold_left]. apply IH.
  destruct (is_down cl b'); [done|].
  rewrite table_of_with_table. destruct (String.eqb b' b) eqn:E; [|done].
  apply String.eqb_eq in E. subst b'. by rewrite lookup_insert_eq.
Qed.

Lemma stored_holds (reps : list string) (key : string) (wv : pyval) (b : string) :
  ∀ cl, b ∈ reps → is_down cl b = false →
        table_of (stored cl reps key wv) b !! key = Some wv.
Proof.
  induction reps as [|b' reps IH]; intros cl Hin Hup;
    [by apply elem_of_nil in Hin|].
  cbn [stored fold_left].
  apply elem_of_cons in Hin as [->|Hin].
  - rewrite Hup. apply stored_keeps.
    by rewrite table_of_with_table, String.eqb_refl, lookup_insert_eq.
  - apply IH; [done|]. by destruct (is_down cl b').
Qed.

Lemma ups_same_down (cl cl' : cluster) (reps : list string) :
  down cl' = down cl → ups cl' reps = ups cl reps.
Proof.
  intros Hd. unfold ups. f_equal. f_equal.
  induction reps as [|b reps IH]; [done|]. cbn [List.filter].
  unfold is_down at 1 3. rewrite Hd. fold (is_down cl b).
  by rewrite IH.
Qed.

Lemma backend_put (b key : string) (wv : pyval) (cl : cluster) :
  json_serializable wv = true →
  backend_answer bool (PutOne b key wv) cl
  = if is_down cl b then (false, cl)
    else (true, with_table cl b (<[key := wv]> (table_of cl b))).
Proof.
  intros Hj. unfold backend_answer, Kvstore.db_put. rewrite Hj.
  by destruct (is_down cl b).
Qed.

Lemma backend_get (b key : string) (cl : cluster) :
  backend_answer pyval (GetOne b key) cl
  = (if is_down cl b then PNone else Kvstore.db_get (table_of cl b) key, cl).
Proof. unfold backend_answer. by destruct (is_down cl b). Qed.

Lemma backend_time (cl : cluster) :
  backend_answer Q Time cl
  = (clock cl, Cluster (tables cl) (down cl) (clock cl + 1)).
Proof. done. Qed.

Lemma run_put_loop_cluster (key : string) (wv : pyval) :
  json_serializable wv = true →
  ∀ (reps : list string) (ok0 : Z) (hs : hints) (cl : cluster),
    ∃ hs' evs,
      run backend_answer
          (foldM (fun ok b =>
                    r ← call (PutOne b key wv);
                    if (r : bool) then mret (ok + 1)
                    else _ ← hint_append b (key, wv); mret ok)
                 reps ok0) hs cl
      = Outcome (Ok (ok0 + ups cl reps)) hs' (stored cl reps key wv) evs.
Proof.
  intros Hj. induction reps as [|b reps IH]; intros ok0 hs cl.
  - exists hs, []. cbn. by rewrite Z.add_0_r.
  - cbn [foldM]. run_steps.
    rewrite backend_put by done. cbn [stored fold_left].
    unfold ups. cbn [List.filter]. fold (ups cl reps).
    destruct (is_down cl b) eqn:Ed; cbn [fst snd negb].
    + run_steps. rewrite run_hint_append. run_steps.
      destruct (IH ok0 (assoc_set b (default [] (assoc b hs) ++ [(key, wv)]) hs) cl)
        as (hs' & evs & Hrun).
      rewrite Hrun. run_steps. by eexists _, _.
    + run_steps.
      destruct (IH (ok0 + 1) hs
                  (with_table cl b (<[key := wv]> (table_of cl b))))
        as (hs' & evs & Hrun).
      rewrite Hrun. run_steps.
      rewrite (ups_same_down cl) by done.
      replace (ok0 + 1 + ups cl reps)
        with (ok0 + Z.of_nat (length (b :: List.filter (fun b0 => negb (is_down cl b0)) reps)))
        by (unfold ups; cbn [length]; lia).
      by eexists _, _.
Qed.

(** What the replicas answer to the fan-out of a GET. *)
Definition answers (cl : cluster) (reps : list string) (key : string)
  : list pyval :=
  map (fun b => if is_down cl b then PNone
                else Kvstore.db_get (table_of cl b) key) reps.

Lemma run_fan_out_cluster (key : string) :
  ∀ (reps : list string) (hs : hints) (cl : cluster),
    ∃ evs, run backend_answer (fan_out reps key) hs cl
           = Outcome (Ok (answers cl reps key)) hs cl evs.
Proof.
  unfold fan_out. induction reps as [|b reps IH]; intros hs cl.
  - by exists [].
  - cbn [mapM]. run_steps. rewrite backend_get. cbn [fst snd].
    destruct (IH hs cl) as (evs & Hrun). rewrite Hrun. run_steps.
    by eexists.
Qed.

Lemma lww_scan_kept (now : Q) (value : pyval) (vals : list pyval) :
  (∀ v, v ∈ vals → v = PNone ∨ v = wrapped now value) →
  ∀ i idx, lww_scan vals i (now, value, idx) = Ok (now, value, idx).
Proof.
  induction vals as [|v vals IH]; intros Hall i idx; [done|].
  assert (Hall' : ∀ v0, v0 ∈ vals → v0 = PNone ∨ v0 = wrapped now value).
  { intros v0 Hin. apply Hall. by right. }
  destruct (Hall v) as [->| ->]; [by left| |].
  - cbn [lww_scan]. by apply IH.
  - cbn. replace (Qltb now now) with false; [by apply IH|].
    symmetry. apply Qltb_ge. apply Qle_refl.
Qed.

Lemma lww_scan_first (now : Q) (value : pyval) (vals : list pyval) :
  (0 <= now)%Q →
  (∀ v, v ∈ vals → v = PNone ∨ v = wrapped now value) →
  wrapped now value ∈ vals →
  ∀ i, 0 <= i →
       ∃ idx, 0 <= idx
              ∧ lww_scan vals i ((-1)%Q, PNone, -1) = Ok (now, value, idx).
Proof.
  intros Hnow. induction vals as [|v vals IH]; intros Hall Hin i Hi;
    [by apply elem_of_nil in Hin|].
  assert (Hall' : ∀ v0, v0 ∈ vals → v0 = PNone ∨ v0 = wrapped now value).
  { intros v0 Hin0. apply Hall. by right. }
  destruct (Hall v) as [->| ->]; [by left| |].
  - apply elem_of_cons in Hin as [Hin|Hin]; [done|].
    cbn [lww_scan]. destruct (IH Hall' Hin (i + 1)) as (idx & ? & ?); [lia|].
    by exists idx.
  - cbn. replace (Qltb (-1) now) with true.
    + exists i. split; [done|]. by apply lww_scan_kept.
    + symmetry. apply Qltb_lt. lra.
Qed.

Lemma to_fix_settled (now : Q) (value : pyval) :
  ∀ (reps : list string) (vals : list pyval),
    (∀ v, v ∈ vals → v = PNone ∨ v = wrapped now value) →
    to_fix (combine reps vals) now = Ok [].
Proof.
  induction reps as [|b reps IH]; intros [|v vals] Hall; try done.
  assert (Hall' : ∀ v0, v0 ∈ vals → v0 = PNone ∨ v0 = wrapped now value).
  { intros v0 Hin0. apply Hall. by right. }
  cbn [combine to_fix]. rewrite (IH vals Hall').
  destruct (Hall v) as [->| ->]; [by left| |].
  - done.
  - cbn. replace (Qltb now now) with false.
    + by rewrite andb_false_r.
    + symmetry. apply Qltb_ge. apply Qle_refl.
Qed.

(** X13: read your writes.  When the clock is not negative and at least
    one replica of the key is up, a PUT through the coordinator succeeds
    and a GET that follows it, with the same backends up, returns the
    value that was put. *)
Theorem put_key_then_get_key (cl : cluster) (hs : hints) (key : string)
    (value : pyval) :
  json_serializable value = true →
  (0 <= clock cl)%Q →
  (∃ b, b ∈ replica_set key ∧ is_down cl b = false) →
  let o := run backend_answer (put_key key value) hs cl in
  let o' := run backend_answer (get_key cfg _h key)
                (final_state o) (final_world o) in
  result o
  = Ok (PDict [("ok", PBool true);
               ("written", PInt (ups cl (replica_set key)));
               ("rf", PInt effective_RF)])
  ∧ result o' = Ok (PDict [("key", PStr key); ("value", value)]).
Proof.
  intros Hj Hclock (b & Hb & Hup) o o'.
  set (now := clock cl) in *.
  set (cl1 := Cluster (tables cl) (down cl) (clock cl + 1)).
  assert (Hj' : json_serializable (wrapped now value) = true).
  { cbn. by rewrite Hj. }
  assert (Hne : replica_set key ≠ []).
  { intros E. rewrite E in Hb. by apply elem_of_nil in Hb. }
  assert (Hups : 0 < ups cl1 (replica_set key)).
  { unfold ups. apply list_elem_of_In in Hb.
    assert (Hf : In b (List.filter (fun b0 => negb (is_down cl1 b0))
                         (replica_set key))).
    { apply filter_In. split; [done|].
      change (is_down cl1 b) with (is_down cl b). by rewrite Hup. }
    destruct (List.filter _ _); [done|]. cbn [length]. lia. }
  destruct (run_put_loop_cluster key (wrapped now value) Hj'
              (replica_set key) 0 hs cl1) as (hs' & evs & Hloop).
  assert (Ho : result o
               = Ok (PDict [("ok", PBool true);
                            ("written", PInt (ups cl (replica_set key)));
                            ("rf", PInt effective_RF)])
               ∧ final_state o = hs'
               ∧ final_world o = stored cl1 (replica_set key) key (wrapped now value)).
  { subst o. unfold put_key.
    destruct (replica_set key) as [|b0 reps0] eqn:E; [done|].
    run_steps. rewrite backend_time. cbn [fst snd].
    fold cl1. fold now. rewrite Hloop. run_steps. rewrite Z.add_0_l.
    rewrite (proj2 (Z.eqb_neq _ _)) by lia. run_steps.
    by rewrite (ups_same_down cl cl1). }
  destruct Ho as (Hres & Hst & Hw). split; [done|].
  subst o'. rewrite Hst, Hw.
  set (cl2 := stored cl1 (replica_set key) key (wrapped now value)).
  destruct (stored_down (replica_set key) key (wrapped now value) cl1)
    as [Hdown _]. fold cl2 in Hdown.
  assert (Hvals : ∀ v, v ∈ answers cl2 (replica_set key) key →
                       v = PNone ∨ v = wrapped now value).
  { intros v Hv. unfold answers in Hv.
    apply list_elem_of_fmap in Hv as (b' & -> & Hb').
    destruct (is_down cl2 b') eqn:Ed; [by left|]. right.
    unfold Kvstore.db_get. subst cl2.
    rewrite (stored_holds _ _ _ b' cl1 Hb'); [done|].
    unfold is_down in *. by rewrite Hdown in Ed. }
  assert (Hsome : wrapped now value ∈ answers cl2 (replica_set key) key).
  { unfold answers. apply list_elem_of_fmap. exists b. split; [|done].
    assert (Ed : is_down cl2 b = false).
    { unfold is_down in *. by rewrite Hdown. }
    rewrite Ed. unfold Kvstore.db_get. subst cl2.
    by rewrite (stored_holds _ _ _ b cl1 Hb). }
  destruct (lww_scan_first now value _ Hclock Hvals Hsome 0 ltac:(lia))
    as (idx & Hidx & Hscan).
  destruct (run_fan_out_cluster key (replica_set key) hs' cl2) as (evs' & Hfan).
  unfold get_key. destruct (replica_set key) as [|b0 reps0] eqn:E; [done|].
  run_steps. rewrite Hfan. run_steps. rewrite Hscan. run_steps.
  rewrite (proj2 (Z.ltb_ge _ _)) by lia.
  destruct (READ_REPAIR cfg); cbn [andb].
  - apply Qle_bool_iff in Hclock. fold now in Hclock. rewrite Hclock.
    run_steps. rewrite (to_fix_settled now value _ _ Hvals). by run_steps.
  - by run_steps.
Qed.

End Writes.

(** ** Examples *)

Lemma replica_set_distinct_witness :
  length (replica_set two_replicas _h "k") = 2%nat
  ∧ NoDup (replica_set two_replicas _h "k")
  ∧ replica_set two_replicas _h "k" !! 0%nat
    = BACKENDS two_replicas !! Z.to_nat ((_h "k" + 0) mod 2).
Proof.
  destruct (replica_set_distinct two_replicas _h "k") as (Hlen & Hnd & _ & Hi).
  - discriminate.
  - apply NoDup_cons. split; [|apply NoDup_singleton].
    intros H. apply list_elem_of_singleton in H. discriminate H.
  - split; [exact Hlen|]. split; [exact Hnd|].
    apply (Hi 0%nat). rewrite replica_set_k. cbn. lia.
Defined.


(** A backend that is back and answers 200 to every PUT. *)
Definition answers_200 : handler hcall unit :=
  fun R c =>
    match c in hcall R return unit → R * unit with
    | FlushSleep _ => fun w => (tt, w)
    | HintPut _ _ _ => fun w => (Ok 200, w)
    end.


Lemma put_key_then_get_key_witness :
  let o := run backend_answer
             (put_key two_replicas _h "k" (PStr "v")) [] a_down in
  result o = Ok (PDict [("ok", PBool true); ("written", PInt 1);
                        ("rf", PInt 2)])
  ∧ final_state o = [("http://a:9000", [("k", wrapped 7 (PStr "v"))])]
  ∧ result (run backend_answer (get_key two_replicas _h "k")
              (final_state o) (final_world o))
    = Ok (PDict [("key", PStr "k"); ("value", PStr "v")]).
Proof.
  intros o. subst o.
  destruct (put_key_then_get_key two_replicas _h a_down [] "k" (PStr "v"))
    as [Hput Hget].
  - reflexivity.
  - unfold Qle. simpl. lia.
  - exists "http://b:9000". split; [rewrite replica_set_k; by left|reflexivity].
  - split; [|split; [reflexivity|exact Hget]].
    rewrite Hput. rewrite replica_set_k. reflexivity.
Defined.

End Kvfront.

(* ===================================================================== *)
(** * The dispatcher (dispatcher/app.py) *)
(* ===================================================================== *)

Module Dispatcher.

(** What the dispatcher asks of the outside world, at the level of its
    helpers [kv_get], [kv_put], [kv_cas], [lock_acquire], [lock_release].
    A [res] answer lets the transport raise; [kv_cas] catches every
    exception itself and answers [False]. *)
Inductive dcall : Type → Type :=
| KvGet (k : string) : dcall (res pyval)
| KvPut (k : string) (v : pyval) : dcall (res unit)
| KvCas (key : string) (old new : pyval) : dcall bool
| LockAcquire (key : string) (ttl : Z) : dcall (res bool)
| LockRelease (key : string) : dcall (res unit)
| Publish (queue : string) (event : pyval) : dcall (res unit)
| Sleep (sec : Q) : dcall unit
| SchedAcquire : dcall unit
| SchedRelease : dcall unit.

(** The CAS an event is, if it is one, and the read it is, if it is one. *)
Definition cas_of (e : event dcall) : option (string * pyval * pyval) :=
  match e with
  | Ev c _ => match c with
              | KvCas k old new => Some (k, old, new)
              | _ => None
              end
  end.

Definition got_of (e : event dcall) : option (string * res pyval) :=
  match e with
  | Ev c r => match c in dcall R return R → option (string * res pyval) with
              | KvGet k => fun r => Some (k, r)
              | _ => fun _ => None
              end r
  end.

(** One of the first [i] calls of the trace read [d] under the key [k]. *)
Definition seen_before (t : trace dcall) (i : nat) (k : string) (d : pyval)
  : Prop :=
  ∃ j e, (j < i)%nat ∧ t !! j = Some e ∧ got_of e = Some (k, Ok d).

(** The process-local state is [_ZCFG], the cached [zones_config]. *)
Abbreviation dprog := (prog dcall pyval).

Record config : Type := Config {
  BATTERY_PER_KM : Q;
  SAFETY_MARGIN_PCT : Q;
  NEAR_EPS_KM : Q;
  MAX_PICKUP_KM : Q;
  ARRIVE_EPS_KM : Q;
  CRITICAL_BATTERY : Q;
  FULL_AFTER : Q;
  EARLY_CHARGE_THRESHOLD : Z;
  DRONE_POOL_MAX : Z;
  BASE_ACTIVE : Z;
  SCALE_RATIO : Q;
  DELIVERY_STATUS_QUEUE : string
}.

Definition default_config : config :=
  {| BATTERY_PER_KM := 2; SAFETY_MARGIN_PCT := 5; NEAR_EPS_KM := 2 # 10;
     MAX_PICKUP_KM := 20; ARRIVE_EPS_KM := 2 # 100; CRITICAL_BATTERY := 30;
     FULL_AFTER := 95; EARLY_CHARGE_THRESHOLD := 5; DRONE_POOL_MAX := 20;
     BASE_ACTIVE := 4; SCALE_RATIO := 8 # 10;
     DELIVERY_STATUS_QUEUE := "delivery_status" |}.

Section Logic.
Variable cfg : config.
(** Great-circle distance in km between two [{lat, lon}] points; it
    raises as the source does on a point without coordinates. *)
Variable haversine_km : pyval → pyval → res Q.

(** ** KV helpers *)

Definition kv_get (k : string) : dprog pyval :=
  r ← call (KvGet k); lift r.

(** [http.put(..., json={"value": v})]: the body is serialised before
    anything is sent. *)
Definition kv_put (k : string) (v : pyval) : dprog unit :=
  if json_serializable v then r ← call (KvPut k v); lift r
  else Raise TypeError.

Definition lock_acquire (key : string) (ttl : Z) : dprog bool :=
  r ← call (LockAcquire key ttl); lift r.

Definition lock_release (key : string) : dprog unit :=
  r ← call (LockRelease key); lift r.

Definition kv_cas (key : string) (old new : pyval) : dprog bool :=
  if json_serializable old && json_serializable new
  then call (KvCas key old new)
  else mret false.

(** [f"{prefix}{id}"] *)
Definition keyed (prefix : string) (id : pyval) : res string :=
  s ← py_format id; Ok (prefix +:+ s).

(** ** Drone state helpers *)

Fixpoint set_drone_idle_if_busy_loop (attempts : nat) (key : string)
    (expected_delivery : pyval) : dprog bool :=
  match attempts with
  | O => mret false
  | S n =>
      cur ← kv_get key;
      if negb (truthy cur) then mret false else
      st ← lift (dict_get cur "status");
      cd ← lift (dict_get cur "current_delivery");
      if negb (py_eqb st (PStr "busy")) || negb (py_eqb cd expected_delivery)
      then mret true else
      new_doc ← lift (dict_copy cur);
      let new_doc := dict_set (dict_set new_doc "status" (PStr "idle"))
                              "current_delivery" PNone in
      ok ← kv_cas key cur new_doc;
      if (ok : bool) then mret true else
      _ ← call (Sleep (25 # 1000));
      set_drone_idle_if_busy_loop n key expected_delivery
  end.

Definition set_drone_idle_if_busy (drone_id expected_delivery : pyval)
  : dprog bool :=
  key ← lift (keyed "drone:" drone_id);
  set_drone_idle_if_busy_loop 40 key expected_delivery.

Fixpoint set_drone_busy_if_idle_loop (attempts : nat) (key : string)
    (delivery_id : pyval) : dprog bool :=
  match attempts with
  | O => mret false
  | S n =>
      cur ← kv_get key;
      if negb (truthy cur) then mret false else
      st ← lift (dict_get cur "status");
      cd ← lift (dict_get cur "current_delivery");
      if negb (py_eqb st (PStr "idle"))
         || negb (match cd with PNone => true | _ => false end)
      then mret false else
      new_doc ← lift (dict_copy cur);
      let new_doc := dict_set (dict_set new_doc "status" (PStr "busy"))
                              "current_delivery" delivery_id in
      ok ← kv_cas key cur new_doc;
      if (ok : bool) then mret true else
      _ ← call (Sleep (1 # 100));
      set_drone_busy_if_idle_loop n key delivery_id
  end.

Definition set_drone_busy_if_idle (drone_id delivery_id : pyval)
  : dprog bool :=
  key ← lift (keyed "drone:" drone_id);
  set_drone_busy_if_idle_loop 15 key delivery_id.

(** ** Geography *)

Definition get_zcfg : dprog pyval :=
  Load (fun _ZCFG =>
    match _ZCFG with
    | PNone => v ← kv_get "zones_config"; Store v (Ret v)
    | _ => Ret _ZCFG
    end).

(** [lo <= x <= hi], the right comparison only when the left one holds *)
Definition between (lo x hi : res pyval) : res bool :=
  a ← lo; b ← x;
  c ← py_le a b;
  if (c : bool) then h ← hi; py_le b h else Ok false.

Fixpoint point_zone_in (zones : list pyval) (p : pyval) : res pyval :=
  match zones with
  | [] => Ok PNone
  | z :: zones' =>
      b ← subscript z "bounds";
      inlat ← between (subscript b "lat_min") (subscript p "lat")
                      (subscript b "lat_max");
      inside ← (if (inlat : bool)
                then between (subscript b "lon_min") (subscript p "lon")
                             (subscript b "lon_max")
                else Ok false);
      if (inside : bool) then Ok z else point_zone_in zones' p
  end.

Definition point_zone (zcfg p : pyval) : res pyval :=
  zones ← subscript zcfg "zones" ≫= py_iter;
  point_zone_in zones p.

Fixpoint nearest_charge_point_in (zones : list pyval) (p : pyval)
    (best : pyval) (bestd : Q) : res pyval :=
  match zones with
  | [] => Ok best
  | z :: zones' =>
      cp ← subscript z "charge";
      d ← haversine_km p cp;
      if Qltb d bestd then nearest_charge_point_in zones' p cp d
      else nearest_charge_point_in zones' p best bestd
  end.

Definition nearest_charge_point (zcfg p : pyval) : res pyval :=
  zones ← subscript zcfg "zones" ≫= py_iter;
  nearest_charge_point_in zones p PNone (inject_Z (10 ^ 18)).

Definition zone_proximity_rank (z_origin z_drone : pyval) : res Z :=
  if negb (truthy z_origin) || negb (truthy z_drone) then Ok 2 else
  no ← subscript z_origin "name";
  nd ← subscript z_drone "name";
  if py_eqb no nd then Ok 0 else
  nd' ← subscript z_drone "name";
  ns ← dict_get z_origin "neighbors";
  l ← py_iter (py_or ns (PList []));
  Ok (if py_mem nd' l then 1 else 2).

Definition pkg_class (weight : pyval) : res string :=
  a ← py_le weight (PNum 3);
  if (a : bool) then Ok "light" else
  b ← py_le weight (PNum 7);
  if (b : bool) then Ok "medium" else Ok "heavy".

Definition classify_weight (delivery : pyval) : res string :=
  w ← dict_get_or delivery "weight" (PNum 0) ≫= py_float;
  pkg_class (PNum w).

Definition can_complete_mission (drone origin destination zcfg : pyval)
  : res (bool * Q * Q) :=
  pos ← dict_get drone "pos";
  if negb (truthy pos) then Ok (false, 0%Q, 0%Q) else
  d1 ← haversine_km pos origin;
  d2 ← haversine_km origin destination;
  charge_pt ← nearest_charge_point zcfg destination;
  d3 ← haversine_km destination charge_pt;
  let total_km := (d1 + d2 + d3)%Q in
  let required_pct := (total_km * BATTERY_PER_KM cfg + SAFETY_MARGIN_PCT cfg)%Q in
  battery_now ← dict_get_or drone "battery" (PNum 0) ≫= py_float;
  Ok (Qle_bool required_pct battery_now, total_km, required_pct).

(** ** pick_drone *)

(** One entry of [candidates]. *)
Record candidate : Type := Candidate {
  c_id : pyval;
  c_dist_bucket : Z;
  c_prox_rank : Z;
  c_battery : Q;
  c_speed : Q;
  c_dist_km : Q
}.

(** The sort key [(dist_bucket, prox_rank, battery, -speed)], compared
    as Python compares tuples. *)
Definition key_lt (x y : candidate) : bool :=
  if negb (Z.eqb (c_dist_bucket x) (c_dist_bucket y))
  then Z.ltb (c_dist_bucket x) (c_dist_bucket y)
  else if negb (Z.eqb (c_prox_rank x) (c_prox_rank y))
  then Z.ltb (c_prox_rank x) (c_prox_rank y)
  else if negb (Qeq_bool (c_battery x) (c_battery y))
  then Qltb (c_battery x) (c_battery y)
  else Qltb (- c_speed x) (- c_speed y).

(** [list.sort] is stable: an element goes before the first one that is
    not smaller than it. *)
Fixpoint insert_by_key (x : candidate) (l : list candidate) : list candidate :=
  match l with
  | [] => [x]
  | y :: l' => if key_lt y x then y :: insert_by_key x l' else x :: y :: l'
  end.

Definition sort_by_key (l : list candidate) : list candidate :=
  fold_right insert_by_key [] l.

(** The end of [pick_drone]: sort, take the head, check the pickup
    distance. *)
Definition choose (candidates : list candidate) : pyval :=
  match sort_by_key candidates with
  | [] => PNone
  | best :: _ =>
      if Qltb (MAX_PICKUP_KM cfg) (c_dist_km best) then PNone else c_id best
  end.

(** The drone document written when a delivery that was not yet counted
    turns out infeasible. *)
Definition miss_update (d : pyval) (miss_set : list pyval) (miss : Z)
    (delivery_id : pyval) : res pyval :=
  let miss_set := set_add delivery_id miss_set in
  let miss := miss + 1 in
  d_upd ← dict_copy d;
  let d_upd := dict_set d_upd "feas_miss" (PInt miss) in
  let d_upd := dict_set d_upd "feas_miss_set" (PList miss_set) in
  if Z.leb (EARLY_CHARGE_THRESHOLD cfg) miss then
    Ok (dict_set (dict_set (dict_set d_upd "status" (PStr "charging"))
                           "feas_miss" (PInt 0))
                 "feas_miss_set" (PList []))
  else Ok d_upd.

(** The body of [for did in ids]; [Ret candidates] is [continue]. *)
Definition pick_drone_step (zcfg z_origin : pyval) (pclass : string)
    (origin destination delivery_id : pyval)
    (candidates : list candidate) (did : pyval) : dprog (list candidate) :=
  key ← lift (keyed "drone:" did);
  d ← kv_get key;
  if negb (truthy d) then mret candidates else
  st ← lift (dict_get d "status");
  if negb (py_eqb st (PStr "idle")) then mret candidates else
  cd ← lift (dict_get d "current_delivery");
  if truthy cd then mret candidates else
  ty ← lift (dict_get d "type" ≫= (fun t => py_lower (py_or t (PStr ""))));
  if negb (py_eqb ty (PStr pclass)) then mret candidates else
  low ← lift (dict_get_or d "battery" (PNum 0)
              ≫= (fun b => py_le b (PNum (CRITICAL_BATTERY cfg))));
  if (low : bool) then
    _ ← kv_put key (dict_set d "status" (PStr "charging"));
    mret candidates
  else
  feas ← lift (can_complete_mission d origin destination zcfg);
  if negb (fst (fst feas)) then
    miss_set ← lift (dict_get d "feas_miss_set"
                     ≫= (fun s => py_set (py_or s (PList []))));
    miss ← lift (dict_get_or d "feas_miss" (PInt 0) ≫= py_int);
    seen ← lift (set_mem delivery_id miss_set);
    if negb seen then
      d_upd ← lift (miss_update d miss_set miss delivery_id);
      _ ← kv_put key d_upd;
      mret candidates
    else mret candidates
  else
  fm ← lift (dict_get d "feas_miss");
  fms ← lift (dict_get d "feas_miss_set");
  _ ← (if truthy (py_or fm fms) then
         d_ok ← lift (dict_copy d);
         kv_put key (dict_set (dict_set d_ok "feas_miss" (PInt 0))
                              "feas_miss_set" (PList []))
       else mret tt);
  pos ← lift (subscript d "pos");
  dist_km ← lift (haversine_km pos origin);
  pos' ← lift (subscript d "pos");
  prox_rank ← lift (point_zone zcfg pos' ≫= zone_proximity_rank z_origin);
  batt ← lift (dict_get_or d "battery" (PNum 0) ≫= py_float);
  speed ← lift (dict_get_or d "speed" (PNum 0) ≫= py_float);
  let dist_bucket :=
    if Qltb 0 (NEAR_EPS_KM cfg) then Qtrunc (dist_km / NEAR_EPS_KM cfg) else 0 in
  mret (candidates ++ [Candidate did dist_bucket prox_rank batt speed dist_km]).

Definition pick_drone (origin destination weight delivery_id : pyval)
  : dprog pyval :=
  zcfg ← get_zcfg;
  z_origin ← lift (point_zone zcfg origin);
  pclass ← lift (pkg_class weight);
  ids ← kv_get "drones_index";
  ids ← lift (py_iter (py_or ids (PList [])));
  candidates ← foldM (pick_drone_step zcfg z_origin pclass origin destination
                                      delivery_id) ids [];
  mret (choose candidates).

(** ** assign_one *)

Definition publish_delivery_status (event : pyval) : dprog unit :=
  if json_serializable event
  then r ← call (Publish (DELIVERY_STATUS_QUEUE cfg) event); lift r
  else Raise TypeError.

(** The drone document the re-check under the drone lock writes when the
    mission is not feasible any more or the battery is at or below
    [CRITICAL_BATTERY] ([s_upd]). *)
Definition recheck_update (sdoc delivery_id : pyval) : res pyval :=
  batt_now ← dict_get_or sdoc "battery" (PNum 0) ≫= py_float;
  miss ← dict_get_or sdoc "feas_miss" (PInt 0) ≫= py_int;
  let miss := miss + 1 in
  miss_set ← dict_get sdoc "feas_miss_set"
             ≫= (fun s => py_set (py_or s (PList [])));
  seen ← set_mem delivery_id miss_set;
  let miss_set := if negb seen then set_add delivery_id miss_set else miss_set in
  s_upd ← dict_copy sdoc;
  let s_upd := dict_set s_upd "feas_miss" (PInt miss) in
  let s_upd := dict_set s_upd "feas_miss_set" (PSet miss_set) in
  if Qle_bool batt_now (CRITICAL_BATTERY cfg)
     || Z.leb (EARLY_CHARGE_THRESHOLD cfg) miss then
    let s_upd := dict_set s_upd "status" (PStr "charging") in
    if Z.leb (EARLY_CHARGE_THRESHOLD cfg) miss then
      Ok (dict_set (dict_set s_upd "feas_miss" (PInt 0))
                   "feas_miss_set" (PList []))
    else Ok s_upd
  else Ok s_upd.

(** What the [try] block has reached when [k_dlock] is still [None]:
    either a returned value, or the chosen drone and its lock key. *)
Definition picked : Type := pyval * pyval * pyval * pyval * string.

(** [assign_one], from the read of the delivery to the choice of a drone. *)
Definition assign_pick (delivery_id : pyval) (dkey : string)
  : dprog (bool + picked) :=
  ddoc ← kv_get dkey;
  if negb (truthy ddoc) then mret (inl false) else
  st ← lift (dict_get ddoc "status");
  if negb (py_eqb st (PStr "pending")) then mret (inl false) else
  origin ← lift (subscript ddoc "origin");
  destination ← lift (subscript ddoc "destination");
  weight ← lift (subscript ddoc "weight");
  drone_id ← pick_drone origin destination weight delivery_id;
  if negb (truthy drone_id) then mret (inl false) else
  k_dlock ← lift (keyed "drone:" drone_id);
  mret (inr (ddoc, origin, destination, drone_id, k_dlock)).

(** [assign_one], from the drone lock to the end of the [try] block. *)
Definition assign_claim (delivery_id : pyval) (dkey : string)
    (status_channel : bool) (p : picked) : dprog bool :=
  let '(ddoc, origin, destination, drone_id, k_dlock) := p in
  got ← lock_acquire k_dlock 20;
  if negb got then mret false else
  sdoc ← kv_get k_dlock;
  if negb (truthy sdoc) then mret false else
  zcfg ← get_zcfg;
  feas ← lift (can_complete_mission sdoc origin destination zcfg);
  low ← lift (if negb (fst (fst feas)) then Ok true else
              batt ← dict_get_or sdoc "battery" (PNum 0) ≫= py_float;
              Ok (Qle_bool batt (CRITICAL_BATTERY cfg)));
  if (low : bool) then
    s_upd ← lift (recheck_update sdoc delivery_id);
    _ ← kv_put k_dlock s_upd;
    mret false
  else
  ok_busy ← set_drone_busy_if_idle drone_id delivery_id;
  if negb ok_busy then mret false else
  d_new ← lift (dict_copy ddoc);
  let d_new := dict_set (dict_set (dict_set d_new "status" (PStr "assigned"))
                                  "drone_id" drone_id)
                        "leg" (PStr "to_origin") in
  ok ← kv_cas dkey ddoc d_new;
  if negb ok then
    _ ← set_drone_idle_if_busy drone_id delivery_id;
    mret false
  else
  _ ← (if status_channel then
         publish_delivery_status
           (PDict [("type", PStr "delivery_assigned");
                   ("delivery_id", delivery_id); ("drone_id", drone_id)])
       else mret tt);
  mret true.

(** [try: ... finally:] releases the drone lock when [k_dlock] was
    assigned, then the delivery lock; an exception raised by the first
    release skips the second. *)
Definition assign_one (delivery_id : pyval) (status_channel : bool)
  : dprog bool :=
  dlock ← lift (keyed "delivery:" delivery_id);
  got ← lock_acquire dlock 20;
  if negb got then mret false else
  r ← attempt (assign_pick delivery_id dlock);
  match r with
  | Err e => _ ← lock_release dlock; Raise e
  | Ok (inl b) => _ ← lock_release dlock; mret b
  | Ok (inr p) =>
      let k_dlock := snd p in
      r' ← attempt (assign_claim delivery_id dlock status_channel p);
      _ ← lock_release k_dlock;
      _ ← lock_release dlock;
      lift r'
  end.

(** ** autoscale_by_type *)

(** [buckets[t][s].append(did)], kept as the sequence of appends. *)
Definition buckets : Type := list (string * string * pyval).

Definition bucket (bs : buckets) (t s : string) : list pyval :=
  map snd (List.filter (fun e => String.eqb (fst (fst e)) t
                                 && String.eqb (snd (fst e)) s) bs).

Definition known_type (t : string) : bool :=
  String.eqb t "light" || String.eqb t "medium" || String.eqb t "heavy".

Definition known_status (s : string) : bool :=
  String.eqb s "idle" || String.eqb s "busy" || String.eqb s "charging"
  || String.eqb s "retiring" || String.eqb s "inactive".

(** The body of the loop that fills [buckets]. *)
Definition bucket_step (bs : buckets) (did : pyval) : dprog buckets :=
  key ← lift (keyed "drone:" did);
  d ← kv_get key;
  if negb (truthy d) then mret bs else
  t ← lift (dict_get d "type" ≫= (fun t => py_lower (py_or t (PStr "light"))));
  s ← lift (dict_get_or d "status" (PStr "inactive"));
  let t := match t with
           | PStr x => if known_type x then x else "light"
           | _ => "light"
           end in
  s ← lift (if hashable s then
              Ok (match s with
                  | PStr x => if known_status x then x else "inactive"
                  | _ => "inactive"
                  end)
            else Err TypeError);
  mret (bs ++ [(t, s, did)]).

(** [per_type], as the counts of light, medium and heavy. *)
Fixpoint count_types (pending : list pyval) (n : Z * Z * Z) : res (Z * Z * Z) :=
  match pending with
  | [] => Ok n
  | d :: pending' =>
      c ← classify_weight d;
      let '(l, m, h) := n in
      count_types pending'
        (if String.eqb c "light" then (l + 1, m, h)
         else if String.eqb c "medium" then (l, m + 1, h)
         else (l, m, h + 1))
  end.

(** [[d for d in pending if d and d.get("status") == "pending"]] *)
Fixpoint keep_pending (docs : list pyval) : res (list pyval) :=
  match docs with
  | [] => Ok []
  | d :: docs' =>
      keep ← (if truthy d then
                st ← dict_get d "status"; Ok (py_eqb st (PStr "pending"))
              else Ok false);
      rest ← keep_pending docs';
      Ok (if (keep : bool) then d :: rest else rest)
  end.

Definition target_by_type (per_type : Z * Z * Z) (backlog target_total : Z)
    (t : string) : Z :=
  let '(l, m, h) := per_type in
  if Z.eqb backlog 0 then
    let base := BASE_ACTIVE cfg / 3 in
    let rem := BASE_ACTIVE cfg - base * 3 in
    if String.eqb t "light" then (if Z.leb 1 rem then base + 1 else base)
    else if String.eqb t "medium" then (if Z.leb 2 rem then base + 1 else base)
    else if String.eqb t "heavy" then base
    else 0
  else
    let v := if String.eqb t "light" then Some l
             else if String.eqb t "medium" then Some m
             else if String.eqb t "heavy" then Some h
             else None in
    match v with
    | Some v =>
        let share := (inject_Z v / inject_Z backlog)%Q in
        Z.max 0 (py_round (share * inject_Z target_total))
    | None => 0
    end.

(** [async with SCHED_LOCK: body] *)
Definition with_sched_lock {A : Type} (body : dprog A) : dprog A :=
  _ ← call SchedAcquire;
  finally body (call SchedRelease).

Definition activate (did : pyval) : dprog unit :=
  key ← lift (keyed "drone:" did);
  d ← kv_get key;
  if negb (truthy d) then mret tt else
  st ← lift (dict_get d "status");
  if negb (py_eqb st (PStr "inactive")) then mret tt else
  d_new ← lift (dict_copy d);
  _ ← kv_cas key d (dict_set d_new "status" (PStr "idle"));
  mret tt.

(** The body of the loop that fills [safe_pool]. *)
Definition safe_step (safe_pool : list (pyval * pyval)) (did : pyval)
  : dprog (list (pyval * pyval)) :=
  key ← lift (keyed "drone:" did);
  d ← kv_get key;
  if negb (truthy d) then mret safe_pool else
  cd ← lift (dict_get d "current_delivery");
  if truthy cd then mret safe_pool else
  st ← lift (dict_get d "status");
  if py_eqb st (PStr "busy") then mret safe_pool else
  mret (safe_pool ++ [(did, d)]).

Definition retire (e : pyval * pyval) : dprog unit :=
  let '(did, d) := e in
  d_new ← lift (dict_copy d);
  key ← lift (keyed "drone:" did);
  _ ← kv_cas key d (dict_set d_new "status" (PStr "retiring"));
  mret tt.

(** The body of [for t in ("light", "medium", "heavy")]. *)
Definition autoscale_type (bs : buckets) (target : Z) (t : string)
  : dprog unit :=
  let len (l : list pyval) := Z.of_nat (length l) in
  let active_now := len (bucket bs t "idle") + len (bucket bs t "busy")
                    + len (bucket bs t "charging") in
  if Z.ltb active_now target then
    let need := target - active_now in
    let take := Z.min need (len (bucket bs t "inactive")) in
    with_sched_lock
      (foldM (fun _ did => activate did)
             (firstn (Z.to_nat take) (bucket bs t "inactive")) tt)
  else if Z.ltb target active_now then
    let noneed := active_now - target in
    let pool := bucket bs t "charging" ++ bucket bs t "idle" in
    with_sched_lock
      (safe_pool ← foldM safe_step pool [];
       let take := Z.min (Z.max noneed 0) (Z.of_nat (length safe_pool)) in
       foldM (fun _ e => retire e) (firstn (Z.to_nat take) safe_pool) tt)
  else mret tt.

Definition autoscale_by_type : dprog unit :=
  idx ← kv_get "deliveries_index";
  idx ← lift (py_iter (py_or idx (PList [])));
  pending ← mapM (fun i => key ← lift (keyed "delivery:" i); kv_get key) idx;
  pending ← lift (keep_pending pending);
  per_type ← lift (count_types pending (0, 0, 0));
  let '(l, m, h) := per_type in
  let backlog := l + m + h in
  let target_total :=
    Z.max (BASE_ACTIVE cfg)
          (Z.min (DRONE_POOL_MAX cfg)
                 (Qceiling (inject_Z backlog * SCALE_RATIO cfg))) in
  didx ← kv_get "drones_index";
  didx ← lift (py_iter (py_or didx (PList [])));
  bs ← foldM bucket_step didx [];
  foldM (fun _ t =>
           autoscale_type bs (target_by_type per_type backlog target_total t) t)
        ["light"; "medium"; "heavy"] tt.

(** ** Retiring is safe *)

(** Why the CAS number [i] of the trace, from [old] to [new] under [k],
    may set a drone to retiring: [k] is the key of a drone; [old] was
    read back from the store earlier in the round; it has no current
    delivery and is not busy; [new] is [old] with the status alone
    changed; and an earlier read of the round showed the drone charging
    or idle. *)
Definition retire_justified (t : trace dcall) (i : nat) (k : string)
    (old new : pyval) : Prop :=
  (∃ did, keyed "drone:" did = Ok k)
  ∧ seen_before t i k old
  ∧ (∃ cd, dict_get old "current_delivery" = Ok cd ∧ truthy cd = false)
  ∧ (∃ st, dict_get old "status" = Ok st ∧ py_eqb st (PStr "busy") = false)
  ∧ new = dict_set old "status" (PStr "retiring")
  ∧ (∃ d0 st0, seen_before t i k d0
               ∧ dict_get_or d0 "status" (PStr "inactive") = Ok (PStr st0)
               ∧ (st0 = "charging" ∨ st0 = "idle")).

(** Every CAS of the trace that writes the status retiring is justified. *)
Definition retires_safely (t : trace dcall) : Prop :=
  ∀ i e k old new,
    t !! i = Some e → cas_of e = Some (k, old, new) →
    dict_get new "status" = Ok (PStr "retiring") →
    retire_justified t i k old new.

(** A call that is not a CAS to retiring. *)
Definition not_retiring (e : event dcall) : Prop :=
  ∀ k old new, cas_of e = Some (k, old, new) →
               dict_get new "status" ≠ Ok (PStr "retiring").

Definition seen (t : trace dcall) (k : string) (d : pyval) : Prop :=
  seen_before t (length t) k d.

Lemma seen_before_app (t t' : trace dcall) (i : nat) (k : string) (d : pyval) :
  seen_before t i k d → seen_before (t ++ t') i k d.
Proof.
  intros (j & e & Hj & Hl & Hg). exists j, e.
  repeat split; try done. by apply lookup_app_l_Some.
Qed.

Lemma seen_app (t t' : trace dcall) (k : string) (d : pyval) :
  seen t k d → seen (t ++ t') k d.
Proof.
  intros (j & e & Hj & Hl & Hg). exists j, e.
  repeat split; try done; [rewrite length_app; lia|by apply lookup_app_l_Some].
Qed.

Lemma seen_last (t : trace dcall) (k : string) (d : pyval) :
  seen (t ++ [Ev (KvGet k) (Ok d)]) k d.
Proof.
  exists (length t), (Ev (KvGet k) (Ok d)).
  repeat split; [rewrite length_app; simpl; lia|by apply list_lookup_middle].
Qed.

Lemma retire_justified_app (t t' : trace dcall) (i : nat) (k : string)
    (old new : pyval) :
  retire_justified t i k old new → retire_justified (t ++ t') i k old new.
Proof.
  intros (Hk & Hs & Hcd & Hst & Hn & d0 & st0 & Hs0 & Hd0).
  repeat split; try done; [by apply seen_before_app|].
  exists d0, st0. split; [by apply seen_before_app|done].
Qed.

Lemma retires_safely_nil : retires_safely [].
Proof. intros i e k old new Hi. by destruct i. Qed.

Lemma retires_safely_app (t t' : trace dcall) :
  retires_safely t → Forall not_retiring t' → retires_safely (t ++ t').
Proof.
  intros Ht Hq i e k old new Hi Hcas Hst.
  apply lookup_app_Some in Hi as [Hi|[_ Hi]].
  - apply retire_justified_app. by eapply Ht.
  - eapply Forall_lookup_1 in Hq; [|exact Hi]. by destruct (Hq k old new).
Qed.

Lemma retires_safely_snoc (t : trace dcall) (e : event dcall) :
  retires_safely t → not_retiring e → retires_safely (t ++ [e]).
Proof. intros Ht He. apply retires_safely_app; [done|]. by repeat constructor. Qed.

Lemma retires_safely_cas (t : trace dcall) (k : string) (old new : pyval)
    (b : bool) :
  retires_safely t →
  retire_justified t (length t) k old new →
  retires_safely (t ++ [Ev (KvCas k old new) b]).
Proof.
  intros Ht Hj i e k' old' new' Hi Hcas Hst.
  apply lookup_app_Some in Hi as [Hi|[Hlen Hi]].
  - apply retire_justified_app. by eapply Ht.
  - destruct (i - length t)%nat as [|n] eqn:En; [|done].
    simpl in Hi. injection Hi as <-. simpl in Hcas. injection Hcas as <- <- <-.
    assert (i = length t) as -> by lia.
    by apply retire_justified_app.
Qed.

(** Goes through a program of the dispatcher up to its next CAS, keeping
    in [H] that the trace so far is [retires_safely]. *)
Ltac scale_steps H :=
  repeat lazymatch goal with
  | |- wp (_ ≫= _) _ _ _ => apply wp_mbind
  | |- wp (kv_get _) _ _ _ => unfold kv_get
  | |- wp (lift ?r) _ _ _ =>
      apply wp_lift; let E := fresh "E" in destruct r eqn:E; cbn [then_wp]
  | |- wp (call ?c) _ _ ?t =>
      apply wp_call; let r := fresh "r" in intros r;
      cbn [then_wp];
      apply (retires_safely_snoc t (Ev c r)) in H; [|by intros ? ? ? [=]]
  | |- wp (mret _) _ _ _ => apply wp_mret; cbn [then_wp]
  | |- wp (if ?b then _ else _) _ _ _ =>
      let E := fresh "E" in destruct b eqn:E; cbn [negb]
  | |- wp (Ret _) _ _ _ => cbn [wp then_wp]
  | |- then_wp _ _ _ _ _ => cbn [then_wp]
  end.

(** Each entry of [buckets] filed under a status other than inactive
    comes from a read of the drone that showed that status. *)
Definition bucket_ok (bs : buckets) (t : trace dcall) : Prop :=
  ∀ ty st did,
    (ty, st, did) ∈ bs → st ≠ "inactive" →
    ∃ key d0, keyed "drone:" did = Ok key ∧ seen t key d0
              ∧ dict_get_or d0 "status" (PStr "inactive") = Ok (PStr st).

Lemma bucket_ok_app (bs : buckets) (t t' : trace dcall) :
  bucket_ok bs t → bucket_ok bs (t ++ t').
Proof.
  intros Hb ty st did Hin Hne.
  destruct (Hb ty st did Hin Hne) as (key & d0 & Hk & Hs & Hd).
  exists key, d0. repeat split; try done. by apply seen_app.
Qed.

Lemma wp_bucket_step (bs : buckets) (did : pyval) (s : pyval) (t : trace dcall) :
  retires_safely t → bucket_ok bs t →
  wp (bucket_step bs did)
     (fun r _ t' => retires_safely t'
                    ∧ match r with
                      | Ok bs' => bucket_ok bs' t'
                      | Err _ => True
                      end) s t.
Proof.
  intros H Hb. unfold bucket_step. scale_steps H.
  all: try (split; [exact H|done]).
  - split; [exact H|]. by apply bucket_ok_app.
  - split; [exact H|].
    intros ty st did' Hin Hne.
    apply elem_of_app in Hin as [Hin|Hin].
    + destruct (Hb ty st did' Hin Hne) as (key & d0 & Hk & Hs & Hd).
      exists key, d0. repeat split; try done. by apply seen_app.
    + apply list_elem_of_singleton in Hin. injection Hin as -> -> ->.
      exists a, a0. split; [done|]. split; [apply seen_last|].
      rewrite E3. destruct a2; simpl in E4; try done;
        try (by injection E4 as <-).
      destruct (known_status s0); by injection E4 as <-.
Qed.

(** Each entry of [safe_pool] is a drone of the pool with the document
    read back for it: no current delivery, not busy. *)
Definition safe_ok (pool : list pyval) (safe_pool : list (pyval * pyval))
    (t : trace dcall) : Prop :=
  ∀ did d,
    (did, d) ∈ safe_pool →
    did ∈ pool
    ∧ ∃ key, keyed "drone:" did = Ok key ∧ seen t key d
             ∧ (∃ cd, dict_get d "current_delivery" = Ok cd ∧ truthy cd = false)
             ∧ (∃ st, dict_get d "status" = Ok st
                      ∧ py_eqb st (PStr "busy") = false).

Lemma safe_ok_app (pool : list pyval) (sp : list (pyval * pyval))
    (t t' : trace dcall) :
  safe_ok pool sp t → safe_ok pool sp (t ++ t').
Proof.
  intros Hs did d Hin.
  destruct (Hs did d Hin) as (Hp & key & Hk & Hseen & Hcd & Hst).
  split; [done|]. exists key. repeat split; try done. by apply seen_app.
Qed.

Lemma wp_safe_step (pool : list pyval) (sp : list (pyval * pyval))
    (did : pyval) (s : pyval) (t : trace dcall) :
  retires_safely t → safe_ok pool sp t → did ∈ pool →
  wp (safe_step sp did)
     (fun r _ t' => retires_safely t'
                    ∧ match r with
                      | Ok sp' => safe_ok pool sp' t'
                      | Err _ => True
                      end) s t.
Proof.
  intros H Hs Hp. unfold safe_step. scale_steps H.
  all: try (split; [exact H|done]).
  all: try (split; [exact H|by apply safe_ok_app]).
  split; [exact H|].
  intros did' d Hin.
  apply elem_of_app in Hin as [Hin|Hin].
  - by apply (safe_ok_app pool sp t _ Hs).
  - apply list_elem_of_singleton in Hin. injection Hin as -> ->.
    split; [done|]. exists a. split; [done|]. split; [apply seen_last|].
    split; [by exists a1|by exists a2].
Qed.


Lemma elem_of_bucket (bs : buckets) (ty st : string) (did : pyval) :
  did ∈ bucket bs ty st → (ty, st, did) ∈ bs.
Proof.
  unfold bucket. rewrite !list_elem_of_In, in_map_iff.
  intros ([[ty' st'] did'] & Heq & Hin).
  apply filter_In in Hin as [Hin Hc]. simpl in *. subst did'.
  apply andb_true_iff in Hc as [Ht Hs].
  apply String.eqb_eq in Ht, Hs. by subst.
Qed.

Lemma wp_kv_cas (key : string) (old new : pyval) (Q : post dcall pyval bool)
    (s : pyval) (t : trace dcall) :
  Q (Ok false) s t →
  (∀ b, Q (Ok b) s (t ++ [Ev (KvCas key old new) b])) →
  wp (kv_cas key old new) Q s t.
Proof.
  intros Hno Hyes. unfold kv_cas.
  destruct (json_serializable old && json_serializable new).
  - apply wp_call. intros b. apply Hyes.
  - by apply wp_mret.
Qed.

Lemma wp_activate (did : pyval) (s : pyval) (t : trace dcall) :
  retires_safely t → wp (activate did) (always retires_safely) s t.
Proof.
  intros H. unfold activate. scale_steps H.
  all: try exact H.
  match goal with
  | E : dict_copy _ = Ok _ |- _ => apply dict_copy_ok in E as [-> Hd]
  end.
  apply wp_kv_cas; [exact H|]. intros b. cbn [then_wp]. apply wp_mret.
  apply retires_safely_snoc; [exact H|].
  intros k old new [= <- <- <-]. rewrite dict_get_set by done. done.
Qed.

Lemma wp_retire (bs : buckets) (ty : string) (sp : list (pyval * pyval))
    (e : pyval * pyval) (s : pyval) (t : trace dcall) :
  retires_safely t → bucket_ok bs t →
  safe_ok (bucket bs ty "charging" ++ bucket bs ty "idle") sp t →
  e ∈ sp →
  wp (retire e) (always retires_safely) s t.
Proof.
  intros H Hb Hs Hin. destruct e as [did d].
  destruct (Hs did d Hin) as (Hp & key & Hk & Hseen & Hcd & Hst).
  assert (Hfirst : ∃ d0 st0, seen t key d0
                     ∧ dict_get_or d0 "status" (PStr "inactive") = Ok (PStr st0)
                     ∧ (st0 = "charging" ∨ st0 = "idle")).
  { apply elem_of_app in Hp as [Hp|Hp]; apply elem_of_bucket in Hp.
    - destruct (Hb _ _ _ Hp) as (key' & d0 & Hk' & Hs0 & Hd0); [done|].
      rewrite Hk in Hk'. injection Hk' as <-. exists d0, "charging". eauto.
    - destruct (Hb _ _ _ Hp) as (key' & d0 & Hk' & Hs0 & Hd0); [done|].
      rewrite Hk in Hk'. injection Hk' as <-. exists d0, "idle". eauto. }
  unfold retire. scale_steps H.
  all: try exact H.
  match goal with
  | E : dict_copy _ = Ok _ |- _ => apply dict_copy_ok in E as [-> Hd]
  end.
  match goal with
  | E : Ok _ = Ok _ |- _ => injection E as ->
  end.
  apply wp_kv_cas; [exact H|]. intros b. cbn [then_wp]. apply wp_mret.
  apply retires_safely_cas; [exact H|].
  repeat split; try done. by exists did.
Qed.

Lemma wp_with_sched_lock {A : Type} (body : dprog A) (s : pyval)
    (t : trace dcall) :
  (∀ r, wp body (always retires_safely) s (t ++ [Ev SchedAcquire r])) →
  wp (with_sched_lock body) (always retires_safely) s t.
Proof.
  intros Hbody. unfold with_sched_lock, finally.
  apply wp_mbind, wp_call. intros r. cbn [then_wp].
  apply wp_bind, wp_attempt.
  eapply wp_mono; [|by apply Hbody].
  intros r' s' t' H'. unfold always in H'. cbn [then_wp].
  apply wp_bind, wp_call. intros []. cbn [then_wp].
  apply wp_lift.
  by apply retires_safely_snoc; [|intros ? ? ? [=]].
Qed.

Lemma wp_autoscale_type (bs : buckets) (target : Z) (ty : string) (s : pyval)
    (t : trace dcall) :
  retires_safely t → bucket_ok bs t →
  wp (autoscale_type bs target ty) (always retires_safely) s t.
Proof.
  intros H Hb. unfold autoscale_type. cbv zeta.
  destruct (Z.ltb _ target); [|destruct (Z.ltb target _)].
  - apply wp_with_sched_lock. intros r.
    apply (retires_safely_snoc t (Ev SchedAcquire r)) in H; [|by intros ? ? ? [=]].
    apply (wp_foldM _ (fun _ _ t => retires_safely t)); [done| |done].
    intros [] s' t' did _ H'.
    eapply wp_mono; [|by apply wp_activate]. by intros [[]|].
  - apply wp_with_sched_lock. intros r.
    apply (retires_safely_snoc t (Ev SchedAcquire r)) in H; [|by intros ? ? ? [=]].
    apply (bucket_ok_app bs t [Ev SchedAcquire r]) in Hb.
    set (pool := bucket bs ty "charging" ++ bucket bs ty "idle").
    apply wp_mbind.
    apply (wp_foldM _ (fun sp _ t => retires_safely t ∧ safe_ok pool sp t
                                     ∧ bucket_ok bs t)).
    + split; [exact H|split; [|exact Hb]].
      intros did d Hin. by apply elem_of_nil in Hin.
    + intros sp s' t' did Hin (H' & Hs' & Hb').
      eapply wp_mono; [|by apply wp_extends, (wp_safe_step pool)].
      intros [sp'|e] s'' t'' [[Hr Hs''] (t3 & ->)]; [|done].
      split; [done|split; [done|by apply bucket_ok_app]].
    + intros sp s' t' (H' & Hs' & Hb'). cbn [then_wp].
      apply (wp_foldM _ (fun _ _ t => retires_safely t ∧ safe_ok pool sp t
                                      ∧ bucket_ok bs t)); [done| |by intros ? ? ? []].
      intros [] s'' t'' e Hin (H'' & Hs'' & Hb'').
      eapply wp_mono; [|apply wp_extends, (wp_retire bs ty sp); try done].
      * intros [[]|e'] s3 t3 [Hr (t4 & ->)]; [|done].
        split; [done|split; [by apply safe_ok_app|by apply bucket_ok_app]].
      * eapply subseteq_take, Hin.
  - by apply wp_mret.
Qed.

Definition reads_only (e : event dcall) : Prop := cas_of e = None.

Lemma reads_only_not_retiring (t : trace dcall) :
  Forall reads_only t → Forall not_retiring t.
Proof.
  intros Ht. eapply Forall_impl; [exact Ht|].
  intros e He k old new Hc. unfold reads_only in He. by rewrite He in Hc.
Qed.

Lemma wp_autoscale_by_type (s : pyval) :
  wp autoscale_by_type (always retires_safely) s [].
Proof.
  pose proof retires_safely_nil as H.
  unfold autoscale_by_type. scale_steps H.
  all: try exact H.
  apply (wp_only reads_only).
  { apply only_mapM. intros i.
    unfold kv_get. only_steps ltac:(done). }
  intros rp s' t' Ht'. apply reads_only_not_retiring in Ht'.
  apply (retires_safely_app _ _ H) in Ht'. clear H. rename Ht' into H.
  destruct rp as [pending|e]; cbn [then_wp]; [|exact H].
  scale_steps H.
  all: try exact H.
  match goal with
  | E : count_types _ _ = Ok ?p |- _ => destruct p as [[l m] h]
  end.
  scale_steps H.
  all: try exact H.
  apply (wp_foldM _ (fun bs _ t => retires_safely t ∧ bucket_ok bs t)).
  - split; [exact H|]. intros ty st did Hin. by apply elem_of_nil in Hin.
  - intros bs s0 t0 did _ [H0 Hb0].
    eapply wp_mono; [|by apply wp_bucket_step]. by intros [bs'|e] s1 t1 [].
  - intros bs s0 t0 [H0 Hb0]. cbn [then_wp].
    apply (wp_foldM _ (fun _ _ t => retires_safely t ∧ bucket_ok bs t));
      [done| |by intros ? ? ? []].
    intros [] s1 t1 ty _ [H1 Hb1].
    eapply wp_mono; [|by apply wp_extends, wp_autoscale_type].
    intros [[]|e] s2 t2 [Hr (t3 & ->)]; [|done].
    split; [done|by apply bucket_ok_app].
Qed.

(** C5: in a round of [autoscale_by_type], every CAS that sets a status
    to retiring is on the key of a drone, expects a document read back
    from the store earlier in the round that has no current delivery and
    is not busy, changes the status alone, and follows a read of the
    round that showed the drone charging or idle.  So no drone that is
    busy or bound to a delivery is set to retiring. *)
Theorem autoscale_retires_only_safe {W : Type} (h : handler dcall W) (w : W)
    (s : pyval) :
  let t := events (run h autoscale_by_type s w) in
  ∀ i e k old new,
    t !! i = Some e → cas_of e = Some (k, old, new) →
    dict_get new "status" = Ok (PStr "retiring") →
    retire_justified t i k old new
    ∧ (∀ id, id ≠ "" → dict_get old "current_delivery" ≠ Ok (PStr id))
    ∧ dict_get old "status" ≠ Ok (PStr "busy")
    ∧ dict_get new "current_delivery" = dict_get old "current_delivery".
Proof.
  intros t i e k old new Hi Hcas Hst.
  pose proof (wp_sound h autoscale_by_type _ s w [] (wp_autoscale_by_type s)) as Hsafe.
  unfold always in Hsafe. cbn [app] in Hsafe. fold t in Hsafe.
  pose proof (Hsafe i e k old new Hi Hcas Hst) as Hj.
  split; [exact Hj|].
  destruct Hj as (_ & _ & (cd & Hcd & Hfalsy) & (st & Hs & Hbusy) & -> & _).
  split; [|split].
  - intros id Hid Heq. rewrite Hcd in Heq. injection Heq as ->.
    simpl in Hfalsy. apply negb_false_iff, String.eqb_eq in Hfalsy. done.
  - intros Heq. rewrite Hs in Heq. injection Heq as ->. done.
  - rewrite dict_get_set by (by eapply dict_get_is_dict). done.
Qed.

(** ** Running the KV helpers *)

Lemma run_kv_get {W : Type} (h : handler dcall W) (k : string) (s : pyval) (w : W) :
  run h (kv_get k) s w =
    Outcome (fst (h _ (KvGet k) w)) s (snd (h _ (KvGet k) w))
            [Ev (KvGet k) (fst (h _ (KvGet k) w))].
Proof. unfold kv_get. run_steps. by rewrite app_nil_r. Qed.

Lemma run_kv_put {W : Type} (h : handler dcall W) (k : string) (v s : pyval)
    (w : W) :
  json_serializable v = true →
  run h (kv_put k v) s w =
    Outcome (fst (h _ (KvPut k v) w)) s (snd (h _ (KvPut k v) w))
            [Ev (KvPut k v) (fst (h _ (KvPut k v) w))].
Proof. intros Hv. unfold kv_put. rewrite Hv. run_steps. by rewrite app_nil_r. Qed.

(** ** Properties of the filter and of the final choice *)

(** ** The candidates of [pick_drone] and the winner of its sort *)

Ltac key_head c :=
  lazymatch c with
  | Z.eqb ?a ?b => destruct (Z.eqb_spec a b)
  | Qeq_bool ?a ?b =>
      let E := fresh "E" in
      destruct (Qeq_bool a b) eqn:E;
      [apply Qeq_bool_iff in E|apply Qeq_bool_neq in E]
  end.

Ltac key_leaf c :=
  lazymatch c with
  | Z.ltb ?a ?b => destruct (Z.ltb_spec a b)
  | Qltb ?a ?b =>
      let E := fresh "E" in
      destruct (Qltb a b) eqn:E; [apply Qltb_lt in E|apply Qltb_ge in E]
  end.

(** Decides the tests of [key_lt] from the outermost inwards. *)
Ltac key_cases :=
  unfold key_lt in *;
  repeat (match goal with
          | H : (if negb ?c then _ else _) = _ |- _ => key_head c
          | |- (if negb ?c then _ else _) = _ => key_head c
          | H : ?c = _ |- _ => key_leaf c
          | |- ?c = _ => key_leaf c
          end; cbn [negb] in *; try done; try lia; try lra).

Lemma key_lt_trans (x y z : candidate) :
  key_lt x y = true → key_lt y z = true → key_lt x z = true.
Proof. intros Hxy Hyz. key_cases. Qed.

Lemma key_lt_not_trans (x y z : candidate) :
  key_lt x y = false → key_lt y z = false → key_lt x z = false.
Proof. intros Hxy Hyz. key_cases. Qed.

(** The head of the sorted list is the first candidate, in the order of
    the appends, that has the least key. *)
Lemma sort_by_key_head (candidates : list candidate) :
  candidates ≠ [] →
  ∃ pre best post rest,
    candidates = pre ++ best :: post
    ∧ sort_by_key candidates = best :: rest
    ∧ (∀ c, c ∈ pre → key_lt best c = true)
    ∧ (∀ c, c ∈ post → key_lt c best = false).
Proof.
  induction candidates as [|x l IH]; [done|]. intros _.
  destruct l as [|y l'].
  { exists [], x, [], []. repeat split; try done; intros c Hc; by inversion Hc. }
  destruct IH as (pre & b & post & rest & Hl & Hs & Hpre & Hpost); [done|].
  cbn [sort_by_key fold_right] in *. fold (sort_by_key (y :: l')) in *.
  rewrite Hs. cbn [insert_by_key]. destruct (key_lt b x) eqn:Hbx.
  - exists (x :: pre), b, post, (insert_by_key x rest).
    split; [by rewrite Hl|]. split; [done|]. split; [|done].
    intros c [->|Hc]%elem_of_cons; [done|by apply Hpre].
  - exists [], x, (y :: l'), (b :: rest).
    split; [done|]. split; [done|]. split; [intros c Hc; by inversion Hc|].
    intros c Hc. rewrite Hl in Hc.
    apply elem_of_app in Hc as [Hc|[->|Hc]%elem_of_cons].
    + destruct (key_lt c x) eqn:Hcx; [|done].
      by rewrite (key_lt_trans b c x (Hpre c Hc) Hcx) in Hbx.
    + done.
    + by apply (key_lt_not_trans c b x); [apply Hpost|].
Qed.

(** Each candidate stands for a drone whose document was read from the
    store during the calls [t], and the distance recorded for it is the
    distance of the position in that document from the pickup. *)
Definition measured (origin : pyval) (t : trace dcall)
    (candidates : list candidate) : Prop :=
  ∀ c, c ∈ candidates →
    ∃ key d pos,
      keyed "drone:" (c_id c) = Ok key ∧ seen t key d
      ∧ subscript d "pos" = Ok pos
      ∧ haversine_km pos origin = Ok (c_dist_km c).

Lemma measured_app (origin : pyval) (t t' : trace dcall)
    (candidates : list candidate) :
  measured origin t candidates → measured origin (t ++ t') candidates.
Proof.
  intros Hm c Hc. destruct (Hm c Hc) as (key & d & pos & Hk & Hs & Hp & Hd).
  exists key, d, pos. repeat split; try done. by apply seen_app.
Qed.

Lemma measured_snoc (origin : pyval) (t : trace dcall)
    (candidates : list candidate) (c : candidate) :
  measured origin t candidates →
  (∃ key d pos,
     keyed "drone:" (c_id c) = Ok key ∧ seen t key d
     ∧ subscript d "pos" = Ok pos
     ∧ haversine_km pos origin = Ok (c_dist_km c)) →
  measured origin t (candidates ++ [c]).
Proof.
  intros Hm Hc c' [Hin|Hin%list_elem_of_singleton]%elem_of_app;
    [by apply Hm|by subst c'].
Qed.

Ltac pick_steps :=
  repeat lazymatch goal with
  | |- wp (_ ≫= _) _ _ _ => apply wp_mbind
  | |- wp (kv_get _) _ _ _ => unfold kv_get
  | |- wp (kv_put _ _) _ _ _ => unfold kv_put
  | |- wp (lift ?r) _ _ _ =>
      apply wp_lift; let E := fresh "E" in destruct r eqn:E; cbn [then_wp]
  | |- wp (call ?c) _ _ ?t =>
      apply wp_call; let r := fresh "r" in intros r; cbn [then_wp]
  | |- wp (mret _) _ _ _ => apply wp_mret; cbn [then_wp]
  | |- wp (if ?b then _ else _) _ _ _ =>
      let E := fresh "E" in destruct b eqn:E; cbn [negb]
  | |- wp (Ret _) _ _ _ => cbn [wp then_wp]
  | |- wp (Raise _) _ _ _ => cbn [wp then_wp]
  | |- then_wp _ _ _ _ _ => cbn [then_wp]
  end.

Lemma wp_pick_drone_step (zcfg z_origin : pyval) (pclass : string)
    (origin destination delivery_id : pyval) (candidates : list candidate)
    (did : pyval) (s : pyval) (t : trace dcall) :
  measured origin t candidates →
  wp (pick_drone_step zcfg z_origin pclass origin destination
        delivery_id candidates did)
     (fun r _ t' => match r with
                    | Ok candidates' => measured origin t' candidates'
                    | Err _ => True
                    end) s t.
Proof.
  intros Hm. unfold pick_drone_step. pick_steps.
  all: try done.
  all: try (by repeat apply measured_app).
  all: apply measured_snoc; [by repeat apply measured_app|];
    cbn [c_id c_dist_km];
    repeat match goal with
           | H : Ok _ = Ok _ |- _ => injection H as ->
           end;
    match goal with
    | Hk : keyed "drone:" _ = Ok ?key,
      Hp : subscript ?d "pos" = Ok ?pos,
      Hd : haversine_km ?pos _ = Ok ?km |- _ =>
        exists key, d, pos; split; [exact Hk|]; split; [|by split];
        first [apply seen_last|apply seen_app, seen_last]
    end.
Qed.

Lemma wp_any {A : Type} (p : dprog A) (Q : post dcall pyval A) :
  (∀ r s t, Q r s t) → ∀ s t, wp p Q s t.
Proof.
  intros HQ. induction p as [a|e|k IH|s' k IH|R c k IH]; intros s t; simpl;
    eauto.
Qed.


(** C9, amended: a drone that passed the tests on status, current
    delivery and class, and whose battery is at or below
    [CRITICAL_BATTERY] -- in particular exactly equal to it -- is not
    eligible: its document is PUT with status charging and the list of
    candidates is left as it was.  Only a battery strictly greater than
    [CRITICAL_BATTERY] passes the test. *)
Theorem pick_drone_step_critical_battery {W : Type} (h : handler dcall W)
    (w : W) (s zcfg z_origin : pyval) (pclass : string)
    (origin destination delivery_id : pyval) (candidates : list candidate)
    (did : pyval) (key : string) (d cd : pyval) (battery : Q) :
  keyed "drone:" did = Ok key →
  fst (h _ (KvGet key) w) = Ok d →
  truthy d = true →
  json_serializable d = true →
  dict_get d "status" = Ok (PStr "idle") →
  dict_get d "current_delivery" = Ok cd → truthy cd = false →
  dict_get d "type" ≫= (fun t => py_lower (py_or t (PStr ""))) = Ok (PStr pclass) →
  dict_get_or d "battery" (PNum 0) = Ok (PNum battery) →
  (battery <= CRITICAL_BATTERY cfg)%Q →
  let o := run h (pick_drone_step zcfg z_origin pclass origin destination
                                  delivery_id candidates did) s w in
  ∃ r, events o = [Ev (KvGet key) (Ok d);
                   Ev (KvPut key (dict_set d "status" (PStr "charging"))) r]
       ∧ result o = match r with
                    | Ok _ => Ok candidates
                    | Err e => Err e
                    end.
Proof.
  intros Hkey Hget Hd Hjson Hst Hcd Hcdf Hty Hbatt Hle o. subst o.
  enough (∃ r w',
            run h (pick_drone_step zcfg z_origin pclass origin destination
                                   delivery_id candidates did) s w
            = Outcome (match r with
                       | Ok _ => Ok candidates
                       | Err e => Err e
                       end) s w'
                [Ev (KvGet key) (Ok d);
                 Ev (KvPut key (dict_set d "status" (PStr "charging"))) r])
    as (r & w' & ->) by (by exists r).
  unfold pick_drone_step. run_steps. rewrite Hkey. run_steps.
  rewrite run_kv_get.
  destruct (h _ (KvGet key) w) as [r0 w1] eqn:E0. cbn [fst snd] in *. subst r0.
  run_steps. rewrite Hd. cbn [negb]. run_steps.
  rewrite Hst. run_steps. cbn [py_eqb]. rewrite String.eqb_refl. cbn [negb].
  run_steps. rewrite Hcd. run_steps. rewrite Hcdf.
  run_steps. rewrite Hty. run_steps.
  cbn [py_eqb]. rewrite String.eqb_refl. cbn [negb].
  run_steps. rewrite Hbatt.
  rewrite (res_bind_ok (PNum battery)
             (fun b => py_le b (PNum (CRITICAL_BATTERY cfg)))), py_le_num.
  apply Qle_bool_iff in Hle. rewrite Hle. run_steps.
  rewrite run_kv_put by (by apply json_dict_set).
  destruct (h _ (KvPut key (dict_set d "status" (PStr "charging"))) w1)
    as [r w2] eqn:E1. cbn [fst snd].
  exists r, w2. destruct r as [[]|e]; by run_steps.
Qed.

End Logic.

(** ** Environments to run the dispatcher in *)

Abbreviation store := (gmap string pyval).

(** The answer of a store nobody else is writing to: [get] reads, [put]
    writes, [cas] writes when the stored value equals [old]; locks are
    free and the broker accepts every message. *)
Definition answer {R : Type} (c : dcall R) (st : store) : R * store :=
  match c in dcall R return R * store with
  | KvGet k => (Ok (default PNone (st !! k)), st)
  | KvPut k v => (Ok tt, <[k := v]> st)
  | KvCas k old new =>
      if py_eqb (default PNone (st !! k)) old then (true, <[k := new]> st)
      else (false, st)
  | LockAcquire _ _ => (Ok true, st)
  | LockRelease _ => (Ok tt, st)
  | Publish _ _ => (Ok tt, st)
  | Sleep _ => (tt, st)
  | SchedAcquire => (tt, st)
  | SchedRelease => (tt, st)
  end.

Definition quiet : handler dcall store := fun R c st => answer c st.

(** Other processes write between two calls of the dispatcher:
    [others n] is what they do to the store just before its call number
    [n] (from 0) is answered. *)
Definition racing (others : nat → store → store) : handler dcall (nat * store) :=
  fun R c w =>
    let '(r, st) := answer c (others (fst w) (snd w)) in (r, (S (fst w), st)).

(** A distance for the examples: 111 km per degree along the axes.  The
    examples use it between equal points, where it is 0 as the
    great-circle distance is, and once between points one degree of
    latitude apart, where the great-circle distance is 111.2 km and the
    mission is out of reach of the battery under either. *)
Definition grid_km (a b : pyval) : res Q :=
  alat ← subscript a "lat" ≫= py_num;
  alon ← subscript a "lon" ≫= py_num;
  blat ← subscript b "lat" ≫= py_num;
  blon ← subscript b "lon" ≫= py_num;
  Ok (Qred (111 * (Qabs (alat - blat) + Qabs (alon - blon)))).

Definition point (lat lon : Q) : pyval :=
  PDict [("lat", PNum lat); ("lon", PNum lon)].

(** A 1x1 grid around Rome with its charge point at the centre. *)
Definition zone0 : pyval :=
  PDict [("name", PStr "zone 0"); ("row", PInt 0); ("col", PInt 0);
         ("bounds", PDict [("lat_min", PNum 41); ("lat_max", PNum 43);
                           ("lon_min", PNum 11); ("lon_max", PNum 13)]);
         ("charge", point 42 12);
         ("neighbors", PList [])].

Definition zones1 : pyval := PDict [("rows", PInt 1); ("cols", PInt 1);
                                    ("zones", PList [zone0])].

Definition drone_doc (id type status : string) (battery : Q) (pos : pyval)
    (feas_miss : Z) (feas_miss_set : list pyval) : pyval :=
  PDict [("id", PStr id); ("type", PStr type); ("status", PStr status);
         ("battery", PNum battery); ("pos", pos); ("speed", PNum (4 # 10));
         ("current_delivery", PNone); ("feas_miss", PInt feas_miss);
         ("feas_miss_set", PList feas_miss_set); ("at_charge", PBool false)].

Definition delivery_doc (id : string) (origin destination : pyval) (weight : Q)
  : pyval :=
  PDict [("id", PStr id); ("status", PStr "pending"); ("drone_id", PNone);
         ("origin", origin); ("destination", destination);
         ("weight", PNum weight)].

(** The documents the dispatcher PUT, the keys it CASed and the locks it
    asked for, in the order of the calls. *)
Definition puts (t : trace dcall) : list (string * pyval) :=
  flat_map (fun e => match e with
                     | Ev c _ => match c with
                                 | KvPut k v => [(k, v)]
                                 | _ => []
                                 end
                     end) t.

Definition cas_keys (t : trace dcall) : list string :=
  flat_map (fun e => match e with
                     | Ev c _ => match c with
                                 | KvCas k _ _ => [k]
                                 | _ => []
                                 end
                     end) t.

Definition lock_keys (t : trace dcall) : list string :=
  flat_map (fun e => match e with
                     | Ev c _ => match c with
                                 | LockAcquire k _ => [k]
                                 | _ => []
                                 end
                     end) t.

(** One light drone [d1], one pending delivery [X] of 1 kg whose pickup
    and drop-off are the charge point of the zone. *)
Definition rome : pyval := point 42 12.

Definition base_store (d1 : pyval) : store :=
  <["zones_config" := zones1]>
    (<["drones_index" := PList [PStr "d1"]]>
       (<["drone:d1" := d1]>
          (<["delivery:X" := delivery_doc "X" rome rome 1]> ∅))).

(** Another process replaces the document of [d1] just before the call
    number [n] of the dispatcher is answered. *)
Definition sim_write (n : nat) (doc : pyval) : nat → store → store :=
  fun i st => if Nat.eqb i n then <["drone:d1" := doc]> st else st.

Definition d1_with (battery : Q) (pos : pyval) (feas_miss : Z)
    (feas_miss_set : list pyval) : pyval :=
  drone_doc "d1" "light" "idle" battery pos feas_miss feas_miss_set.

Definition d1_charging (battery : Q) (pos : pyval) : pyval :=
  drone_doc "d1" "light" "charging" battery pos 0 [].

(** The sixth call of [assign_one] in these runs is the re-read of the
    drone under its lock. *)
Definition assign_X (reread : pyval) : outcome dcall pyval bool (nat * store) :=
  run (racing (sim_write 6 reread))
      (assign_one default_config grid_km (PStr "X") true)
      PNone (0%nat, base_store (d1_with 100 rome 0 [])).

Definition pick_X (cfg : config) (d1 : pyval) : outcome dcall pyval pyval store :=
  run quiet (pick_drone cfg grid_km rome rome (PNum 1) (PStr "X"))
      PNone (base_store d1).

(** ** The re-check of [assign_one] against the filter of [pick_drone] *)

(** C1: the re-read shows the drone 111 km away with [feas_miss = 4] and
    the delivery [X] already in [feas_miss_set].  [assign_one] counts [X]
    again, reaches the threshold 5 and PUTs the drone as charging with the
    counter reset; [pick_drone], given the same document, does not count
    [X] again and writes nothing. *)
Theorem assign_one_recheck_counts_again :
  let reread := d1_with 40 (point 43 12) 4 [PStr "X"] in
  result (assign_X reread) = Ok false
  ∧ puts (events (assign_X reread))
    = [("drone:d1", d1_charging 40 (point 43 12))]
  ∧ result (pick_X default_config reread) = Ok PNone
  ∧ puts (events (pick_X default_config reread)) = [].
Proof. vm_compute. repeat split; reflexivity. Qed.

(** C7: the re-read shows the battery at 25.  The update [assign_one]
    builds holds [feas_miss_set] as a Python set, [json] refuses it, the
    PUT raises [TypeError] before anything is sent and the drone is not
    updated. *)
Theorem assign_one_recheck_puts_a_set :
  let reread := d1_with 25 rome 0 [] in
  recheck_update default_config reread (PStr "X")
  = Ok (dict_set (dict_set (dict_set reread "feas_miss" (PInt 1))
                           "feas_miss_set" (PSet [PStr "X"]))
                 "status" (PStr "charging"))
  ∧ result (assign_X reread) = Err TypeError
  ∧ puts (events (assign_X reread)) = []
  ∧ snd (final_world (assign_X reread)) !! "drone:d1" = Some reread.
Proof. vm_compute. repeat split; reflexivity. Qed.

(** C2: a drone of the wanted class at battery 20 is sent to charging by
    a plain PUT of its whole document; [pick_drone] neither CASes nor
    locks the drone. *)
Theorem pick_drone_puts_low_battery :
  let o := pick_X default_config (d1_with 20 rome 0 []) in
  result o = Ok PNone
  ∧ puts (events o) = [("drone:d1", d1_charging 20 rome)]
  ∧ cas_keys (events o) = []
  ∧ lock_keys (events o) = []
  ∧ puts (events (assign_X (d1_with 40 (point 43 12) 4 [PStr "X"])))
    = [("drone:d1", d1_charging 40 (point 43 12))]
  ∧ cas_keys (events (assign_X (d1_with 40 (point 43 12) 4 [PStr "X"]))) = [].
Proof. vm_compute. repeat split; reflexivity. Qed.

(** ** The two boundaries of [pick_drone] *)

Definition zero_pickup : config :=
  {| BATTERY_PER_KM := 2; SAFETY_MARGIN_PCT := 5; NEAR_EPS_KM := 2 # 10;
     MAX_PICKUP_KM := 0; ARRIVE_EPS_KM := 2 # 100; CRITICAL_BATTERY := 30;
     FULL_AFTER := 95; EARLY_CHARGE_THRESHOLD := 5; DRONE_POOL_MAX := 20;
     BASE_ACTIVE := 4; SCALE_RATIO := 8 # 10;
     DELIVERY_STATUS_QUEUE := "delivery_status" |}.


(** C9, as stated, fails: an idle light drone whose battery is exactly
    [CRITICAL_BATTERY] = 30 is PUT as charging and not returned, while
    the same drone at 31 is returned. *)
Lemma pick_drone_rejects_at_critical :
  Qeq_bool 30 (CRITICAL_BATTERY default_config) = true
  ∧ result (pick_X default_config (d1_with 30 rome 0 [])) = Ok PNone
  ∧ puts (events (pick_X default_config (d1_with 30 rome 0 [])))
    = [("drone:d1", d1_charging 30 rome)]
  ∧ result (pick_X default_config (d1_with 31 rome 0 [])) = Ok (PStr "d1").
Proof. vm_compute. repeat split; reflexivity. Qed.


Lemma pick_drone_step_critical_battery_witness :
  let o := run quiet
             (pick_drone_step default_config grid_km zones1 zone0 "light"
                rome rome (PStr "X") [] (PStr "d1"))
             PNone (base_store (d1_with 30 rome 0 [])) in
  ∃ r, events o
       = [Ev (KvGet "drone:d1") (Ok (d1_with 30 rome 0 []));
          Ev (KvPut "drone:d1"
                (dict_set (d1_with 30 rome 0 []) "status" (PStr "charging"))) r]
       ∧ result o = match r with
                    | Ok _ => Ok []
                    | Err e => Err e
                    end.
Proof.
  apply (pick_drone_step_critical_battery default_config grid_km quiet
           (base_store (d1_with 30 rome 0 [])) PNone zones1 zone0 "light"
           rome rome (PStr "X") [] (PStr "d1") "drone:d1"
           (d1_with 30 rome 0 []) PNone 30);
    try reflexivity.
  apply Qle_refl.
Defined.

(** ** A round of the autoscaler *)

(** Three light drones and no backlog: [d1] is bound to a delivery, [d2]
    and [d3] are free, all three are marked idle; the target for light is
    two. *)
Definition bound_to (delivery : string) (d : pyval) : pyval :=
  dict_set d "current_delivery" (PStr delivery).

Definition fleet : store :=
  <["drones_index" := PList [PStr "d1"; PStr "d2"; PStr "d3"]]>
    (<["drone:d1" := bound_to "X" (drone_doc "d1" "light" "idle" 80 rome 0 [])]>
       (<["drone:d2" := drone_doc "d2" "light" "idle" 80 rome 0 []]>
          (<["drone:d3" := drone_doc "d3" "light" "idle" 80 rome 0 []]> ∅))).

Definition retired (t : trace dcall) : list string :=
  flat_map (fun e => match cas_of e with
                     | Some (k, _, new) =>
                         match dict_get new "status" with
                         | Ok (PStr "retiring") => [k]
                         | _ => []
                         end
                     | None => []
                     end) t.

Lemma autoscale_retires_only_safe_witness :
  let t := events (run quiet (autoscale_by_type default_config) PNone fleet) in
  let d2 := drone_doc "d2" "light" "idle" 80 rome 0 [] in
  retired t = ["drone:d2"]
  ∧ retire_justified t 9 "drone:d2" d2 (dict_set d2 "status" (PStr "retiring")).
Proof.
  split; [reflexivity|].
  apply (autoscale_retires_only_safe default_config quiet fleet PNone 9
           (Ev (KvCas "drone:d2" (drone_doc "d2" "light" "idle" 80 rome 0 [])
                  (dict_set (drone_doc "d2" "light" "idle" 80 rome 0 [])
                            "status" (PStr "retiring"))) true));
    reflexivity.
Defined.

(** ** The transitions of a drone *)

(** Whether the event is a CAS the store accepted. *)
Definition accepted (e : event dcall) : bool :=
  match e with
  | Ev c r => match c in dcall R return R → bool with
              | KvCas _ _ _ => fun r => r
              | _ => fun _ => false
              end r
  end.

Definition is_cas (e : event dcall) : bool :=
  match cas_of e with
  | Some _ => true
  | None => false
  end.

Definition cas_count (t : trace dcall) : nat := length (List.filter is_cas t).

(** Every CAS of the trace is one [J] allows, on a document that an
    earlier call of the trace read under the same key. *)
Definition cas_all (J : string → pyval → pyval → Prop) (t : trace dcall)
  : Prop :=
  ∀ i e k old new,
    t !! i = Some e → cas_of e = Some (k, old, new) →
    J k old new ∧ seen_before t i k old.

(** No CAS of the trace was accepted. *)
Definition none_accepted (t : trace dcall) : Prop :=
  Forall (fun e => accepted e = false) t.

Lemma cas_all_nil (J : string → pyval → pyval → Prop) : cas_all J [].
Proof. intros i e k old new Hi. by destruct i. Qed.

Lemma cas_all_app (J : string → pyval → pyval → Prop) (t t' : trace dcall) :
  cas_all J t → Forall (fun e => cas_of e = None) t' → cas_all J (t ++ t').
Proof.
  intros Ht Hq i e k old new Hi Hcas.
  apply lookup_app_Some in Hi as [Hi|[_ Hi]].
  - destruct (Ht i e k old new Hi Hcas) as [HJ Hs].
    split; [done|]. by apply seen_before_app.
  - eapply Forall_lookup_1 in Hq; [|exact Hi]. by rewrite Hq in Hcas.
Qed.

Lemma cas_all_snoc (J : string → pyval → pyval → Prop) (t : trace dcall)
    (e : event dcall) :
  cas_all J t → cas_of e = None → cas_all J (t ++ [e]).
Proof. intros Ht He. apply cas_all_app; [done|]. by repeat constructor. Qed.

Lemma cas_all_cas (J : string → pyval → pyval → Prop) (t : trace dcall)
    (k : string) (old new : pyval) (b : bool) :
  cas_all J t → J k old new → seen t k old →
  cas_all J (t ++ [Ev (KvCas k old new) b]).
Proof.
  intros Ht HJ Hs i e k' old' new' Hi Hcas.
  apply lookup_app_Some in Hi as [Hi|[Hlen Hi]].
  - destruct (Ht i e k' old' new' Hi Hcas) as [HJ' Hs'].
    split; [done|]. by apply seen_before_app.
  - destruct (i - length t)%nat as [|n] eqn:En; [|done].
    simpl in Hi. injection Hi as <-. simpl in Hcas. injection Hcas as <- <- <-.
    assert (i = length t) as -> by lia.
    split; [done|]. by apply seen_before_app.
Qed.

Lemma cas_all_mono (J J' : string → pyval → pyval → Prop) (t : trace dcall) :
  (∀ k old new, J k old new → J' k old new) → cas_all J t → cas_all J' t.
Proof.
  intros HJ Ht i e k old new Hi Hcas.
  destruct (Ht i e k old new Hi Hcas). split; [by apply HJ|done].
Qed.

Lemma cas_count_concat (t t' : trace dcall) :
  cas_count (t ++ t') = (cas_count t + cas_count t')%nat.
Proof. unfold cas_count. by rewrite List.filter_app, length_app. Qed.

Lemma none_accepted_snoc (t : trace dcall) (e : event dcall) :
  none_accepted t → accepted e = false → none_accepted (t ++ [e]).
Proof. intros Ht He. apply Forall_app. split; [done|]. by repeat constructor. Qed.

(** The CAS [set_drone_busy_if_idle] sends: on the drone's key, from a
    document that is idle and bound to no delivery, to the same document
    busy on [delivery_id]. *)
Definition claims (key : string) (delivery_id : pyval) (k : string)
    (old new : pyval) : Prop :=
  k = key
  ∧ dict_get old "status" = Ok (PStr "idle")
  ∧ dict_get old "current_delivery" = Ok PNone
  ∧ new = dict_set (dict_set old "status" (PStr "busy"))
                   "current_delivery" delivery_id.

(** The CAS [set_drone_idle_if_busy] sends: on the drone's key, from a
    document that is busy on [expected_delivery], to the same document
    idle and bound to no delivery. *)
Definition frees (key : string) (expected_delivery : pyval) (k : string)
    (old new : pyval) : Prop :=
  k = key
  ∧ dict_get old "status" = Ok (PStr "busy")
  ∧ (∃ cd, dict_get old "current_delivery" = Ok cd
           ∧ py_eqb cd expected_delivery = true)
  ∧ new = dict_set (dict_set old "status" (PStr "idle"))
                   "current_delivery" PNone.

(** What a retry loop that ends on its first accepted CAS leaves: at most
    [bound] CAS, all of them [J]; an accepted CAS is the last call made
    and the answer is then [True]. *)
Definition retried (J : string → pyval → pyval → Prop) (bound : nat)
    (r : res bool) (t : trace dcall) : Prop :=
  cas_all J t
  ∧ (cas_count t ≤ bound)%nat
  ∧ ∀ i e, t !! i = Some e → accepted e = true →
           r = Ok true ∧ S i = length t.

Lemma py_eqb_str (v : pyval) (s : string) :
  py_eqb v (PStr s) = true → v = PStr s.
Proof.
  destruct v; try done. simpl. intros H. apply String.eqb_eq in H. by subst.
Qed.

(** Every CAS of the trace is one [J] allows. *)
Definition cas_each (J : string → pyval → pyval → Prop) (t : trace dcall)
  : Prop :=
  ∀ i e k old new,
    t !! i = Some e → cas_of e = Some (k, old, new) → J k old new.

Lemma cas_each_nil (J : string → pyval → pyval → Prop) : cas_each J [].
Proof. intros i e k old new Hi. by destruct i. Qed.

Lemma cas_each_app (J : string → pyval → pyval → Prop) (t t' : trace dcall) :
  cas_each J t → cas_each J t' → cas_each J (t ++ t').
Proof.
  intros Ht Ht' i e k old new Hi Hcas.
  apply lookup_app_Some in Hi as [Hi|[_ Hi]]; [by eapply Ht|by eapply Ht'].
Qed.

Lemma cas_each_snoc (J : string → pyval → pyval → Prop) (t : trace dcall)
    (e : event dcall) :
  cas_each J t → cas_of e = None → cas_each J (t ++ [e]).
Proof.
  intros Ht He. apply cas_each_app; [done|].
  intros [|i] e' k old new Hi Hcas; [|done].
  injection Hi as <-. by rewrite He in Hcas.
Qed.

Lemma cas_each_cas (J : string → pyval → pyval → Prop) (t : trace dcall)
    (k : string) (old new : pyval) (b : bool) :
  cas_each J t → J k old new → cas_each J (t ++ [Ev (KvCas k old new) b]).
Proof.
  intros Ht HJ. apply cas_each_app; [done|].
  intros [|i] e' k' old' new' Hi Hcas; [|done].
  injection Hi as <-. simpl in Hcas. by injection Hcas as <- <- <-.
Qed.

Lemma cas_each_mono (J J' : string → pyval → pyval → Prop) (t : trace dcall) :
  (∀ k old new, J k old new → J' k old new) → cas_each J t → cas_each J' t.
Proof. intros HJ Ht i e k old new Hi Hcas. apply HJ. by eapply Ht. Qed.

Lemma cas_all_each (J : string → pyval → pyval → Prop) (t : trace dcall) :
  cas_all J t → cas_each J t.
Proof. intros Ht i e k old new Hi Hcas. by destruct (Ht i e k old new Hi Hcas). Qed.

(** A program started after the calls [t0] makes the calls it makes when
    started with none made. *)
Lemma wp_shift {A : Type} (p : dprog A) :
  ∀ (Q : post dcall pyval A) (s : pyval) (t0 t : trace dcall),
    wp p Q s t →
    wp p (fun r s' t' => ∃ t'', t' = t0 ++ t'' ∧ Q r s' t'') s (t0 ++ t).
Proof.
  induction p as [a|e|k IH|s' k IH|R c k IH]; intros Q s t0 t Hwp; simpl in *.
  - by exists t.
  - by exists t.
  - by apply IH.
  - by apply IH.
  - intros r. rewrite <- app_assoc. by apply IH.
Qed.

Lemma wp_each_from_nil {A : Type} (p : dprog A)
    (J : string → pyval → pyval → Prop) (s : pyval) (t : trace dcall) :
  wp p (always (cas_each J)) s [] → cas_each J t →
  wp p (always (cas_each J)) s t.
Proof.
  intros Hwp Ht. apply (wp_shift p _ s t []) in Hwp. rewrite app_nil_r in Hwp.
  eapply wp_mono; [|exact Hwp].
  intros r s' t' (t'' & -> & H''). by apply cas_each_app.
Qed.

(** Every CAS of the trace is one that [P] allows at its place in the
    trace; [P] is [stable] when more calls do not undo it. *)
Definition cas_every (P : trace dcall → nat → string → pyval → pyval → Prop)
    (t : trace dcall) : Prop :=
  ∀ i e k old new,
    t !! i = Some e → cas_of e = Some (k, old, new) → P t i k old new.

Definition stable (P : trace dcall → nat → string → pyval → pyval → Prop)
  : Prop :=
  ∀ t t' i k old new, P t i k old new → P (t ++ t') i k old new.

Lemma cas_every_nil (P : trace dcall → nat → string → pyval → pyval → Prop) :
  cas_every P [].
Proof. intros i e k old new Hi. by destruct i. Qed.

Lemma cas_every_snoc (P : trace dcall → nat → string → pyval → pyval → Prop)
    (t : trace dcall) (e : event dcall) :
  stable P → cas_every P t → cas_of e = None → cas_every P (t ++ [e]).
Proof.
  intros Hst Ht He i e' k old new Hi Hcas.
  apply lookup_app_Some in Hi as [Hi|[_ Hi]].
  - apply Hst. by eapply Ht.
  - destruct (i - length t)%nat; [|done]. injection Hi as <-.
    by rewrite He in Hcas.
Qed.

Lemma cas_every_cas (P : trace dcall → nat → string → pyval → pyval → Prop)
    (t : trace dcall) (k : string) (old new : pyval) (b : bool) :
  stable P → cas_every P t →
  P (t ++ [Ev (KvCas k old new) b]) (length t) k old new →
  cas_every P (t ++ [Ev (KvCas k old new) b]).
Proof.
  intros Hst Ht HP i e k' old' new' Hi Hcas.
  apply lookup_app_Some in Hi as [Hi|[Hlen Hi]].
  - apply Hst. by eapply Ht.
  - destruct (i - length t)%nat as [|n] eqn:En; [|done].
    simpl in Hi. injection Hi as <-. simpl in Hcas. injection Hcas as <- <- <-.
    by assert (i = length t) as -> by lia.
Qed.

Lemma cas_every_app_each
    (P : trace dcall → nat → string → pyval → pyval → Prop)
    (J : string → pyval → pyval → Prop) (t t' : trace dcall) :
  stable P → cas_every P t → cas_each J t' →
  (∀ k old new i, J k old new → P (t ++ t') (length t + i)%nat k old new) →
  cas_every P (t ++ t').
Proof.
  intros Hst Ht Ht' HJ i e k old new Hi Hcas.
  apply lookup_app_Some in Hi as [Hi|[Hlen Hi]].
  - apply Hst. by eapply Ht.
  - replace i with (length t + (i - length t))%nat by lia.
    apply HJ. by eapply Ht'.
Qed.

Lemma wp_every_from_each {A : Type} (p : dprog A)
    (P : trace dcall → nat → string → pyval → pyval → Prop)
    (J : string → pyval → pyval → Prop) (s : pyval) (t : trace dcall) :
  stable P →
  (∀ t' k old new i,
     J k old new → P (t ++ t') (length t + i)%nat k old new) →
  wp p (always (cas_each J)) s [] → cas_every P t →
  wp p (always (cas_every P)) s t.
Proof.
  intros Hst HJ Hwp Ht.
  apply (wp_shift p _ s t []) in Hwp. rewrite app_nil_r in Hwp.
  eapply wp_mono; [|exact Hwp].
  intros r s' t' (t'' & -> & H''). eapply cas_every_app_each; try done.
  intros k old new i. apply HJ.
Qed.

Section Transitions.
Variable cfg : config.
Variable haversine_km : pyval → pyval → res Q.

(** Goes through a program up to its next CAS; [H] holds the invariant
    [cas_all] of the calls made so far, [N] that none was accepted. *)
Ltac quiet_steps H N :=
  repeat lazymatch goal with
  | |- wp (_ ≫= _) _ _ _ => apply wp_mbind
  | |- wp (kv_get _) _ _ _ => unfold kv_get
  | |- wp (lift ?r) _ _ _ =>
      apply wp_lift; let E := fresh "E" in destruct r eqn:E; cbn [then_wp]
  | |- wp (call ?c) _ _ ?t =>
      apply wp_call; let r := fresh "r" in intros r;
      cbn [then_wp];
      apply (cas_all_snoc _ t (Ev c r)) in H; [|done];
      apply (none_accepted_snoc t (Ev c r)) in N; [|done]
  | |- wp (mret _) _ _ _ => apply wp_mret; cbn [then_wp]
  | |- wp (if ?b then _ else _) _ _ _ =>
      let E := fresh "E" in destruct b eqn:E; cbn [negb]
  | |- wp (Ret _) _ _ _ => cbn [wp then_wp]
  | |- then_wp _ _ _ _ _ => cbn [then_wp]
  end.

Lemma retried_quiet (J : string → pyval → pyval → Prop) (bound : nat)
    (r : res bool) (t : trace dcall) :
  cas_all J t → none_accepted t → (cas_count t ≤ bound)%nat →
  retried J bound r t.
Proof.
  intros H N Hc. split; [done|]. split; [done|].
  intros i e Hi He. eapply Forall_lookup_1 in N; [|exact Hi].
  simpl in N. by rewrite N in He.
Qed.

Lemma retried_accepted (J : string → pyval → pyval → Prop) (bound : nat)
    (t : trace dcall) (k : string) (old new : pyval) :
  cas_all J (t ++ [Ev (KvCas k old new) true]) → none_accepted t →
  (S (cas_count t) ≤ bound)%nat →
  retried J bound (Ok true) (t ++ [Ev (KvCas k old new) true]).
Proof.
  intros H N Hc. split; [done|]. split.
  - rewrite cas_count_concat. cbn. lia.
  - intros i e Hi He. split; [done|].
    apply lookup_app_Some in Hi as [Hi|[Hlen Hi]].
    + eapply Forall_lookup_1 in N; [|exact Hi]. simpl in N. by rewrite N in He.
    + rewrite length_app. cbn.
      destruct (i - length t)%nat as [|n] eqn:En; [lia|done].
Qed.

Lemma wp_set_drone_busy_if_idle_loop (key : string) (delivery_id : pyval)
    (bound : nat) :
  ∀ (n : nat) (s : pyval) (t : trace dcall),
    cas_all (claims key delivery_id) t → none_accepted t →
    (cas_count t + n ≤ bound)%nat →
    wp (set_drone_busy_if_idle_loop n key delivery_id)
       (fun r _ t' => retried (claims key delivery_id) bound r t'
                      ∧ (r = Ok true →
                         ∃ i e, t' !! i = Some e ∧ accepted e = true)) s t.
Proof.
  induction n as [|n IH]; intros s t H N Hc.
  - apply wp_mret. split; [|done]. apply retried_quiet; [done|done|lia].
  - cbn [set_drone_busy_if_idle_loop]. quiet_steps H N.
    all: try (split; [|done];
              apply retried_quiet; [done|done|rewrite cas_count_concat; cbn; lia]).
    match goal with
    | E : dict_copy _ = Ok _ |- _ => apply dict_copy_ok in E as [-> Hd]
    end.
    assert (Hcount : (cas_count (t ++ [Ev (KvGet key) (Ok a)]) + S n ≤ bound)%nat)
      by (rewrite cas_count_concat; cbn; lia).
    assert (HJ : claims key delivery_id key a
                   (dict_set (dict_set a "status" (PStr "busy"))
                             "current_delivery" delivery_id)).
    { apply orb_false_iff in E3 as [Est Ecd].
      apply negb_false_iff in Est, Ecd. apply py_eqb_str in Est. subst.
      repeat split; try done. by destruct a1. }
    apply wp_kv_cas.
    + cbn [then_wp]. quiet_steps H N. apply IH; [done|done|].
      rewrite cas_count_concat. cbn. lia.
    + intros [].
      * cbn [then_wp]. apply wp_mret. split.
        -- apply retried_accepted; [|done|lia].
           apply cas_all_cas; [done|done|apply seen_last].
        -- intros _. eexists _, _. split; [apply list_lookup_middle; done|done].
      * cbn [then_wp].
        pose proof (cas_all_cas _ _ key a _ false H HJ (seen_last _ _ _)) as H'.
        apply (none_accepted_snoc _ (Ev (KvCas key a
                 (dict_set (dict_set a "status" (PStr "busy"))
                           "current_delivery" delivery_id)) false)) in N; [|done].
        quiet_steps H' N. apply IH; [done|done|].
        rewrite !cas_count_concat in *. cbn in *. lia.
Qed.

Lemma wp_set_drone_idle_if_busy_loop (key : string) (expected_delivery : pyval)
    (bound : nat) :
  ∀ (n : nat) (s : pyval) (t : trace dcall),
    cas_all (frees key expected_delivery) t → none_accepted t →
    (cas_count t + n ≤ bound)%nat →
    wp (set_drone_idle_if_busy_loop n key expected_delivery)
       (fun r _ t' => retried (frees key expected_delivery) bound r t') s t.
Proof.
  induction n as [|n IH]; intros s t H N Hc.
  - apply wp_mret. apply retried_quiet; [done|done|lia].
  - cbn [set_drone_idle_if_busy_loop]. quiet_steps H N.
    all: try (apply retried_quiet; [done|done|rewrite cas_count_concat; cbn; lia]).
    match goal with
    | E : dict_copy _ = Ok _ |- _ => apply dict_copy_ok in E as [-> Hd]
    end.
    assert (Hcount : (cas_count (t ++ [Ev (KvGet key) (Ok a)]) + S n ≤ bound)%nat)
      by (rewrite cas_count_concat; cbn; lia).
    assert (HJ : frees key expected_delivery key a
                   (dict_set (dict_set a "status" (PStr "idle"))
                             "current_delivery" PNone)).
    { apply orb_false_iff in E3 as [Est Ecd].
      apply negb_false_iff in Est, Ecd. apply py_eqb_str in Est. subst.
      repeat split; try done. by exists a1. }
    apply wp_kv_cas.
    + cbn [then_wp]. quiet_steps H N. apply IH; [done|done|].
      rewrite cas_count_concat. cbn. lia.
    + intros [].
      * cbn [then_wp]. apply wp_mret.
        apply retried_accepted; [|done|lia].
        apply cas_all_cas; [done|done|apply seen_last].
      * cbn [then_wp].
        pose proof (cas_all_cas _ _ key a _ false H HJ (seen_last _ _ _)) as H'.
        apply (none_accepted_snoc _ (Ev (KvCas key a
                 (dict_set (dict_set a "status" (PStr "idle"))
                           "current_delivery" PNone)) false)) in N; [|done].
        quiet_steps H' N. apply IH; [done|done|].
        rewrite !cas_count_concat in *. cbn in *. lia.
Qed.

(** X14: [set_drone_busy_if_idle] sends at most 15 CAS, each on the
    drone's key, from a document it read that is idle and bound to no
    delivery, to that document with [status] busy and [current_delivery]
    set and nothing else changed.  An accepted CAS is its last call, and
    it answers [True] exactly when one was accepted. *)
Theorem set_drone_busy_if_idle_claims {W : Type} (h : handler dcall W) (w : W)
    (s : pyval) (drone_id delivery_id : pyval) (key : string) :
  keyed "drone:" drone_id = Ok key →
  let o := run h (set_drone_busy_if_idle drone_id delivery_id) s w in
  cas_all (claims key delivery_id) (events o)
  ∧ (cas_count (events o) ≤ 15)%nat
  ∧ (∀ i e, events o !! i = Some e → accepted e = true →
            result o = Ok true ∧ S i = length (events o))
  ∧ (result o = Ok true → ∃ i e, events o !! i = Some e ∧ accepted e = true).
Proof.
  intros Hk o.
  assert (Hwp : wp (set_drone_busy_if_idle drone_id delivery_id)
                  (fun r _ t' => retried (claims key delivery_id) 15 r t'
                                 ∧ (r = Ok true →
                                    ∃ i e, t' !! i = Some e ∧ accepted e = true))
                  s []).
  { unfold set_drone_busy_if_idle. rewrite Hk. apply wp_mbind, wp_lift.
    cbn [then_wp]. apply wp_set_drone_busy_if_idle_loop.
    - apply cas_all_nil.
    - constructor.
    - cbn. lia. }
  pose proof (wp_sound h _ _ s w [] Hwp) as [(H1 & H2 & H3) H4].
  cbn [app] in *. exact (conj H1 (conj H2 (conj H3 H4))).
Qed.

(** X15: [set_drone_idle_if_busy] sends at most 40 CAS, each on the
    drone's key, from a document it read that is busy on the expected
    delivery, to that document with [status] idle and no
    [current_delivery] and nothing else changed; an accepted CAS is its
    last call and the answer is then [True]. *)
Theorem set_drone_idle_if_busy_frees {W : Type} (h : handler dcall W) (w : W)
    (s : pyval) (drone_id expected_delivery : pyval) (key : string) :
  keyed "drone:" drone_id = Ok key →
  let o := run h (set_drone_idle_if_busy drone_id expected_delivery) s w in
  cas_all (frees key expected_delivery) (events o)
  ∧ (cas_count (events o) ≤ 40)%nat
  ∧ (∀ i e, events o !! i = Some e → accepted e = true →
            result o = Ok true ∧ S i = length (events o)).
Proof.
  intros Hk o.
  assert (Hwp : wp (set_drone_idle_if_busy drone_id expected_delivery)
                  (fun r _ t' => retried (frees key expected_delivery) 40 r t')
                  s []).
  { unfold set_drone_idle_if_busy. rewrite Hk. apply wp_mbind, wp_lift.
    cbn [then_wp]. apply wp_set_drone_idle_if_busy_loop.
    - apply cas_all_nil.
    - constructor.
    - cbn. lia. }
  pose proof (wp_sound h _ _ s w [] Hwp) as (H1 & H2 & H3).
  cbn [app] in *. exact (conj H1 (conj H2 H3)).
Qed.

(** *** govern_charging_and_retiring *)

(** [bool(d.get("at_charge")) and d.get("battery", 0.0) >= FULL_AFTER] *)
Definition charged (d : pyval) : res bool :=
  ac ← dict_get d "at_charge";
  if truthy ac then
    b ← dict_get_or d "battery" (PNum 0);
    py_ge b (PNum (FULL_AFTER cfg))
  else Ok false.

(** [for _ in range(5)]: the CAS with a short retry that takes a drone
    out of the status [from_] once it is charged.  The source has the
    loop twice, for charging -> idle and for retiring -> inactive; the
    result tells whether [changed] is incremented. *)
Fixpoint settle (attempts : nat) (key : string) (from_ to_ : string)
  : dprog bool :=
  match attempts with
  | O => mret false
  | S n =>
      cur ← kv_get key;
      if negb (truthy cur) then mret false else
      st ← lift (dict_get cur "status");
      if negb (py_eqb st (PStr from_)) then mret false else
      c ← lift (charged cur);
      if negb c then mret false else
      new_doc ← lift (dict_copy cur);
      ok ← kv_cas key cur (dict_set new_doc "status" (PStr to_));
      if (ok : bool) then mret true else
      _ ← call (Sleep (1 # 100));
      settle n key from_ to_
  end.

(** The body of [for did in ids]; the accumulator is [changed]. *)
Definition govern_step (changed : Z) (did : pyval) : dprog Z :=
  key ← lift (keyed "drone:" did);
  d ← kv_get key;
  if negb (truthy d) then mret changed else
  st ← lift (dict_get d "status");
  if py_eqb st (PStr "charging") then
    c ← lift (charged d);
    if (c : bool) then
      ok ← settle 5 key "charging" "idle";
      mret (if (ok : bool) then changed + 1 else changed)
    else mret changed
  else if py_eqb st (PStr "retiring") then
    c ← lift (charged d);
    if (c : bool) then
      ok ← settle 5 key "retiring" "inactive";
      mret (if (ok : bool) then changed + 1 else changed)
    else mret changed
  else if py_eqb st (PStr "idle") then
    low ← lift (dict_get_or d "battery" (PNum 0)
                ≫= (fun b => py_le b (PNum (CRITICAL_BATTERY cfg))));
    if (low : bool) then
      d_new ← lift (dict_copy d);
      _ ← kv_cas key d (dict_set d_new "status" (PStr "charging"));
      mret (changed + 1)
    else mret changed
  else mret changed.

Definition govern_charging_and_retiring : dprog unit :=
  ids ← kv_get "drones_index";
  ids ← lift (py_iter (py_or ids (PList [])));
  _ ← foldM govern_step ids 0;
  mret tt.

(** The three transitions of [govern_charging_and_retiring]: a drone
    that is at its charge point with the battery at [FULL_AFTER] or more
    goes from charging to idle or from retiring to inactive; an idle
    drone with the battery at [CRITICAL_BATTERY] or less goes to
    charging.  In each, [status] alone changes. *)
Definition governs (k : string) (old new : pyval) : Prop :=
  (∃ did, keyed "drone:" did = Ok k)
  ∧ ((dict_get old "status" = Ok (PStr "charging")
      ∧ charged old = Ok true
      ∧ new = dict_set old "status" (PStr "idle"))
     ∨ (dict_get old "status" = Ok (PStr "retiring")
        ∧ charged old = Ok true
        ∧ new = dict_set old "status" (PStr "inactive"))
     ∨ (dict_get old "status" = Ok (PStr "idle")
        ∧ (dict_get_or old "battery" (PNum 0)
           ≫= (fun b => py_le b (PNum (CRITICAL_BATTERY cfg)))) = Ok true
        ∧ new = dict_set old "status" (PStr "charging"))).

(** Goes through a program up to its next CAS; [H] holds the invariant
    [cas_all] of the calls made so far. *)
Ltac cas_steps H :=
  repeat lazymatch goal with
  | |- wp (_ ≫= _) _ _ _ => apply wp_mbind
  | |- wp (kv_get _) _ _ _ => unfold kv_get
  | |- wp (lift ?r) _ _ _ =>
      apply wp_lift; let E := fresh "E" in destruct r eqn:E; cbn [then_wp]
  | |- wp (call ?c) _ _ ?t =>
      apply wp_call; let r := fresh "r" in intros r;
      cbn [then_wp];
      apply (cas_all_snoc _ t (Ev c r)) in H; [|done]
  | |- wp (mret _) _ _ _ => apply wp_mret; cbn [then_wp]
  | |- wp (if ?b then _ else _) _ _ _ =>
      let E := fresh "E" in destruct b eqn:E; cbn [negb]
  | |- wp (Ret _) _ _ _ => cbn [wp then_wp]
  | |- then_wp _ _ _ _ _ => cbn [then_wp]
  | |- always _ _ _ _ => unfold always
  end.

Lemma wp_settle (did : pyval) (key : string) (from_ to_ : string) :
  keyed "drone:" did = Ok key →
  (∀ old, dict_get old "status" = Ok (PStr from_) → charged old = Ok true →
          governs key old (dict_set old "status" (PStr to_))) →
  ∀ (n : nat) (s : pyval) (t : trace dcall),
    cas_all governs t →
    wp (settle n key from_ to_) (always (cas_all governs)) s t.
Proof.
  intros Hk HJ. induction n as [|n IH]; intros s t H.
  - by apply wp_mret.
  - cbn [settle]. cas_steps H.
    all: try exact H.
    match goal with
    | E : dict_copy _ = Ok _ |- _ => apply dict_copy_ok in E as [-> Hd]
    end.
    match goal with
    | E : negb (py_eqb _ _) = false |- _ =>
        apply negb_false_iff, py_eqb_str in E; subst
    end.
    match goal with
    | E : negb ?c = false, E' : charged _ = Ok ?c |- _ =>
        apply negb_false_iff in E; subst
    end.
    assert (HJa : governs key a (dict_set a "status" (PStr to_)))
      by by apply HJ.
    apply wp_kv_cas.
    + cbn [then_wp]. cas_steps H. by apply IH.
    + intros b.
      pose proof (cas_all_cas _ _ key a _ b H HJa (seen_last _ _ _)) as H'.
      cbn [then_wp]. destruct b; cas_steps H'; [exact H'|by apply IH].
Qed.

Lemma wp_govern_step (changed : Z) (did : pyval) (s : pyval) (t : trace dcall) :
  cas_all governs t →
  wp (govern_step changed did) (always (cas_all governs)) s t.
Proof.
  intros H. unfold govern_step. cas_steps H.
  all: try exact H.
  - match goal with
    | E : py_eqb _ (PStr "charging") = true |- _ => apply py_eqb_str in E; subst
    end.
    eapply wp_mono; [|apply (wp_settle did a); try done].
    + intros [ok|e] s' t' H'; cbn [then_wp]; [|exact H']. by apply wp_mret.
    + intros old Hst Hc. split; [by exists did|]. left. done.
  - match goal with
    | E : py_eqb _ (PStr "retiring") = true |- _ => apply py_eqb_str in E; subst
    end.
    eapply wp_mono; [|apply (wp_settle did a); try done].
    + intros [ok|e] s' t' H'; cbn [then_wp]; [|exact H']. by apply wp_mret.
    + intros old Hst Hc. split; [by exists did|]. right. left. done.
  - match goal with
    | E : dict_copy _ = Ok _ |- _ => apply dict_copy_ok in E as [-> Hd]
    end.
    match goal with
    | E : py_eqb _ (PStr "idle") = true |- _ => apply py_eqb_str in E; subst
    end.
    apply wp_kv_cas; [by cas_steps H|].
    intros b. cbn [then_wp]. apply wp_mret.
    apply cas_all_cas; [done| |apply seen_last].
    split; [by exists did|]. right. right. done.
Qed.

(** X16: every CAS of a round of [govern_charging_and_retiring] is on
    the key of a drone, expects a document read earlier in the round,
    and is one of the three transitions of [governs]; so the round never
    writes to a busy drone and never changes a field other than
    [status]. *)
Theorem govern_charging_and_retiring_transitions {W : Type}
    (h : handler dcall W) (w : W) (s : pyval) :
  let t := events (run h govern_charging_and_retiring s w) in
  ∀ i e k old new,
    t !! i = Some e → cas_of e = Some (k, old, new) →
    governs k old new
    ∧ seen_before t i k old
    ∧ dict_get old "status" ≠ Ok (PStr "busy")
    ∧ ∀ f, f ≠ "status" → dict_get new f = dict_get old f.
Proof.
  intros t i e k old new Hi Hcas.
  assert (Hwp : wp govern_charging_and_retiring (always (cas_all governs)) s []).
  { pose proof (cas_all_nil governs) as H.
    unfold govern_charging_and_retiring. cas_steps H.
    all: try exact H.
    apply (wp_foldM _ (fun _ _ t => cas_all governs t)); [done| |].
    - intros acc s' t' did _ H'.
      eapply wp_mono; [|by apply wp_govern_step]. by intros [?|?].
    - intros acc s' t' H'. by apply wp_mret. }
  pose proof (wp_sound h _ _ s w [] Hwp) as Hall.
  unfold always in Hall. cbn [app] in Hall. fold t in Hall.
  destruct (Hall i e k old new Hi Hcas) as [HJ Hs].
  split; [done|]. split; [done|].
  destruct HJ as (_ & [(Hst & _ & ->)|[(Hst & _ & ->)|(Hst & _ & ->)]]).
  all: split; [by rewrite Hst|].
  all: intros f Hf; rewrite dict_get_set by (by eapply dict_get_is_dict).
  all: by rewrite (proj2 (String.eqb_neq f "status") Hf).
Qed.

Lemma wp_set_drone_idle_if_busy_each (drone_id expected_delivery : pyval)
    (s : pyval) :
  wp (set_drone_idle_if_busy drone_id expected_delivery)
     (always (cas_each (fun k old new =>
        ∃ key, keyed "drone:" drone_id = Ok key
               ∧ frees key expected_delivery k old new))) s [].
Proof.
  unfold set_drone_idle_if_busy.
  destruct (keyed "drone:" drone_id) as [key|e] eqn:Hk;
    apply wp_mbind, wp_lift; cbn [then_wp]; [|apply cas_each_nil].
  eapply wp_mono; [|apply (wp_set_drone_idle_if_busy_loop key _ 40)].
  - intros r s' t' (H & _). eapply cas_each_mono; [|by apply cas_all_each].
    intros k old new HJ. by exists key.
  - apply cas_all_nil.
  - constructor.
  - cbn. lia.
Qed.

Lemma wp_set_drone_busy_if_idle_each (drone_id delivery_id : pyval)
    (s : pyval) :
  wp (set_drone_busy_if_idle drone_id delivery_id)
     (always (cas_each (fun k old new =>
        ∃ key, keyed "drone:" drone_id = Ok key
               ∧ claims key delivery_id k old new))) s [].
Proof.
  unfold set_drone_busy_if_idle.
  destruct (keyed "drone:" drone_id) as [key|e] eqn:Hk;
    apply wp_mbind, wp_lift; cbn [then_wp]; [|apply cas_each_nil].
  eapply wp_mono; [|apply (wp_set_drone_busy_if_idle_loop key _ 15)].
  - intros r s' t' ((H & _) & _). eapply cas_each_mono; [|by apply cas_all_each].
    intros k old new HJ. by exists key.
  - apply cas_all_nil.
  - constructor.
  - cbn. lia.
Qed.

(** *** advance_for_drone and advance_deliveries *)

(** Both functions end on the same lines, from [if st == "assigned"]
    on; [pos] is the position of the drone, [d] the delivery and [dkey]
    its key.  First the block of [if st == "assigned"], whose result is
    the new [d]. *)
Definition mark_in_flight (dkey : string) (st d : pyval) : dprog pyval :=
  if py_eqb st (PStr "assigned") then
    d_new ← lift (dict_copy d);
    let d_new := dict_set d_new "status" (PStr "in_flight") in
    _ ← kv_cas dkey d d_new;
    mret d_new
  else mret d.

(** Then the lines from [leg = (d.get("leg") or "to_origin")] on. *)
Definition advance_leg (status_channel : bool) (dkey : string)
    (did drone_id pos d : pyval) : dprog unit :=
  leg ← lift (dict_get d "leg");
  if py_eqb (py_or leg (PStr "to_origin")) (PStr "to_origin") then
    origin ← lift (subscript d "origin");
    km ← lift (haversine_km pos origin);
    if Qle_bool km (ARRIVE_EPS_KM cfg) then
      d_new ← lift (dict_copy d);
      _ ← kv_cas dkey d (dict_set d_new "leg" (PStr "to_destination"));
      mret tt
    else mret tt
  else
    destination ← lift (subscript d "destination");
    km ← lift (haversine_km pos destination);
    if Qle_bool km (ARRIVE_EPS_KM cfg) then
      d_new ← lift (dict_copy d);
      _ ← kv_cas dkey d (dict_set (dict_set d_new "status" (PStr "delivered"))
                                  "leg" PNone);
      _ ← set_drone_idle_if_busy drone_id did;
      if status_channel then
        publish_delivery_status cfg
          (PDict [("type", PStr "delivery_completed");
                  ("delivery_id", did); ("drone_id", drone_id)])
      else mret tt
    else mret tt.

Definition advance (status_channel : bool) (dkey : string)
    (did drone_id st pos d : pyval) : dprog unit :=
  d ← mark_in_flight dkey st d;
  advance_leg status_channel dkey did drone_id pos d.

Definition advance_for_drone (status_channel : bool) (drone_id : pyval)
  : dprog unit :=
  skey ← lift (keyed "drone:" drone_id);
  s ← kv_get skey;
  if negb (truthy s) then mret tt else
  did ← lift (dict_get s "current_delivery");
  if negb (truthy did) then mret tt else
  dkey ← lift (keyed "delivery:" did);
  d ← kv_get dkey;
  if negb (truthy d) then mret tt else
  st ← lift (dict_get d "status");
  if negb (py_eqb st (PStr "assigned") || py_eqb st (PStr "in_flight"))
  then mret tt else
  pos ← lift (dict_get s "pos");
  if negb (truthy pos) then mret tt else
  advance status_channel dkey did drone_id st pos d.

(** The body of [for did in ids] in [advance_deliveries]; [progressed]
    is only printed and is left out. *)
Definition advance_delivery (status_channel : bool) (did : pyval)
  : dprog unit :=
  dkey ← lift (keyed "delivery:" did);
  d ← kv_get dkey;
  if negb (truthy d) then mret tt else
  st ← lift (dict_get d "status");
  if negb (py_eqb st (PStr "assigned") || py_eqb st (PStr "in_flight"))
  then mret tt else
  drone_id ← lift (dict_get d "drone_id");
  if negb (truthy drone_id) then mret tt else
  skey ← lift (keyed "drone:" drone_id);
  s ← kv_get skey;
  if negb (truthy s) then mret tt else
  pos ← lift (dict_get s "pos");
  if negb (truthy pos) then mret tt else
  advance status_channel dkey did drone_id st pos d.

Definition advance_deliveries (status_channel : bool) : dprog unit :=
  ids ← kv_get "deliveries_index";
  ids ← lift (py_iter (py_or ids (PList [])));
  foldM (fun _ did => advance_delivery status_channel did) ids tt.

(** The drone whose document, read earlier in the trace, puts it within
    [ARRIVE_EPS_KM] of the point [field] of the delivery [d]. *)
Definition arrived (t : trace dcall) (i : nat) (d : pyval) (field : string)
  : Prop :=
  ∃ skey s pos target km,
    seen_before t i skey s
    ∧ dict_get s "pos" = Ok pos
    ∧ subscript d field = Ok target
    ∧ haversine_km pos target = Ok km
    ∧ (km <= ARRIVE_EPS_KM cfg)%Q.

(** The steps of a delivery: assigned to in flight; in flight on the leg
    to the origin to the leg to the destination, the drone being at the
    origin; in flight on the other leg to delivered, the drone being at
    the destination. *)
Definition advances (t : trace dcall) (i : nat) (k : string)
    (old new : pyval) : Prop :=
  (∃ did, keyed "delivery:" did = Ok k)
  ∧ ((dict_get old "status" = Ok (PStr "assigned")
      ∧ new = dict_set old "status" (PStr "in_flight"))
     ∨ (dict_get old "status" = Ok (PStr "in_flight")
        ∧ (dict_get old "leg" ≫= (fun leg =>
             Ok (py_eqb (py_or leg (PStr "to_origin")) (PStr "to_origin"))))
          = Ok true
        ∧ arrived t i old "origin"
        ∧ new = dict_set old "leg" (PStr "to_destination"))
     ∨ (dict_get old "status" = Ok (PStr "in_flight")
        ∧ (dict_get old "leg" ≫= (fun leg =>
             Ok (py_eqb (py_or leg (PStr "to_origin")) (PStr "to_origin"))))
          = Ok false
        ∧ arrived t i old "destination"
        ∧ new = dict_set (dict_set old "status" (PStr "delivered"))
                         "leg" PNone)).

(** A CAS of the advancing code: a step of a delivery, or the release of
    a drone that is busy on the delivery. *)
Definition advances_or_frees (t : trace dcall) (i : nat) (k : string)
    (old new : pyval) : Prop :=
  advances t i k old new
  ∨ ∃ key expected_delivery, frees key expected_delivery k old new.

Lemma arrived_stable (t t' : trace dcall) (i : nat) (d : pyval)
    (field : string) :
  arrived t i d field → arrived (t ++ t') i d field.
Proof.
  intros (skey & s & pos & tg & km & Hs & ?). exists skey, s, pos, tg, km.
  split; [by apply seen_before_app|done].
Qed.

Lemma advances_or_frees_stable : stable advances_or_frees.
Proof.
  intros t t' i k old new [(Hk & H)|H]; [left|by right].
  split; [done|].
  destruct H as [H|[(? & ? & Ha & ?)|(? & ? & Ha & ?)]]; [by left| |].
  - right. left. repeat split; try done. by apply arrived_stable.
  - right. right. repeat split; try done. by apply arrived_stable.
Qed.

(** Goes through a program up to its next CAS; [H] holds [cas_every] of
    the calls made so far, [Hst] that the condition is stable. *)
Ltac every_steps Hst H :=
  repeat lazymatch goal with
  | |- wp (_ ≫= _) _ _ _ => apply wp_mbind
  | |- wp (kv_get _) _ _ _ => unfold kv_get
  | |- wp (lift ?r) _ _ _ =>
      apply wp_lift; let E := fresh "E" in destruct r eqn:E; cbn [then_wp]
  | |- wp (call ?c) _ _ ?t =>
      apply wp_call; let r := fresh "r" in intros r;
      cbn [then_wp];
      apply (cas_every_snoc _ t (Ev c r) Hst) in H; [|done]
  | |- wp (mret _) _ _ _ => apply wp_mret; cbn [then_wp]
  | |- wp (if ?b then _ else _) _ _ _ =>
      let E := fresh "E" in destruct b eqn:E; cbn [negb]
  | |- wp (Ret _) _ _ _ => cbn [wp then_wp]
  | |- then_wp _ _ _ _ _ => cbn [then_wp]
  | |- always _ _ _ _ => unfold always
  end.

Lemma wp_mark_in_flight (dkey : string) (st d : pyval) (s : pyval)
    (t : trace dcall) :
  (∃ did, keyed "delivery:" did = Ok dkey) →
  dict_get d "status" = Ok st →
  py_eqb st (PStr "assigned") || py_eqb st (PStr "in_flight") = true →
  cas_every advances_or_frees t →
  wp (mark_in_flight dkey st d)
     (fun r _ t' =>
        cas_every advances_or_frees t'
        ∧ (∃ t'', t' = t ++ t'')
        ∧ match r with
          | Ok d' => dict_get d' "status" = Ok (PStr "in_flight")
          | Err _ => True
          end) s t.
Proof.
  intros Hk Hst Hin H. pose proof advances_or_frees_stable as Hstab.
  unfold mark_in_flight.
  destruct (py_eqb st (PStr "assigned")) eqn:Ea.
  - apply py_eqb_str in Ea. subst st. every_steps Hstab H.
    2:{ split; [done|]. split; [|done]. exists []. by rewrite app_nil_r. }
    match goal with
    | E : dict_copy _ = Ok _ |- _ => apply dict_copy_ok in E as [-> Hd]
    end.
    assert (Hnew : dict_get (dict_set d "status" (PStr "in_flight")) "status"
                   = Ok (PStr "in_flight")) by by rewrite dict_get_set.
    apply wp_kv_cas.
    + cbn [then_wp]. apply wp_mret. split; [done|]. split; [|done].
      exists []. by rewrite app_nil_r.
    + intros b. cbn [then_wp]. apply wp_mret. split; [|split; [by eexists|done]].
      apply cas_every_cas; [done|done|]. left. split; [done|]. by left.
  - simpl in Hin. apply py_eqb_str in Hin. subst st. apply wp_mret.
    split; [done|]. split; [|done]. exists []. by rewrite app_nil_r.
Qed.

Lemma wp_advance_leg (status_channel : bool) (dkey skey : string)
    (did drone_id pos d sdoc : pyval) (s : pyval) (t : trace dcall) :
  (∃ did, keyed "delivery:" did = Ok dkey) →
  seen t skey sdoc → dict_get sdoc "pos" = Ok pos →
  dict_get d "status" = Ok (PStr "in_flight") →
  cas_every advances_or_frees t →
  wp (advance_leg status_channel dkey did drone_id pos d)
     (always (cas_every advances_or_frees)) s t.
Proof.
  intros Hk Hseen Hpos Hst H. pose proof advances_or_frees_stable as Hstab.
  unfold advance_leg. every_steps Hstab H.
  all: try exact H.
  - match goal with
    | E : dict_copy _ = Ok _ |- _ => apply dict_copy_ok in E as [-> Hd]
    end.
    apply wp_kv_cas; [by every_steps Hstab H|].
    intros b. cbn [then_wp]. apply wp_mret.
    apply cas_every_cas; [done|done|].
    left. split; [done|]. right. left.
    split; [done|]. split; [by rewrite E; cbn; rewrite E0|].
    split; [|done].
    eexists skey, sdoc, pos, _, _. split; [by apply seen_before_app|].
    repeat split; try done. by apply Qle_bool_iff.
  - match goal with
    | E : dict_copy _ = Ok _ |- _ => apply dict_copy_ok in E as [-> Hd]
    end.
    assert (Hfree : ∀ t0, cas_every advances_or_frees t0 →
              wp (_ ← set_drone_idle_if_busy drone_id did;
                  if status_channel then
                    publish_delivery_status cfg
                      (PDict [("type", PStr "delivery_completed");
                              ("delivery_id", did); ("drone_id", drone_id)])
                  else mret tt)
                 (always (cas_every advances_or_frees)) s t0).
    { intros t0 H0. apply wp_mbind.
      eapply wp_mono;
        [|apply (wp_every_from_each _ advances_or_frees
                   (fun k old new =>
                      ∃ key, keyed "drone:" drone_id = Ok key
                             ∧ frees key did k old new) s t0 Hstab);
          [|apply wp_set_drone_idle_if_busy_each|exact H0]].
      - intros r s' t' H'. unfold always in H'. destruct r; cbn [then_wp]; [|done].
        destruct status_channel; [|by apply wp_mret].
        unfold publish_delivery_status.
        destruct (json_serializable _); [|done]. every_steps Hstab H'.
        all: exact H'.
      - intros t1 k old new i (key & _ & HJ). right. by exists key, did. }
    apply wp_kv_cas; [cbn [then_wp]; by apply Hfree|].
    intros b. cbn [then_wp]. apply Hfree.
    apply cas_every_cas; [done|done|].
    left. split; [done|]. right. right.
    split; [done|]. split; [by rewrite E; cbn; rewrite E0|].
    split; [|done].
    eexists skey, sdoc, pos, _, _. split; [by apply seen_before_app|].
    repeat split; try done. by apply Qle_bool_iff.
Qed.

Lemma wp_advance (status_channel : bool) (dkey skey : string)
    (did drone_id st pos d sdoc : pyval) (s : pyval) (t : trace dcall) :
  (∃ did, keyed "delivery:" did = Ok dkey) →
  seen t skey sdoc → dict_get sdoc "pos" = Ok pos →
  dict_get d "status" = Ok st →
  py_eqb st (PStr "assigned") || py_eqb st (PStr "in_flight") = true →
  cas_every advances_or_frees t →
  wp (advance status_channel dkey did drone_id st pos d)
     (always (cas_every advances_or_frees)) s t.
Proof.
  intros Hk Hseen Hpos Hst Hin H. unfold advance. apply wp_mbind.
  eapply wp_mono; [|by apply wp_mark_in_flight].
  intros [d'|e] s' t' (H' & (t'' & ->) & Hd'); cbn [then_wp]; [|done].
  eapply wp_advance_leg; try done. by apply seen_app.
Qed.

Lemma wp_advance_for_drone (status_channel : bool) (drone_id : pyval)
    (s : pyval) (t : trace dcall) :
  cas_every advances_or_frees t →
  wp (advance_for_drone status_channel drone_id)
     (always (cas_every advances_or_frees)) s t.
Proof.
  intros H. pose proof advances_or_frees_stable as Hstab.
  unfold advance_for_drone. every_steps Hstab H.
  all: try exact H.
  match goal with
  | E : negb (_ || _) = false |- _ => apply negb_false_iff in E
  end.
  match goal with
  | Ek : keyed "delivery:" _ = Ok ?dk, Es : dict_get ?sd "pos" = Ok _,
    Ed : dict_get _ "status" = Ok _ |- _ =>
      eapply (wp_advance _ dk _ _ _ _ _ _ sd); try done; [by eexists|]
  end.
  apply seen_app, seen_last.
Qed.

Lemma wp_advance_delivery (status_channel : bool) (did : pyval)
    (s : pyval) (t : trace dcall) :
  cas_every advances_or_frees t →
  wp (advance_delivery status_channel did)
     (always (cas_every advances_or_frees)) s t.
Proof.
  intros H. pose proof advances_or_frees_stable as Hstab.
  unfold advance_delivery. every_steps Hstab H.
  all: try exact H.
  match goal with
  | E : negb (_ || _) = false |- _ => apply negb_false_iff in E
  end.
  match goal with
  | Ek : keyed "delivery:" _ = Ok ?dk, Es : dict_get ?sd "pos" = Ok _,
    Ed : dict_get _ "status" = Ok _ |- _ =>
      eapply (wp_advance _ dk _ _ _ _ _ _ sd); try done; [by eexists|]
  end.
  apply seen_last.
Qed.

(** X17: the advancing code moves a delivery forward only.  Every CAS
    of [advance_for_drone] and of a round of [advance_deliveries] is
    either the release of a drone that is busy on a delivery, or on the
    key of a delivery and one of: assigned to in flight; in flight, from
    the leg to the origin to the leg to the destination, sent when a
    drone document read earlier puts the drone within [ARRIVE_EPS_KM] of
    the origin; in flight on the other leg to delivered, sent when it
    puts the drone within [ARRIVE_EPS_KM] of the destination. *)
Theorem advance_moves_forward {W : Type} (h : handler dcall W) (w : W)
    (s : pyval) (status_channel : bool) (drone_id : pyval) :
  cas_every advances_or_frees
    (events (run h (advance_for_drone status_channel drone_id) s w))
  ∧ cas_every advances_or_frees
      (events (run h (advance_deliveries status_channel) s w)).
Proof.
  split.
  - apply (wp_sound h _ _ s w [] (wp_advance_for_drone _ _ s []
             (cas_every_nil _))).
  - assert (Hwp : wp (advance_deliveries status_channel)
                     (always (cas_every advances_or_frees)) s []).
    { pose proof (cas_every_nil advances_or_frees) as H.
      pose proof advances_or_frees_stable as Hstab.
      unfold advance_deliveries. every_steps Hstab H.
      all: try exact H.
      apply (wp_foldM _ (fun _ _ t => cas_every advances_or_frees t));
        [done| |done].
      intros [] s' t' did _ H'.
      eapply wp_mono; [|by apply wp_advance_delivery]. by intros [[]|?]. }
    apply (wp_sound h _ _ s w [] Hwp).
Qed.

(** *** reconcile_stuck_busy *)

(** The body of [for drone_id in didx]. *)
Definition reconcile_drone (drone_id : pyval) : dprog unit :=
  key ← lift (keyed "drone:" drone_id);
  dr ← kv_get key;
  if negb (truthy dr) then mret tt else
  st ← lift (dict_get dr "status");
  if negb (py_eqb st (PStr "busy")) then mret tt else
  cd ← lift (dict_get dr "current_delivery");
  if negb (truthy cd) then mret tt else
  did ← lift (subscript dr "current_delivery");
  dkey ← lift (keyed "delivery:" did);
  dd ← kv_get dkey;
  if negb (truthy dd) then mret tt else
  dst ← lift (dict_get dd "status");
  if negb (py_eqb dst (PStr "delivered")) then mret tt else
  _ ← set_drone_idle_if_busy drone_id did;
  mret tt.

Definition reconcile_stuck_busy : dprog unit :=
  didx ← kv_get "drones_index";
  didx ← lift (py_iter (py_or didx (PList [])));
  foldM (fun _ drone_id => reconcile_drone drone_id) didx tt.

(** A CAS of the reconciliation: the release of a drone that is busy on
    a delivery which an earlier read of the round showed delivered. *)
Definition reconciles (t : trace dcall) (i : nat) (k : string)
    (old new : pyval) : Prop :=
  ∃ drone_id did dkey dd,
    keyed "drone:" drone_id = Ok k
    ∧ frees k did k old new
    ∧ keyed "delivery:" did = Ok dkey
    ∧ seen_before t i dkey dd
    ∧ dict_get dd "status" = Ok (PStr "delivered").

Lemma reconciles_stable : stable reconciles.
Proof.
  intros t t' i k old new (drone_id & did & dkey & dd & ? & ? & ? & Hs & ?).
  exists drone_id, did, dkey, dd.
  split; [done|]. split; [done|]. split; [done|].
  split; [by apply seen_before_app|done].
Qed.

Lemma seen_seen_before (t t' : trace dcall) (i : nat) (k : string) (d : pyval) :
  seen t k d → seen_before (t ++ t') (length t + i) k d.
Proof.
  intros (j & e & Hj & Hl & Hg). exists j, e.
  split; [lia|]. split; [by apply lookup_app_l_Some|done].
Qed.

Lemma wp_reconcile_drone (drone_id : pyval) (s : pyval) (t : trace dcall) :
  cas_every reconciles t →
  wp (reconcile_drone drone_id) (always (cas_every reconciles)) s t.
Proof.
  intros H. pose proof reconciles_stable as Hstab.
  unfold reconcile_drone. every_steps Hstab H.
  all: try exact H.
  match goal with
  | E : negb (py_eqb _ (PStr "delivered")) = false |- _ =>
      apply negb_false_iff, py_eqb_str in E; subst
  end.
  match goal with
  | |- wp (set_drone_idle_if_busy _ ?did) _ _ ?t0 =>
      assert (Hfree : wp (set_drone_idle_if_busy drone_id did)
                         (always (cas_every reconciles)) s t0);
      [ apply (wp_every_from_each _ reconciles
                 (fun k old new =>
                    ∃ key, keyed "drone:" drone_id = Ok key
                           ∧ frees key did k old new) s _ Hstab);
        [ intros t1 k old new i (key & Hkey & HJ);
          pose proof HJ as (-> & _);
          eexists drone_id, _, _, _;
          (split; [done|]); (split; [exact HJ|]); (split; [eassumption|]);
          (split; [apply seen_seen_before, seen_last|eassumption])
        | apply wp_set_drone_idle_if_busy_each
        | exact H ]
      | ]
  end.
  eapply wp_mono; [|exact Hfree].
  intros [b|e] s' t' H'; cbn [then_wp]; [by apply wp_mret|done].
Qed.

(** X18: [reconcile_stuck_busy] releases a drone only when it read the
    delivery the drone is bound to as delivered: every CAS of a round is
    on the key of a drone, from a document that is busy on that delivery
    to the same document idle and bound to no delivery. *)
Theorem reconcile_stuck_busy_releases {W : Type} (h : handler dcall W) (w : W)
    (s : pyval) :
  cas_every reconciles (events (run h reconcile_stuck_busy s w)).
Proof.
  assert (Hwp : wp reconcile_stuck_busy (always (cas_every reconciles)) s []).
  { pose proof (cas_every_nil reconciles) as H.
    pose proof reconciles_stable as Hstab.
    unfold reconcile_stuck_busy. every_steps Hstab H.
    all: try exact H.
    apply (wp_foldM _ (fun _ _ t => cas_every reconciles t)); [done| |done].
    intros [] s' t' did _ H'.
    eapply wp_mono; [|by apply wp_reconcile_drone]. by intros [[]|?]. }
  apply (wp_sound h _ _ s w [] Hwp).
Qed.

(** *** assign_one *)

(** The CAS that binds a delivery to a drone: on the delivery's key,
    from a pending document to the same document assigned to the drone
    on the leg to the origin. *)
Definition assigns (dkey : string) (drone_id : pyval) (k : string)
    (old new : pyval) : Prop :=
  k = dkey
  ∧ dict_get old "status" = Ok (PStr "pending")
  ∧ new = dict_set (dict_set (dict_set old "status" (PStr "assigned"))
                             "drone_id" drone_id)
                   "leg" (PStr "to_origin").

(** A CAS of [assign_one]: the claim of a drone for the delivery, the
    assignment of the delivery, or the release of the drone when the
    assignment was refused. *)
Definition assign_cas (delivery_id : pyval) (k : string) (old new : pyval)
  : Prop :=
  ∃ key drone_id dkey,
    claims key delivery_id k old new
    ∨ (keyed "delivery:" delivery_id = Ok dkey ∧ assigns dkey drone_id k old new)
    ∨ frees key delivery_id k old new.

(** The calls made so far hold an accepted claim of a drone followed by
    an accepted assignment of the delivery. *)
Definition both_accepted (delivery_id : pyval) (t : trace dcall) : Prop :=
  ∃ i j e e' key old new dkey drone_id old' new',
    (i < j)%nat
    ∧ t !! i = Some e ∧ accepted e = true
    ∧ cas_of e = Some (key, old, new) ∧ claims key delivery_id key old new
    ∧ t !! j = Some e' ∧ accepted e' = true
    ∧ cas_of e' = Some (dkey, old', new')
    ∧ keyed "delivery:" delivery_id = Ok dkey
    ∧ assigns dkey drone_id dkey old' new'.


Lemma only_foldM {A X : Type} (ok : event dcall → Prop)
    (body : A → X → dprog A) (l : list X) :
  (∀ acc x, only ok (body acc x)) → ∀ acc, only ok (foldM body l acc).
Proof.
  intros Hb. induction l as [|x l IH]; intros acc; [done|].
  cbn [foldM]. apply (only_bind ok (body acc x)); [done|]. apply IH.
Qed.

Lemma only_kv_put (k : string) (v : pyval) : only reads_only (kv_put k v).
Proof. unfold kv_put. only_steps ltac:(done). Qed.

Lemma only_kv_get (k : string) : only reads_only (kv_get k).
Proof. unfold kv_get. only_steps ltac:(done). Qed.

Lemma only_get_zcfg : only reads_only get_zcfg.
Proof.
  unfold get_zcfg. intros z. destruct z; try done.
  apply (only_bind reads_only (kv_get "zones_config")); [apply only_kv_get|].
  by intros v.
Qed.

Lemma only_pick_drone_step (zcfg z_origin : pyval) (pclass : string)
    (origin destination delivery_id : pyval) (candidates : list candidate)
    (did : pyval) :
  only reads_only (pick_drone_step cfg haversine_km zcfg z_origin pclass origin
                destination delivery_id candidates did).
Proof.
  unfold pick_drone_step.
  repeat first
    [ apply only_mret
    | apply only_lift
    | apply only_kv_put
    | apply only_kv_get
    | apply only_bind; [|intros ?]
    | match goal with
      | |- only _ (if ?b then _ else _) => destruct b
      end ].
Qed.

Lemma only_pick_drone (origin destination weight delivery_id : pyval) :
  only reads_only (pick_drone cfg haversine_km origin destination weight delivery_id).
Proof.
  unfold pick_drone.
  apply only_bind; [apply only_get_zcfg|intros zcfg].
  apply only_bind; [apply only_lift|intros z].
  apply only_bind; [apply only_lift|intros pc].
  apply only_bind; [apply only_kv_get|intros ids].
  apply only_bind; [apply only_lift|intros ids'].
  apply only_bind; [|intros c; apply only_mret].
  apply only_foldM. intros acc x. apply only_pick_drone_step.
Qed.

Lemma only_assign_pick (delivery_id : pyval) (dkey : string) :
  only reads_only (assign_pick cfg haversine_km delivery_id dkey).
Proof.
  unfold assign_pick.
  repeat first
    [ apply only_mret
    | apply only_lift
    | apply only_kv_get
    | apply only_pick_drone
    | apply only_bind; [|intros ?]
    | match goal with
      | |- only _ (if ?b then _ else _) => destruct b
      end ].
Qed.

Lemma cas_each_reads_only (J : string → pyval → pyval → Prop) (t : trace dcall) :
  Forall reads_only t → cas_each J t.
Proof.
  intros Hq i e k old new Hi Hcas.
  eapply Forall_lookup_1 in Hq; [|exact Hi]. unfold reads_only in Hq.
  by rewrite Hq in Hcas.
Qed.

Lemma accepted_cas_of (e : event dcall) :
  accepted e = true → ∃ k old new, cas_of e = Some (k, old, new).
Proof. destruct e as [R c r]. destruct c; try done. intros _. by eexists _, _, _. Qed.

Lemma wp_conj {A : Type} (p : dprog A) (Q Q' : post dcall pyval A) :
  ∀ s t, wp p Q s t → wp p Q' s t →
         wp p (fun r s' t' => Q r s' t' ∧ Q' r s' t') s t.
Proof.
  induction p as [a|e|k IH|s' k IH|R c k IH]; intros s t H H'; simpl in *;
    eauto.
Qed.

Lemma wp_set_drone_busy_if_idle_accepts (drone_id delivery_id : pyval)
    (J : string → pyval → pyval → Prop) (s : pyval) (t : trace dcall) :
  (∀ key k old new, claims key delivery_id k old new → J k old new) →
  cas_each J t →
  wp (set_drone_busy_if_idle drone_id delivery_id)
     (fun r _ t' =>
        cas_each J t'
        ∧ (∃ t'', t' = t ++ t'')
        ∧ (r = Ok true →
           ∃ i e key old new,
             t' !! i = Some e ∧ accepted e = true
             ∧ cas_of e = Some (key, old, new)
             ∧ claims key delivery_id key old new)) s t.
Proof.
  intros HJ Ht.
  assert (H0 : wp (set_drone_busy_if_idle drone_id delivery_id)
                 (fun r _ t' =>
                    cas_each J t'
                    ∧ (r = Ok true →
                       ∃ i e key old new,
                         t' !! i = Some e ∧ accepted e = true
                         ∧ cas_of e = Some (key, old, new)
                         ∧ claims key delivery_id key old new)) s []).
  { unfold set_drone_busy_if_idle.
    destruct (keyed "drone:" drone_id) as [key|e] eqn:Hk;
      apply wp_mbind, wp_lift; cbn [then_wp]; [|split; [apply cas_each_nil|done]].
    eapply wp_mono; [|apply (wp_set_drone_busy_if_idle_loop key _ 15)].
    - intros r s' t' ((H & _) & Hacc). split.
      + eapply cas_each_mono; [|by apply cas_all_each]. apply HJ.
      + intros Hr. destruct (Hacc Hr) as (i & e & Hi & He).
        destruct (accepted_cas_of e He) as (k & old & new & Hc).
        destruct (H i e k old new Hi Hc) as [Hcl _].
        pose proof Hcl as (-> & _). by exists i, e, key, old, new.
    - apply cas_all_nil.
    - constructor.
    - cbn. lia. }
  apply (wp_shift _ _ s t []) in H0. rewrite app_nil_r in H0.
  eapply wp_mono; [|exact H0].
  intros r s' t' (t'' & -> & H'' & Hacc).
  split; [by apply cas_each_app|]. split; [by eexists|].
  intros Hr. destruct (Hacc Hr) as (i & e & key & old & new & Hi & ?).
  exists (length t + i)%nat, e, key, old, new. split; [|done].
  apply lookup_app_Some. right. split; [lia|].
  by replace (length t + i - length t)%nat with i by lia.
Qed.

Lemma wp_set_drone_idle_if_busy_within (drone_id delivery_id : pyval)
    (J : string → pyval → pyval → Prop) (s : pyval) (t : trace dcall) :
  (∀ key k old new, frees key delivery_id k old new → J k old new) →
  cas_each J t →
  wp (set_drone_idle_if_busy drone_id delivery_id) (always (cas_each J)) s t.
Proof.
  intros HJ Ht. apply wp_each_from_nil; [|done].
  eapply wp_mono; [|apply wp_set_drone_idle_if_busy_each].
  intros r s' t' H'. eapply cas_each_mono; [|exact H'].
  intros k old new (key & _ & Hf). by eapply HJ.
Qed.

(** Goes through a program up to its next CAS; [H] holds [cas_each] of
    the calls made so far. *)
Ltac each_steps H :=
  repeat lazymatch goal with
  | |- wp (_ ≫= _) _ _ _ => apply wp_mbind
  | |- wp (kv_get _) _ _ _ => unfold kv_get
  | |- wp (lock_acquire _ _) _ _ _ => unfold lock_acquire
  | |- wp (lock_release _) _ _ _ => unfold lock_release
  | |- wp (lift ?r) _ _ _ =>
      apply wp_lift; let E := fresh "E" in destruct r eqn:E; cbn [then_wp]
  | |- wp (call ?c) _ _ ?t =>
      apply wp_call; let r := fresh "r" in intros r;
      cbn [then_wp];
      apply (cas_each_snoc _ t (Ev c r)) in H; [|done]
  | |- wp (mret _) _ _ _ => apply wp_mret; cbn [then_wp]
  | |- wp (if ?b then _ else _) _ _ _ =>
      let E := fresh "E" in destruct b eqn:E; cbn [negb]
  | |- wp (Ret _) _ _ _ => cbn [wp then_wp]
  | |- then_wp _ _ _ _ _ => cbn [then_wp]
  | |- always _ _ _ _ => unfold always
  end.

Lemma wp_kv_put_each (k : string) (v : pyval)
    (J : string → pyval → pyval → Prop) (Q : post dcall pyval unit)
    (s : pyval) (t : trace dcall) :
  (∀ r t', cas_each J t' → Q r s t') → cas_each J t →
  wp (kv_put k v) Q s t.
Proof.
  intros HQ H. unfold kv_put. destruct (json_serializable v); [|by apply HQ].
  each_steps H; by apply HQ.
Qed.

Lemma wp_get_zcfg_each (J : string → pyval → pyval → Prop)
    (Q : post dcall pyval pyval) (s : pyval) (t : trace dcall) :
  (∀ r s' t', cas_each J t' → Q r s' t') → cas_each J t →
  wp get_zcfg Q s t.
Proof.
  intros HQ H. unfold get_zcfg. cbn [wp]. destruct s; try (by apply HQ).
  each_steps H; cbn [wp]; by apply HQ.
Qed.

Lemma wp_assign_claim (delivery_id : pyval) (dkey : string)
    (status_channel : bool) (ddoc origin destination drone_id : pyval)
    (k_dlock : string) (s : pyval) (t : trace dcall) :
  keyed "delivery:" delivery_id = Ok dkey →
  dict_get ddoc "status" = Ok (PStr "pending") →
  cas_each (assign_cas delivery_id) t →
  wp (assign_claim cfg haversine_km delivery_id dkey status_channel
        (ddoc, origin, destination, drone_id, k_dlock))
     (fun r _ t' => cas_each (assign_cas delivery_id) t'
                    ∧ (r = Ok true → both_accepted delivery_id t')) s t.
Proof.
  intros Hdk Hpend H. unfold assign_claim. each_steps H.
  all: try (split; [exact H|done]).
  apply (wp_get_zcfg_each (assign_cas delivery_id)); [|done]. clear H.
  intros [zcfg|e] s' t' H; cbn [then_wp]; [|by split].
  each_steps H.
  all: try (split; [exact H|done]).
  - apply wp_kv_put_each with (J := assign_cas delivery_id); [|done].
    intros [[]|e] t'' H''; cbn [then_wp]; [|by split].
    apply wp_mret. by split.
  - eapply wp_mono;
      [|apply (wp_set_drone_busy_if_idle_accepts _ _ (assign_cas delivery_id));
        [|exact H]].
    2:{ intros key k old new Hc. exists key, drone_id, dkey. by left. }
    clear H. intros [ok|e] s1 t1 (H & (t'' & ->) & Hacc); cbn [then_wp];
      [|by split].
    destruct ok; cbn [negb]; [|apply wp_mret; by split].
    destruct (Hacc eq_refl) as (i & e & key & old & new & Hi & He & Hc & Hcl).
    each_steps H.
    all: try (split; [exact H|done]).
    match goal with
    | E : dict_copy _ = Ok _ |- _ => apply dict_copy_ok in E as [-> Hd]
    end.
    assert (Hroll : ∀ t2, cas_each (assign_cas delivery_id) t2 →
              wp (_ ← set_drone_idle_if_busy drone_id delivery_id; mret false)
                 (fun r _ t' => cas_each (assign_cas delivery_id) t'
                                ∧ (r = Ok true → both_accepted delivery_id t'))
                 s1 t2).
    { intros t2 H2. apply wp_mbind.
      eapply wp_mono;
        [|apply (wp_set_drone_idle_if_busy_within _ _ (assign_cas delivery_id));
          [|exact H2]].
      - intros [b|e'] s2 t3 H3; cbn [then_wp]; [|by split].
        apply wp_mret. by split.
      - intros key' k old' new' Hf. exists key', drone_id, dkey. by right; right. }
    set (d_new := dict_set (dict_set (dict_set ddoc "status" (PStr "assigned"))
                                     "drone_id" drone_id)
                           "leg" (PStr "to_origin")).
    assert (HJ : assign_cas delivery_id dkey ddoc d_new).
    { exists key, drone_id, dkey. right. left. by repeat split. }
    apply wp_kv_cas.
    + cbn [then_wp negb]. by apply Hroll.
    + intros b. cbn [then_wp].
      pose proof (cas_each_cas _ _ dkey ddoc d_new b H HJ) as H'.
      destruct b; cbn [negb]; [|by apply Hroll].
      match type of H' with
      | cas_each _ (?tt ++ _) =>
          assert (Hboth : both_accepted delivery_id
                            (tt ++ [Ev (KvCas dkey ddoc d_new) true]));
            [exists i, (length tt), e, (Ev (KvCas dkey ddoc d_new) true),
               key, old, new, dkey, drone_id, ddoc, d_new;
             split; [exact (lookup_lt_Some _ _ _ Hi)|];
             split; [by apply lookup_app_l_Some|]; split; [done|];
             split; [done|]; split; [done|];
             split; [by apply list_lookup_middle|];
             by repeat split|]
      end.
      destruct status_channel.
      * apply wp_mbind. unfold publish_delivery_status.
        destruct (json_serializable _); [|by split].
        each_steps H'.
        all: try (split; [exact H'|done]).
        split; [exact H'|]. intros _.
        destruct Hboth as (i0 & j0 & e0 & e0' & k0 & o0 & n0 & dk0 & dr0 & o0'
                           & n0' & Hlt & Hi0 & Ha0 & Hc0 & Hcl0 & Hj0 & Hrest).
        exists i0, j0, e0, e0', k0, o0, n0, dk0, dr0, o0', n0'.
        split; [done|]. split; [by apply lookup_app_l_Some|].
        split; [done|]. split; [done|]. split; [done|].
        split; [by apply lookup_app_l_Some|]. done.
      * each_steps H'. by split.
Qed.

Lemma wp_assign_pick_pending (delivery_id : pyval) (dkey : string)
    (s : pyval) (t : trace dcall) :
  wp (assign_pick cfg haversine_km delivery_id dkey)
     (fun r _ _ =>
        (∀ b, r = Ok (inl b) → b = false)
        ∧ ∀ ddoc origin destination drone_id k_dlock,
            r = Ok (inr (ddoc, origin, destination, drone_id, k_dlock)) →
            dict_get ddoc "status" = Ok (PStr "pending")) s t.
Proof.
  unfold assign_pick, kv_get. apply wp_mbind, wp_mbind, wp_call. intros r.
  cbn [then_wp]. apply wp_lift. destruct r as [ddoc|e]; cbn [then_wp]; [|done].
  assert (Hno : ∀ s' t', wp (mret (inl false) : dprog (bool + picked))
            (fun r _ _ =>
               (∀ b, r = Ok (inl b) → b = false)
               ∧ ∀ ddoc origin destination drone_id k_dlock,
                   r = Ok (inr (ddoc, origin, destination, drone_id, k_dlock)) →
                   dict_get ddoc "status" = Ok (PStr "pending")) s' t').
  { intros s' t'. apply wp_mret. split; [by intros ? [= <-]|done]. }
  destruct (negb (truthy ddoc)); [by apply Hno|].
  apply wp_mbind, wp_lift.
  destruct (dict_get ddoc "status") as [st|e] eqn:Hst; cbn [then_wp]; [|done].
  destruct (py_eqb st (PStr "pending")) eqn:Hp; cbn [negb];
    [|by apply Hno].
  apply py_eqb_str in Hp as ->.
  apply wp_mbind, wp_lift. destruct (subscript ddoc "origin");
    cbn [then_wp]; [|done].
  apply wp_mbind, wp_lift. destruct (subscript ddoc "destination");
    cbn [then_wp]; [|done].
  apply wp_mbind, wp_lift. destruct (subscript ddoc "weight");
    cbn [then_wp]; [|done].
  apply wp_mbind, wp_any. intros [drone_id|e] s' t'; cbn [then_wp]; [|done].
  destruct (negb (truthy drone_id)); [by apply Hno|].
  apply wp_mbind, wp_lift. destruct (keyed "drone:" drone_id);
    cbn [then_wp]; [|done].
  apply wp_mret. split; [done|]. intros ? ? ? ? ? [=]. by subst.
Qed.

Lemma wp_assign_one (delivery_id : pyval) (status_channel : bool) (s : pyval) :
  wp (assign_one cfg haversine_km delivery_id status_channel)
     (fun r _ t' => cas_each (assign_cas delivery_id) t'
                    ∧ (r = Ok true → both_accepted delivery_id t'))
     s [].
Proof.
  unfold assign_one. pose proof (cas_each_nil (assign_cas delivery_id)) as H.
    apply wp_mbind, wp_lift.
    destruct (keyed "delivery:" delivery_id) as [dlock|e] eqn:Hdk;
      cbn [then_wp]; [|by split].
    each_steps H.
    all: try (split; [exact H|done]).
    apply wp_attempt.
    eapply wp_mono;
      [|apply wp_conj;
        [apply (wp_only reads_only _ (fun _ _ t' => cas_each (assign_cas delivery_id) t'));
         [apply only_assign_pick|]
        |apply wp_assign_pick_pending]].
    2:{ intros ? ? ? Hq. apply cas_each_app; [done|by apply cas_each_reads_only]. }
    clear H. intros rp s' t' [H [Hb Hp]]. cbn [then_wp].
    destruct rp as [[b|p]|e'].
    - rewrite (Hb b eq_refl). each_steps H. all: by split.
    - destruct p as [[[[ddoc origin] destination] drone_id] k_dlock].
      specialize (Hp _ _ _ _ _ eq_refl).
      apply wp_mbind, wp_attempt.
      eapply wp_mono; [|by apply wp_assign_claim].
      clear H Hb. intros r' s1 t1 [H Hb]. cbn [then_wp snd].
      assert (Hmono : ∀ t2 e2, both_accepted delivery_id t2 →
                both_accepted delivery_id (t2 ++ [e2])).
      { intros t2 e2 (i0 & j0 & e0 & e0' & k0 & o0 & n0 & dk0 & dr0 & o0'
                      & n0' & Hlt & Hi0 & Ha0 & Hc0 & Hcl0 & Hj0 & Hrest).
        exists i0, j0, e0, e0', k0, o0, n0, dk0, dr0, o0', n0'.
        split; [done|]. split; [by apply lookup_app_l_Some|].
        split; [done|]. split; [done|]. split; [done|].
        split; [by apply lookup_app_l_Some|]. done. }
      apply wp_mbind. unfold lock_release at 1.
      apply wp_mbind, wp_call. intros r1. cbn [then_wp].
      apply (cas_each_snoc _ _ (Ev (LockRelease k_dlock) r1)) in H; [|done].
      apply wp_lift. destruct r1 as [[]|e1]; cbn [then_wp]; [|by split].
      apply wp_mbind. unfold lock_release.
      apply wp_mbind, wp_call. intros r2. cbn [then_wp].
      apply (cas_each_snoc _ _ (Ev (LockRelease dlock) r2)) in H; [|done].
      apply wp_lift. destruct r2 as [[]|e2]; cbn [then_wp]; [|by split].
      apply wp_lift. split; [done|].
      intros Hr. by apply Hmono, Hmono, Hb.
    - each_steps H. all: by split.
Qed.

(** X19: [assign_one] sends three kinds of CAS only: the claim of an idle
    drone for this delivery, the assignment of this delivery, read as
    pending, to a drone, and the release of a drone busy on this delivery.
    It answers [True] only after the store accepted a claim and, later,
    the assignment. *)
Theorem assign_one_two_cas {W : Type} (h : handler dcall W) (w : W)
    (s : pyval) (delivery_id : pyval) (status_channel : bool) :
  let o := run h (assign_one cfg haversine_km delivery_id status_channel) s w in
  cas_each (assign_cas delivery_id) (events o)
  ∧ (result o = Ok true → both_accepted delivery_id (events o)).
Proof.
  intros o.
  pose proof (wp_sound h _ _ s w [] (wp_assign_one delivery_id status_channel s))
    as [H1 H2].
  cbn [app] in *. by split.
Qed.

End Transitions.

Section Selection.
Variable cfg : config.
Variable haversine_km : pyval → pyval → res Q.

(** ** The choice among the candidates *)

(** X20: the candidate that [pick_drone] takes is the earliest appended
    among those with the least key [(dist_bucket, prox_rank, battery,
    -speed)]: every candidate before it has a greater key and none after
    it has a smaller one.  Its id is returned unless it is farther than
    [MAX_PICKUP_KM] from the origin, and then no other is tried. *)
Theorem choose_takes_first_least (candidates : list candidate) :
  candidates ≠ [] →
  ∃ pre best post,
    candidates = pre ++ best :: post
    ∧ (∀ c, c ∈ pre → key_lt best c = true)
    ∧ (∀ c, c ∈ post → key_lt c best = false)
    ∧ choose cfg candidates
      = if Qltb (MAX_PICKUP_KM cfg) (c_dist_km best) then PNone else c_id best.
Proof.
  intros Hne.
  destruct (sort_by_key_head candidates Hne)
    as (pre & best & post & rest & Hl & Hs & Hpre & Hpost).
  exists pre, best, post. unfold choose. by rewrite Hs.
Qed.

(** ** The nearest charge point *)

Lemma nearest_charge_point_in_least (zones : list pyval) (p : pyval) :
  ∀ (best0 : pyval) (bestd0 : Q) (best : pyval),
    nearest_charge_point_in haversine_km zones p best0 bestd0 = Ok best →
    (best = best0
     ∧ ∀ z cp d, z ∈ zones → subscript z "charge" = Ok cp →
                 haversine_km p cp = Ok d → (bestd0 <= d)%Q)
    ∨ (∃ z d, z ∈ zones ∧ subscript z "charge" = Ok best
              ∧ haversine_km p best = Ok d ∧ (d < bestd0)%Q
              ∧ ∀ z' cp' d', z' ∈ zones → subscript z' "charge" = Ok cp' →
                             haversine_km p cp' = Ok d' → (d <= d')%Q).
Proof.
  induction zones as [|z zones IH]; intros best0 bestd0 best H.
  { left. injection H as <-. split; [done|]. intros ? ? ? Hz. by inversion Hz. }
  cbn [nearest_charge_point_in] in H.
  destruct (subscript z "charge") as [cp|e] eqn:Hcp; [|done].
  cbn [mbind res_bind] in H.
  destruct (haversine_km p cp) as [d|e] eqn:Hd; [|done].
  cbn [mbind res_bind] in H.
  destruct (Qltb d bestd0) eqn:Hlt.
  - apply Qltb_lt in Hlt. right.
    destruct (IH _ _ _ H) as [[-> Hall]|(z1 & d1 & Hz1 & Hc1 & Hd1 & Hlt1 & Hall)].
    + exists z, d. split; [by left|]. split; [done|]. split; [done|].
      split; [done|].
      intros z' cp' d' [->|Hz']%elem_of_cons Hc' Hd'.
      * rewrite Hcp in Hc'. injection Hc' as <-. rewrite Hd in Hd'.
        injection Hd' as <-. lra.
      * by eapply Hall.
    + exists z1, d1. split; [by right|]. split; [done|]. split; [done|].
      split; [lra|].
      intros z' cp' d' [->|Hz']%elem_of_cons Hc' Hd'.
      * rewrite Hcp in Hc'. injection Hc' as <-. rewrite Hd in Hd'.
        injection Hd' as <-. lra.
      * by eapply Hall.
  - apply Qltb_ge in Hlt.
    destruct (IH _ _ _ H) as [[-> Hall]|(z1 & d1 & Hz1 & Hc1 & Hd1 & Hlt1 & Hall)].
    + left. split; [done|].
      intros z' cp' d' [->|Hz']%elem_of_cons Hc' Hd'.
      * rewrite Hcp in Hc'. injection Hc' as <-. rewrite Hd in Hd'.
        by injection Hd' as <-.
      * by eapply Hall.
    + right. exists z1, d1. split; [by right|]. split; [done|].
      split; [done|]. split; [done|].
      intros z' cp' d' [->|Hz']%elem_of_cons Hc' Hd'.
      * rewrite Hcp in Hc'. injection Hc' as <-. rewrite Hd in Hd'.
        injection Hd' as <-. lra.
      * by eapply Hall.
Qed.

(** X21: when [nearest_charge_point] returns, it returns the charge
    point of a zone at the least distance from [p] among all zones, or
    [None] when no zone is nearer than 1e18 km, which includes the case
    of no zones. *)
Theorem nearest_charge_point_least (zcfg p best : pyval) (zones : list pyval) :
  subscript zcfg "zones" ≫= py_iter = Ok zones →
  nearest_charge_point haversine_km zcfg p = Ok best →
  (best = PNone
   ∧ ∀ z cp d, z ∈ zones → subscript z "charge" = Ok cp →
               haversine_km p cp = Ok d → (inject_Z (10 ^ 18) <= d)%Q)
  ∨ (∃ z d, z ∈ zones ∧ subscript z "charge" = Ok best
            ∧ haversine_km p best = Ok d
            ∧ ∀ z' cp' d', z' ∈ zones → subscript z' "charge" = Ok cp' →
                           haversine_km p cp' = Ok d' → (d <= d')%Q).
Proof.
  intros Hz H. unfold nearest_charge_point in H. rewrite Hz in H.
  cbn [mbind res_bind] in H.
  apply nearest_charge_point_in_least in H
    as [H|(z & d & H1 & H2 & H3 & _ & H4)]; [by left|].
  right. by exists z, d.
Qed.

(** ** The targets of the autoscaler *)

(** X22: with no pending delivery the targets of the three types add up
    to [BASE_ACTIVE], the light and then the medium type taking the
    remainder of the division by three. *)
Theorem target_by_type_shares_base (per_type : Z * Z * Z) (target_total : Z) :
  target_by_type cfg per_type 0 target_total "light"
  + target_by_type cfg per_type 0 target_total "medium"
  + target_by_type cfg per_type 0 target_total "heavy"
  = BASE_ACTIVE cfg
  ∧ (target_by_type cfg per_type 0 target_total "heavy"
     <= target_by_type cfg per_type 0 target_total "medium")%Z
  ∧ (target_by_type cfg per_type 0 target_total "medium"
     <= target_by_type cfg per_type 0 target_total "light")%Z
  ∧ (target_by_type cfg per_type 0 target_total "light"
     <= target_by_type cfg per_type 0 target_total "heavy" + 1)%Z.
Proof.
  unfold target_by_type. destruct per_type as [[l m] h]. cbn.
  pose proof (Z.div_mod (BASE_ACTIVE cfg) 3 ltac:(done)) as Hdm.
  pose proof (Z.mod_pos_bound (BASE_ACTIVE cfg) 3 ltac:(done)) as Hb.
  repeat match goal with
  | |- context [Z.leb ?a ?b] => destruct (Z.leb_spec a b)
  end; lia.
Qed.

End Selection.

(** ** A round of assignments *)

(** An accepted CAS that leaves a document with the status assigned. *)
Definition is_assignment (e : event dcall) : bool :=
  accepted e
  && match cas_of e with
     | Some (_, _, new) =>
         match dict_get new "status" with
         | Ok st => py_eqb st (PStr "assigned")
         | Err _ => false
         end
     | None => false
     end.

Definition assigned_count (t : trace dcall) : nat :=
  length (List.filter is_assignment t).

Lemma assigned_count_app (t t' : trace dcall) :
  assigned_count (t ++ t') = (assigned_count t + assigned_count t')%nat.
Proof. unfold assigned_count. by rewrite List.filter_app, length_app. Qed.

Lemma assigned_count_elem (t : trace dcall) (i : nat) (e : event dcall) :
  t !! i = Some e → is_assignment e = true → (1 ≤ assigned_count t)%nat.
Proof.
  intros Hi He. apply list_elem_of_lookup_2, list_elem_of_In in Hi.
  unfold assigned_count.
  assert (Hin : In e (List.filter is_assignment t)) by (by apply filter_In).
  destruct (List.filter is_assignment t); [done|]. cbn. lia.
Qed.

Lemma both_accepted_counts (delivery_id : pyval) (t : trace dcall) :
  both_accepted delivery_id t → (1 ≤ assigned_count t)%nat.
Proof.
  intros (i & j & e & e' & key & old & new & dkey & drone_id & old' & new'
          & _ & _ & _ & _ & _ & Hj & Ha & Hc & _ & _ & Hpend & ->).
  apply (assigned_count_elem t j e' Hj).
  unfold is_assignment. rewrite Ha, Hc. cbn [andb].
  apply dict_get_is_dict in Hpend.
  by rewrite !dict_get_set by (by destruct old').
Qed.

(** A read of a document, and nothing else. *)
Definition is_get (e : event dcall) : Prop := ∃ k r, got_of e = Some (k, r).

Section Round.
Variable cfg : config.
Variable haversine_km : pyval → pyval → res Q.
Variable PENDING_SCAN_LIMIT MAX_ASSIGN_PER_ROUND : Z.

(** The loop of [oldest_pending]; returning [out] before the end of
    [ids] is [break]. *)
Fixpoint oldest_pending_in (ids : list pyval) (limit : Z) (out : list pyval)
  : dprog (list pyval) :=
  match ids with
  | [] => mret out
  | did :: ids' =>
      if Z.leb limit (Z.of_nat (length out)) then mret out else
      key ← lift (keyed "delivery:" did);
      d ← kv_get key;
      keep ← lift (if truthy d then
                     st ← dict_get d "status"; Ok (py_eqb st (PStr "pending"))
                   else Ok false);
      oldest_pending_in ids' limit (if (keep : bool) then out ++ [did] else out)
  end.

Definition oldest_pending (limit : Z) : dprog (list pyval) :=
  ids ← kv_get "deliveries_index";
  ids ← lift (py_iter (py_or ids (PList [])));
  oldest_pending_in ids limit [].

(** The loop of [assign_round]: an exception of [assign_one] is printed
    and dropped. *)
Fixpoint assign_round_in (ids : list pyval) (status_channel : bool)
    (assigned : Z) : dprog Z :=
  match ids with
  | [] => mret assigned
  | did :: ids' =>
      if Z.leb MAX_ASSIGN_PER_ROUND assigned then mret assigned else
      r ← attempt (assign_one cfg haversine_km did status_channel);
      assign_round_in ids' status_channel
        (match r with
         | Ok true => assigned + 1
         | _ => assigned
         end)
  end.

Definition assign_round (status_channel : bool) : dprog Z :=
  ids ← oldest_pending PENDING_SCAN_LIMIT;
  match ids with
  | [] => mret 0
  | _ => assign_round_in ids status_channel 0
  end.

(** The delivery was read as pending during the calls [t]. *)
Definition read_pending (t : trace dcall) (did : pyval) : Prop :=
  ∃ key d, keyed "delivery:" did = Ok key ∧ seen t key d
           ∧ dict_get d "status" = Ok (PStr "pending").

Lemma read_pending_app (t t' : trace dcall) (did : pyval) :
  read_pending t did → read_pending (t ++ t') did.
Proof.
  intros (key & d & Hk & Hs & Hp). exists key, d.
  split; [done|]. split; [by apply seen_app|done].
Qed.

Lemma only_oldest_pending_in (limit : Z) (ids : list pyval) :
  ∀ out, only is_get (oldest_pending_in ids limit out).
Proof.
  induction ids as [|did ids IH]; intros out; [done|].
  cbn [oldest_pending_in].
  destruct (Z.leb limit (Z.of_nat (length out))); [done|].
  apply only_bind; [apply only_lift|]. intros key.
  apply only_bind.
  { unfold kv_get. apply only_bind; [|intros r; apply only_lift].
    apply only_call. intros r. by exists key, r. }
  intros d. apply only_bind; [apply only_lift|]. intros keep. apply IH.
Qed.

Lemma wp_oldest_pending_in (limit : Z) (ids : list pyval) :
  ∀ (out : list pyval) (s : pyval) (t : trace dcall),
    (∀ did, did ∈ out → read_pending t did) →
    wp (oldest_pending_in ids limit out)
       (fun r _ t' =>
          ∀ out', r = Ok out' →
            (∃ more, out' = out ++ more ∧ sublist more ids)
            ∧ (Z.of_nat (length out')
               <= Z.max (Z.of_nat (length out)) limit)%Z
            ∧ ∀ did, did ∈ out' → read_pending t' did) s t.
Proof.
  induction ids as [|did ids IH]; intros out s t Hout.
  { apply wp_mret. intros out' [= <-]. split; [|split; [lia|done]].
    exists []. by rewrite app_nil_r. }
  cbn [oldest_pending_in].
  destruct (Z.leb_spec limit (Z.of_nat (length out))) as [Hfull|Hroom].
  { apply wp_mret. intros out' [= <-]. split; [|split; [lia|done]].
    exists []. rewrite app_nil_r. split; [done|]. apply sublist_nil_l. }
  apply wp_mbind, wp_lift.
  destruct (keyed "delivery:" did) as [key|e] eqn:Hk; cbn [then_wp]; [|done].
  unfold kv_get. apply wp_mbind, wp_mbind, wp_call. intros r. cbn [then_wp].
  apply wp_lift. destruct r as [d|e]; cbn [then_wp]; [|done].
  apply wp_mbind, wp_lift.
  destruct (if truthy d
            then dict_get d "status" ≫= λ st, Ok (py_eqb st (PStr "pending"))
            else Ok false) as [keep|e] eqn:Hkeep; cbn [then_wp]; [|done].
  eapply wp_mono; [|apply IH].
  - intros r s' t' H out' Hr.
    destruct (H out' Hr) as ((more & -> & Hsub) & Hlen & Hread).
    split; [|split; [|done]].
    + destruct keep.
      * exists (did :: more). rewrite <- app_assoc. split; [done|].
        by apply sublist_skip.
      * exists more. split; [done|]. by apply sublist_cons.
    + destruct keep; rewrite ?length_app in *; cbn [length] in *; lia.
  - intros did' Hin.
    assert (Hold : ∀ x, x ∈ out →
              read_pending (t ++ [Ev (KvGet key) (Ok d)]) x).
    { intros x Hx. by apply read_pending_app, Hout. }
    destruct keep; [|by apply Hold].
    apply elem_of_app in Hin as [Hin|Hin%list_elem_of_singleton];
      [by apply Hold|]. subst did'.
    exists key, d. split; [done|]. split; [apply seen_last|].
    destruct (truthy d); [|done].
    destruct (dict_get d "status") as [st|e]; [|done].
    cbn in Hkeep. injection Hkeep as Hst. apply py_eqb_str in Hst. by subst.
Qed.

(** X23: [oldest_pending] only reads.  It returns at most [limit] ids
    (none when [limit] is not positive), in the order of
    [deliveries_index], each of them the id of a delivery it read as
    pending. *)
Theorem oldest_pending_reads_pending {W : Type} (h : handler dcall W) (w : W)
    (s : pyval) (limit : Z) :
  let o := run h (oldest_pending limit) s w in
  Forall is_get (events o)
  ∧ ∀ out, result o = Ok out →
      (Z.of_nat (length out) <= Z.max 0 limit)%Z
      ∧ (∀ did, did ∈ out → read_pending (events o) did)
      ∧ ∃ idx ids,
          events o !! 0%nat = Some (Ev (KvGet "deliveries_index") (Ok idx))
          ∧ py_iter (py_or idx (PList [])) = Ok ids
          ∧ sublist out ids.
Proof.
  intros o. split.
  - assert (Hwp : wp (oldest_pending limit) (always (Forall is_get)) s []).
    { apply wp_only with (ok := is_get); [|by intros].
      unfold oldest_pending. apply only_bind.
      { unfold kv_get. apply only_bind; [|intros r; apply only_lift].
        apply only_call. intros r. by exists "deliveries_index", r. }
      intros idx. apply only_bind; [apply only_lift|]. intros ids.
      apply only_oldest_pending_in. }
    exact (wp_sound h _ _ s w [] Hwp).
  - assert (Hwp : wp (oldest_pending limit)
                    (fun r _ t' =>
                       ∀ out, r = Ok out →
                         (Z.of_nat (length out) <= Z.max 0 limit)%Z
                         ∧ (∀ did, did ∈ out → read_pending t' did)
                         ∧ ∃ idx ids,
                             t' !! 0%nat
                             = Some (Ev (KvGet "deliveries_index") (Ok idx))
                             ∧ py_iter (py_or idx (PList [])) = Ok ids
                             ∧ sublist out ids) s []).
    { unfold oldest_pending, kv_get.
      apply wp_mbind, wp_mbind, wp_call. intros r. cbn [then_wp app].
      apply wp_lift. destruct r as [idx|e]; cbn [then_wp]; [|done].
      apply wp_mbind, wp_lift.
      destruct (py_iter (py_or idx (PList []))) as [ids|e] eqn:Hids;
        cbn [then_wp]; [|done].
      eapply wp_mono;
        [|apply wp_extends, (wp_oldest_pending_in limit ids [])].
      - intros r s' t' [H (t'' & ->)] out Hr.
        destruct (H out Hr) as ((more & -> & Hsub) & Hlen & Hread).
        cbn [app length] in *. split; [lia|]. split; [done|].
        by exists idx, ids.
      - intros did Hin. by apply elem_of_nil in Hin. }
    pose proof (wp_sound h _ _ s w [] Hwp) as H. exact H.
Qed.

Lemma wp_assign_round_in (status_channel : bool) (ids : list pyval) :
  ∀ (assigned : Z) (s : pyval) (t : trace dcall),
    cas_each (fun k old new => ∃ did, assign_cas did k old new) t →
    wp (assign_round_in ids status_channel assigned)
       (fun r _ t' =>
          cas_each (fun k old new => ∃ did, assign_cas did k old new) t'
          ∧ ∀ n, r = Ok n →
              (assigned <= n)%Z
              ∧ (n <= Z.max assigned MAX_ASSIGN_PER_ROUND)%Z
              ∧ (n - assigned
                 <= Z.of_nat (assigned_count t') - Z.of_nat (assigned_count t))%Z)
       s t.
Proof.
  induction ids as [|did ids IH]; intros assigned s t Ht.
  { apply wp_mret. split; [done|]. intros n [= <-]. lia. }
  cbn [assign_round_in].
  destruct (Z.leb_spec MAX_ASSIGN_PER_ROUND assigned) as [Hmax|Hroom].
  { apply wp_mret. split; [done|]. intros n [= <-]. lia. }
  apply wp_mbind, wp_attempt.
  pose proof (wp_shift _ _ s t [] (wp_assign_one cfg haversine_km did
                                     status_channel s)) as Hone.
  rewrite app_nil_r in Hone.
  eapply wp_mono; [|exact Hone].
  intros r s' t' (t'' & -> & Hcas & Hacc). cbn [then_wp].
  assert (Ht' : cas_each (fun k old new => ∃ did, assign_cas did k old new)
                  (t ++ t'')).
  { apply cas_each_app; [done|]. eapply cas_each_mono; [|exact Hcas].
    intros k old new Hc. by exists did. }
  eapply wp_mono; [|by apply IH].
  intros r' s'' t3 [H3 Hn]. split; [done|]. intros n Hr.
  destruct (Hn n Hr) as (Hlo & Hhi & Hcount).
  rewrite assigned_count_app in Hcount.
  destruct r as [[]|e].
  - pose proof (both_accepted_counts did t'' (Hacc eq_refl)). lia.
  - lia.
  - lia.
Qed.


End Round.

(** ** Rounds of the dispatcher on the example store *)

(** The drone document once it is bound to a delivery. *)
Definition busy_on (delivery : string) (d : pyval) : pyval :=
  dict_set (dict_set d "status" (PStr "busy"))
           "current_delivery" (PStr delivery).

(** The delivery [X] once it is assigned to [d1]. *)
Definition X_assigned : pyval :=
  dict_set (dict_set (dict_set (delivery_doc "X" rome rome 1)
                               "status" (PStr "assigned"))
                     "drone_id" (PStr "d1"))
           "leg" (PStr "to_origin").

(** [d1] is busy on [X]; [X] is in the state [x]. *)
Definition under_way (x : pyval) : store :=
  <["delivery:X" := x]> (base_store (busy_on "X" (d1_with 100 rome 0 []))).

Lemma set_drone_busy_if_idle_claims_witness :
  let d1 := d1_with 100 rome 0 [] in
  let o := run quiet (set_drone_busy_if_idle (PStr "d1") (PStr "X"))
               PNone (base_store d1) in
  result o = Ok true
  ∧ events o = [Ev (KvGet "drone:d1") (Ok d1);
                Ev (KvCas "drone:d1" d1 (busy_on "X" d1)) true]
  ∧ cas_all (claims "drone:d1" (PStr "X")) (events o).
Proof.
  split; [reflexivity|]. split; [reflexivity|].
  apply (set_drone_busy_if_idle_claims quiet
           (base_store (d1_with 100 rome 0 [])) PNone (PStr "d1") (PStr "X")
           "drone:d1").
  reflexivity.
Defined.

Lemma set_drone_idle_if_busy_frees_witness :
  let d1 := busy_on "X" (d1_with 100 rome 0 []) in
  let o := run quiet (set_drone_idle_if_busy (PStr "d1") (PStr "X"))
               PNone (base_store d1) in
  result o = Ok true
  ∧ events o = [Ev (KvGet "drone:d1") (Ok d1);
                Ev (KvCas "drone:d1" d1 (d1_with 100 rome 0 [])) true]
  ∧ cas_all (frees "drone:d1" (PStr "X")) (events o).
Proof.
  split; [reflexivity|]. split; [reflexivity|].
  apply (set_drone_idle_if_busy_frees quiet
           (base_store (busy_on "X" (d1_with 100 rome 0 []))) PNone
           (PStr "d1") (PStr "X") "drone:d1").
  reflexivity.
Defined.

Lemma govern_charging_and_retiring_transitions_witness :
  let d1 := d1_with 20 rome 0 [] in
  let t := events (run quiet (govern_charging_and_retiring default_config)
                       PNone (base_store d1)) in
  t !! 2%nat = Some (Ev (KvCas "drone:d1" d1 (d1_charging 20 rome)) true)
  ∧ governs default_config "drone:d1" d1 (d1_charging 20 rome)
  ∧ seen_before t 2 "drone:d1" d1.
Proof.
  split; [reflexivity|].
  destruct (govern_charging_and_retiring_transitions default_config quiet
              (base_store (d1_with 20 rome 0 [])) PNone 2%nat
              (Ev (KvCas "drone:d1" (d1_with 20 rome 0 [])
                     (d1_charging 20 rome)) true)
              "drone:d1" (d1_with 20 rome 0 []) (d1_charging 20 rome))
    as (Hg & Hs & _); [reflexivity|reflexivity|].
  by split.
Defined.

Lemma advance_moves_forward_witness :
  let t := events (run quiet (advance_for_drone default_config grid_km true
                                (PStr "d1"))
                       PNone (under_way X_assigned)) in
  let flying := dict_set X_assigned "status" (PStr "in_flight") in
  cas_keys t = ["delivery:X"; "delivery:X"]
  ∧ advances_or_frees default_config grid_km t 2 "delivery:X"
      X_assigned flying
  ∧ advances_or_frees default_config grid_km t 3 "delivery:X"
      flying (dict_set flying "leg" (PStr "to_destination")).
Proof.
  split; [reflexivity|].
  pose proof (proj1 (advance_moves_forward default_config grid_km quiet
                       (under_way X_assigned) PNone true (PStr "d1"))) as H.
  split.
  - eapply (H 2%nat); reflexivity.
  - eapply (H 3%nat); reflexivity.
Defined.

Lemma reconcile_stuck_busy_releases_witness :
  let d1 := busy_on "X" (d1_with 100 rome 0 []) in
  let t := events (run quiet reconcile_stuck_busy PNone
                       (under_way (dict_set X_assigned "status"
                                            (PStr "delivered")))) in
  cas_keys t = ["drone:d1"]
  ∧ reconciles t 4 "drone:d1" d1 (d1_with 100 rome 0 []).
Proof.
  split; [reflexivity|].
  eapply (reconcile_stuck_busy_releases quiet
            (under_way (dict_set X_assigned "status" (PStr "delivered")))
            PNone 4%nat);
    reflexivity.
Defined.

Lemma assign_one_two_cas_witness :
  let o := run quiet (assign_one default_config grid_km (PStr "X") true)
               PNone (base_store (d1_with 100 rome 0 [])) in
  result o = Ok true
  ∧ cas_keys (events o) = ["drone:d1"; "delivery:X"]
  ∧ both_accepted (PStr "X") (events o).
Proof.
  split; [reflexivity|]. split; [reflexivity|].
  apply (assign_one_two_cas default_config grid_km quiet
           (base_store (d1_with 100 rome 0 [])) PNone (PStr "X") true).
  reflexivity.
Defined.

(** Two candidates: the first is 10 km away, the second on the pickup. *)
Definition far_candidate : candidate :=
  {| c_id := PStr "d1"; c_dist_bucket := 50; c_prox_rank := 0;
     c_battery := 100; c_speed := 4 # 10; c_dist_km := 10 |}.

Definition near_candidate : candidate :=
  {| c_id := PStr "d2"; c_dist_bucket := 0; c_prox_rank := 0;
     c_battery := 100; c_speed := 4 # 10; c_dist_km := 0 |}.

Lemma choose_takes_first_least_witness :
  choose default_config [far_candidate; near_candidate] = PStr "d2".
Proof.
  destruct (choose_takes_first_least default_config
              [far_candidate; near_candidate])
    as (pre & best & post & Hl & Hpre & Hpost & ->); [discriminate|].
  destruct pre as [|c1 [|c2 pre]].
  - injection Hl as <- <-.
    discriminate (Hpost near_candidate ltac:(by left)).
  - injection Hl as <- <- <-. reflexivity.
  - injection Hl as _ _ Hl. by destruct pre.
Defined.

Lemma nearest_charge_point_least_witness :
  nearest_charge_point grid_km zones1 rome = Ok rome
  ∧ ∀ z cp d, z ∈ [zone0] → subscript z "charge" = Ok cp →
              grid_km rome cp = Ok d → (0 <= d)%Q.
Proof.
  split; [reflexivity|].
  destruct (nearest_charge_point_least grid_km zones1 rome rome [zone0])
    as [[Hn _]|(z & d & Hz & Hc & Hd & Hall)];
    [reflexivity|reflexivity|discriminate Hn|].
  assert (H0 : grid_km rome rome = Ok 0%Q) by reflexivity.
  rewrite H0 in Hd. injection Hd as <-. exact Hall.
Defined.

(** The delivery [X] is listed and waits for a drone. *)
Definition queued : store :=
  <["deliveries_index" := PList [PStr "X"]]>
    (base_store (d1_with 100 rome 0 [])).

Lemma oldest_pending_reads_pending_witness :
  let o := run quiet (oldest_pending 500) PNone queued in
  result o = Ok [PStr "X"]
  ∧ (Z.of_nat (length [PStr "X"]) <= Z.max 0 500)%Z
  ∧ read_pending (events o) (PStr "X").
Proof.
  intros o. split; [reflexivity|].
  destruct (proj2 (oldest_pending_reads_pending quiet queued PNone 500)
              [PStr "X"] eq_refl) as (Hlen & Hread & _).
  split; [exact Hlen|]. apply Hread. by left.
Defined.


End Dispatcher.

(* ===================================================================== *)
(** * The drone simulator (drone_sim/app.py) *)
(* ===================================================================== *)

Module DroneSim.

Inductive scall : Type → Type :=
| KvGet (k : string) : scall (res pyval)
| KvCas (key : string) (old new : pyval) : scall bool
| Now : scall Q
| Sleep (sec : Q) : scall unit.

(** The CAS an event is, if it is one, and the read it is, if it is one. *)
Definition cas_of (e : event scall) : option (string * pyval * pyval) :=
  match e with
  | Ev c _ => match c with
              | KvCas k old new => Some (k, old, new)
              | _ => None
              end
  end.

Definition got_of (e : event scall) : option (string * res pyval) :=
  match e with
  | Ev c r => match c in scall R return R → option (string * res pyval) with
              | KvGet k => fun r => Some (k, r)
              | _ => fun _ => None
              end r
  end.

Definition cas_count (t : trace scall) : nat :=
  length (List.filter (fun e => match cas_of e with
                                | Some _ => true
                                | None => false
                                end) t).

(** [new] holds what [old] holds in every field but the three telemetry
    fields. *)
Definition same_control (old new : pyval) : Prop :=
  ∀ f, f ≠ "pos" → f ≠ "battery" → f ≠ "at_charge" →
       dict_get new f = dict_get old f.

(** Every CAS of the trace is on [key], comes right after a read of
    [key], expects what that read returned ([{}] when it returned
    nothing) and writes it back with the telemetry fields alone changed. *)
Definition merge_written (key : string) (t : trace scall) : Prop :=
  ∀ i e k old new,
    t !! i = Some e → cas_of e = Some (k, old, new) →
    k = key
    ∧ same_control old new
    ∧ ∃ j e' v, i = S j ∧ t !! j = Some e'
                ∧ got_of e' = Some (key, Ok v) ∧ old = py_or v (PDict []).

(** The process-local state is [evt_q], oldest event first; the publisher
    task that drains it runs in the same process and is not modelled. *)
Abbreviation sprog := (prog scall (list pyval)).

Record config : Type := Config {
  CHARGE_PER_TICK : Q;
  BATTERY_PER_KM : Q;
  TICK_SEC : Q;
  EVENT_QUEUE_MAX : Z
}.

Definition default_config : config :=
  {| CHARGE_PER_TICK := 5; BATTERY_PER_KM := 12 # 10; TICK_SEC := 5 # 100;
     EVENT_QUEUE_MAX := 2000 |}.

Section Loop.
Variable cfg : config.
Variable haversine_km : pyval → pyval → res Q.

Definition kv_get (k : string) : sprog pyval :=
  r ← call (KvGet k); lift r.

Definition kv_cas (key : string) (old new : pyval) : sprog bool :=
  if json_serializable old && json_serializable new
  then call (KvCas key old new)
  else mret false.

Definition point (lat lon : Q) : pyval :=
  PDict [("lat", PNum lat); ("lon", PNum lon)].

Definition step (p q : pyval) (f : Q) : res pyval :=
  plat ← subscript p "lat" ≫= py_num;
  qlat ← subscript q "lat" ≫= py_num;
  plat' ← subscript p "lat" ≫= py_num;
  plon ← subscript p "lon" ≫= py_num;
  qlon ← subscript q "lon" ≫= py_num;
  plon' ← subscript p "lon" ≫= py_num;
  Ok (point (plat + (qlat - plat') * f) (plon + (qlon - plon') * f)).

Definition close_enough (p q : pyval) : res bool :=
  let eps := (5 # 10000)%Q in
  plat ← subscript p "lat" ≫= py_num;
  qlat ← subscript q "lat" ≫= py_num;
  if Qltb (Qabs (plat - qlat)) eps then
    plon ← subscript p "lon" ≫= py_num;
    qlon ← subscript q "lon" ≫= py_num;
    Ok (Qltb (Qabs (plon - qlon)) eps)
  else Ok false.

Fixpoint nearest_charge_point_in (zones : list pyval) (p : pyval)
    (best : pyval) (bestd : Q) : res pyval :=
  match zones with
  | [] => Ok best
  | z :: zones' =>
      cp ← subscript z "charge";
      d ← haversine_km p cp;
      if Qltb d bestd then nearest_charge_point_in zones' p cp d
      else nearest_charge_point_in zones' p best bestd
  end.

Definition nearest_charge_point (zcfg p : pyval) : res pyval :=
  zones ← subscript zcfg "zones" ≫= py_iter;
  nearest_charge_point_in zones p PNone (inject_Z (10 ^ 18)).

Definition Qmax (a b : Q) : Q := if Qltb a b then b else a.
Definition Qmin (a b : Q) : Q := if Qltb b a then b else a.

(** A move of one step toward [target] and the battery it costs. *)
Definition advance (pos target : pyval) (speed new_battery : Q)
  : res (pyval * Q) :=
  new_pos ← step pos target speed;
  km ← haversine_km pos new_pos;
  Ok (new_pos, Qmax 0 (new_battery - km * BATTERY_PER_KM cfg)).

(** [new = dict(old); new.update({"pos": .., "battery": .., "at_charge": ..})] *)
Definition merged (old new_pos : pyval) (new_battery : Q) (at_charge : bool)
  : res pyval :=
  new ← dict_copy old;
  Ok (dict_set (dict_set (dict_set new "pos" new_pos)
                         "battery" (PNum new_battery))
               "at_charge" (PBool at_charge)).

(** [for _ in range(10)]: the CAS merge-write; the result is [latest]. *)
Fixpoint merge_write (attempts : nat) (key : string) (new_pos : pyval)
    (new_battery : Q) (at_charge : bool) : sprog pyval :=
  match attempts with
  | O => mret PNone
  | S n =>
      old ← kv_get key;
      let old := py_or old (PDict []) in
      new ← lift (merged old new_pos new_battery at_charge);
      ok ← kv_cas key old new;
      if (ok : bool) then mret new else
      _ ← call (Sleep 0);
      merge_write n key new_pos new_battery at_charge
  end.

(** [evt_q.put_nowait(evt)], dropping the oldest event when the queue is
    full. *)
Definition enqueue (evt : pyval) : sprog unit :=
  Load (fun q =>
    let full (q : list pyval) :=
      Z.ltb 0 (EVENT_QUEUE_MAX cfg)
      && Z.leb (EVENT_QUEUE_MAX cfg) (Z.of_nat (length q)) in
    if full q then
      let q' := tl q in
      if full q' then Store q' (Ret tt) else Store (q' ++ [evt]) (Ret tt)
    else Store (q ++ [evt]) (Ret tt)).

(** The new position, battery and [at_charge] of this tick. *)
Definition plan (cur pos status current_delivery : pyval) (speed : Q)
    (zcfg : pyval) : sprog (pyval * Q * bool) :=
  new_pos ← lift (dict_copy pos);
  new_battery ← lift (dict_get_or cur "battery" (PNum 100) ≫= py_float);
  if py_eqb status (PStr "busy") && truthy current_delivery then
    dkey ← lift (py_format current_delivery);
    dd ← kv_get ("delivery:" +:+ dkey);
    if truthy dd then
      leg ← lift (dict_get_or dd "leg" (PStr "to_origin"));
      target ← lift (if py_eqb leg (PStr "to_origin")
                     then subscript dd "origin" else subscript dd "destination");
      m ← lift (advance pos target speed new_battery);
      mret (fst m, snd m, false)
    else mret (new_pos, new_battery, false)
  else if py_eqb status (PStr "charging") || py_eqb status (PStr "retiring") then
    cp ← lift (nearest_charge_point zcfg pos);
    near ← lift (close_enough pos cp);
    if negb near then
      m ← lift (advance pos cp speed new_battery);
      mret (fst m, snd m, false)
    else mret (new_pos, Qmin 100 (new_battery + CHARGE_PER_TICK cfg), true)
  else mret (new_pos, new_battery, false).

(** The [try] block of one iteration of [while True]; the result tells
    whether the iteration left through [continue]. *)
Definition tick_body (did : string) (zcfg : pyval) : sprog bool :=
  let key := "drone:" +:+ did in
  cur ← kv_get key;
  frozen ← (if truthy cur then
              fu ← lift (dict_get_or cur "freeze_until" (PInt 0));
              now ← call Now;
              lift (py_gt fu (PNum now))
            else mret false);
  if (frozen : bool) then _ ← call (Sleep (5 # 100)); mret true else
  if negb (truthy cur) then _ ← call (Sleep (TICK_SEC cfg)); mret true else
  status ← lift (dict_get_or cur "status" (PStr "inactive"));
  current_delivery ← lift (dict_get cur "current_delivery");
  speed ← lift (dict_get_or cur "speed" (PNum (25 # 100)) ≫= py_float);
  pos ← lift (dict_get cur "pos");
  if negb (truthy pos) then _ ← call (Sleep (TICK_SEC cfg)); mret true else
  p ← plan cur pos status current_delivery speed zcfg;
  let '(new_pos, new_battery, at_charge) := p in
  latest ← merge_write 10 key new_pos new_battery at_charge;
  latest ← (match latest with
            | PNone => l ← kv_get key; mret (py_or l (PDict []))
            | _ => mret latest
            end);
  id ← lift (dict_get_or latest "id" (PStr did));
  lpos ← lift (dict_get latest "pos");
  battery ← lift (dict_get latest "battery");
  status ← lift (dict_get latest "status");
  current_delivery ← lift (dict_get latest "current_delivery");
  at_charge ← lift (dict_get_or latest "at_charge" (PBool false));
  _ ← enqueue (PDict [("type", PStr "drone_update"); ("drone_id", id);
                      ("pos", lpos); ("battery", battery); ("status", status);
                      ("current_delivery", current_delivery);
                      ("at_charge", at_charge)]);
  mret false.

(** One iteration of [while True] in [run_one]: an exception of the
    [try] block is printed and dropped; [continue] skips the final
    sleep. *)
Definition run_one_tick (did : string) (zcfg : pyval) : sprog unit :=
  r ← attempt (tick_body did zcfg);
  match r with
  | Ok true => mret tt
  | _ => call (Sleep (TICK_SEC cfg))
  end.

(** ** The merge-write changes telemetry only *)

Definition quiet_call (e : event scall) : Prop := cas_of e = None.

(** The trace has at most [m] CAS, all of them merge-writes on [key]. *)
Definition merge_bounded (key : string) (m : nat) (t : trace scall) : Prop :=
  merge_written key t ∧ (cas_count t ≤ m)%nat.

Lemma cas_count_app (t t' : trace scall) :
  cas_count (t ++ t') = (cas_count t + cas_count t')%nat.
Proof. unfold cas_count. by rewrite List.filter_app, length_app. Qed.

Lemma cas_count_quiet (t : trace scall) : Forall quiet_call t → cas_count t = 0%nat.
Proof.
  induction 1 as [|e t He _ IH]; [done|].
  unfold cas_count in *. simpl. unfold quiet_call in He. by rewrite He.
Qed.

Lemma merge_bounded_quiet (key : string) (m : nat) (t t' : trace scall) :
  merge_bounded key m t → Forall quiet_call t' → merge_bounded key m (t ++ t').
Proof.
  intros [Hw Hc] Hq. split.
  - intros i e k old new Hi Hcas.
    apply lookup_app_Some in Hi as [Hi|[_ Hi]].
    + destruct (Hw i e k old new Hi Hcas) as (Hk & Hsame & j & e' & v & -> & Hj & Hg & Ho).
      split; [done|]. split; [done|].
      exists j, e', v. repeat split; try done. by apply lookup_app_l_Some.
    + eapply Forall_lookup_1 in Hq; [|exact Hi].
      unfold quiet_call in Hq. by rewrite Hq in Hcas.
  - rewrite cas_count_app, (cas_count_quiet t') by done. lia.
Qed.

Lemma merge_bounded_mono (key : string) (m m' : nat) (t : trace scall) :
  merge_bounded key m t → (m ≤ m')%nat → merge_bounded key m' t.
Proof. intros [Hw Hc] Hm. split; [done|lia]. Qed.

Lemma merge_bounded_cas (key : string) (m : nat) (t0 : trace scall)
    (eg : event scall) (v new : pyval) (b : bool) :
  merge_bounded key m (t0 ++ [eg]) →
  got_of eg = Some (key, Ok v) →
  same_control (py_or v (PDict [])) new →
  merge_bounded key (S m)
    ((t0 ++ [eg]) ++ [Ev (KvCas key (py_or v (PDict [])) new) b]).
Proof.
  intros [Hw Hc] Hg Hsame. split.
  - intros i e k old new' Hi Hcas.
    apply lookup_app_Some in Hi as [Hi|[Hlen Hi]].
    + destruct (Hw i e k old new' Hi Hcas) as (Hk & Hs & j & e' & v' & -> & Hj & Hg' & Ho).
      split; [done|]. split; [done|].
      exists j, e', v'. repeat split; try done. by apply lookup_app_l_Some.
    + destruct (i - length (t0 ++ [eg]))%nat as [|n] eqn:En; [|done].
      simpl in Hi. injection Hi as <-. simpl in Hcas.
      injection Hcas as <- <- <-.
      split; [done|]. split; [done|].
      exists (length t0), eg, v. repeat split; try done.
      * rewrite length_app in Hlen, En. simpl in *. lia.
      * rewrite <- app_assoc. by apply list_lookup_middle.
  - rewrite cas_count_app. unfold cas_count at 2. simpl. lia.
Qed.

Lemma merged_same_control (old new_pos new : pyval) (new_battery : Q)
    (at_charge : bool) :
  merged old new_pos new_battery at_charge = Ok new → same_control old new.
Proof.
  unfold merged. intros H.
  destruct (dict_copy old) as [c|] eqn:Ec; [|done].
  apply dict_copy_ok in Ec as [-> Hd]. cbn in H. injection H as <-.
  intros f Hp Hb Ha.
  destruct old as [| | | | |l|]; try done. simpl.
  rewrite !assoc_assoc_set.
  apply String.eqb_neq in Hp, Hb, Ha. by rewrite Hp, Hb, Ha.
Qed.

Lemma wp_merge_write (key : string) (new_pos : pyval) (new_battery : Q)
    (at_charge : bool) :
  ∀ (n m : nat) (q : list pyval) (t : trace scall),
    merge_bounded key m t →
    wp (merge_write n key new_pos new_battery at_charge)
       (fun _ _ t' => merge_bounded key (m + n) t' ∧ ∃ t'', t' = t ++ t'') q t.
Proof.
  induction n as [|n IH]; intros m q t Hm.
  - cbn. split; [|by exists []; rewrite app_nil_r].
    eapply merge_bounded_mono; [done|lia].
  - cbn [merge_write]. unfold kv_get.
    apply wp_mbind, wp_mbind, wp_call. intros r. cbn [then_wp].
    assert (Hm1 : merge_bounded key m (t ++ [Ev (KvGet key) r])).
    { apply merge_bounded_quiet; [done|]. by repeat constructor. }
    apply wp_lift. destruct r as [v|e]; cbn [then_wp].
    2:{ split; [|by eexists]. eapply merge_bounded_mono; [done|lia]. }
    apply wp_mbind, wp_lift.
    destruct (merged (py_or v (PDict [])) new_pos new_battery at_charge)
      as [new|e] eqn:Enew; cbn [then_wp].
    2:{ split; [|by eexists]. eapply merge_bounded_mono; [done|lia]. }
    apply merged_same_control in Enew.
    apply wp_mbind. unfold kv_cas.
    destruct (json_serializable (py_or v (PDict [])) && json_serializable new).
    + apply wp_call. intros b. cbn [then_wp].
      assert (Hm2 : merge_bounded key (S m)
                      ((t ++ [Ev (KvGet key) (Ok v)])
                       ++ [Ev (KvCas key (py_or v (PDict [])) new) b])).
      { by apply merge_bounded_cas. }
      destruct b.
      * apply wp_mret. split; [|rewrite <- app_assoc; by eexists].
        eapply merge_bounded_mono; [done|lia].
      * apply wp_mbind, wp_call. intros []. cbn [then_wp].
        eapply wp_mono; [|apply (IH (S m))].
        -- intros r s' t' [Hb (t'' & ->)]. split.
           ++ eapply merge_bounded_mono; [done|lia].
           ++ rewrite <- !app_assoc. by eexists.
        -- apply merge_bounded_quiet; [done|]. by repeat constructor.
    + apply wp_mret. cbn [then_wp].
      apply wp_mbind, wp_call. intros []. cbn [then_wp].
      eapply wp_mono; [|apply (IH m)].
      * intros r s' t' [Hb (t'' & ->)]. split.
        -- eapply merge_bounded_mono; [done|lia].
        -- rewrite <- !app_assoc. by eexists.
      * apply merge_bounded_quiet; [done|]. by repeat constructor.
Qed.

(** Goes through a program of the simulator, keeping in [H] that the
    trace so far is [merge_bounded]. *)
Ltac tick_steps H :=
  repeat lazymatch goal with
  | |- wp (_ ≫= _) _ _ _ => apply wp_mbind
  | |- wp (kv_get _) _ _ _ => unfold kv_get
  | |- wp (lift ?r) _ _ _ =>
      apply wp_lift; destruct r; cbn [then_wp always fst snd]
  | |- wp (call ?c) _ _ ?t =>
      apply wp_call; let r := fresh "r" in intros r;
      cbn [then_wp always];
      apply (merge_bounded_quiet _ _ t [Ev c r]) in H;
      [|by repeat constructor]
  | |- wp (mret _) _ _ _ => apply wp_mret; cbn [then_wp always]
  | |- wp (if ?b then _ else _) _ _ _ => destruct b; cbn [negb]
  | |- wp (match ?x with _ => _ end) _ _ _ => destruct x
  | |- wp (Load _) _ _ _ => cbn [wp]
  | |- wp (Store _ _) _ _ _ => cbn [wp]
  | |- wp (Ret _) _ _ _ => cbn [wp then_wp always]
  | |- then_wp _ _ _ _ _ => cbn [then_wp]
  | |- always _ _ _ _ => unfold always
  | |- merge_bounded _ _ _ => eapply merge_bounded_mono; [exact H|lia]
  end.

Lemma wp_tick_body (did : string) (zcfg : pyval) (q : list pyval) :
  wp (tick_body did zcfg) (always (merge_bounded ("drone:" +:+ did) 10)) q [].
Proof.
  assert (H : merge_bounded ("drone:" +:+ did) 0 []).
  { split; [|done]. intros i e k old new Hi. by destruct i. }
  unfold tick_body, plan, enqueue.
  tick_steps H.
  all: try (eapply wp_mono; [|apply (wp_merge_write _ _ _ _ 10 _ _ _ H)];
            clear H; intros [] ? ? [H _]; cbn [then_wp]; tick_steps H).
Qed.

Lemma wp_run_one_tick (did : string) (zcfg : pyval) (q : list pyval) :
  wp (run_one_tick did zcfg) (always (merge_bounded ("drone:" +:+ did) 10)) q [].
Proof.
  unfold run_one_tick. apply wp_mbind, wp_attempt.
  eapply wp_mono; [|apply wp_tick_body].
  intros r s' t' H. unfold always in H. cbn [then_wp].
  destruct r as [[]|]; tick_steps H.
Qed.

(** C6: in the calls of one tick, every CAS is on the drone's key, comes
    right after a read of that key, expects the document that read
    returned and writes it back with [pos], [battery] and [at_charge]
    alone changed, so [status], [current_delivery], [type] and [speed]
    are those of the document just read; there are at most 10 CAS. *)
Theorem run_one_tick_merge_write {W : Type} (h : handler scall W) (w : W)
    (q : list pyval) (did : string) (zcfg : pyval) :
  let t := events (run h (run_one_tick did zcfg) q w) in
  merge_written ("drone:" +:+ did) t
  ∧ (cas_count t ≤ 10)%nat
  ∧ ∀ i e k old new,
      t !! i = Some e → cas_of e = Some (k, old, new) →
      dict_get new "status" = dict_get old "status"
      ∧ dict_get new "current_delivery" = dict_get old "current_delivery"
      ∧ dict_get new "type" = dict_get old "type"
      ∧ dict_get new "speed" = dict_get old "speed".
Proof.
  intros t.
  pose proof (wp_sound h (run_one_tick did zcfg) _ q w [] (wp_run_one_tick did zcfg q))
    as [Hw Hc].
  cbn [app] in Hw, Hc. fold t in Hw, Hc.
  split; [done|]. split; [done|].
  intros i e k old new Hi Hcas.
  destruct (Hw i e k old new Hi Hcas) as (_ & Hsame & _).
  repeat split; by apply Hsame.
Qed.

End Loop.

(** ** A tick against an autoscaler that retires the drone *)

Abbreviation store := (gmap string pyval).

(** The world of the simulator: the number of calls answered so far, the
    clock and the store.  [others n] is what other processes do to the
    store just before call number [n] (from 0) is answered. *)
Definition answer {R : Type} (c : scall R) (now : Q) (st : store)
  : R * (Q * store) :=
  match c in scall R return R * (Q * store) with
  | KvGet k => (Ok (default PNone (st !! k)), (now, st))
  | KvCas k old new =>
      if py_eqb (default PNone (st !! k)) old then (true, (now, <[k := new]> st))
      else (false, (now, st))
  | Now => (now, (now, st))
  | Sleep sec => (tt, (Qred (now + sec), st))
  end.

Definition racing (others : nat → store → store)
  : handler scall (nat * (Q * store)) :=
  fun R c w =>
    let '(n, (now, st)) := w in
    let '(r, w') := answer c now (others n st) in (r, (S n, w')).

Definition d1_charging : pyval :=
  Dispatcher.drone_doc "d1" "light" "charging" 80 Dispatcher.rome 0 [].

(** What [autoscale_by_type] of the dispatcher writes to retire [d1]. *)
Definition d1_retiring : pyval := dict_set d1_charging "status" (PStr "retiring").

(** [d1] charges at the charge point of its zone.  The autoscaler
    retires it between the read and the CAS of the first attempt of the
    merge-write (calls 2 and 3 of the tick). *)
Definition retire_at_3 (n : nat) (st : store) : store :=
  if Nat.eqb n 3 then <["drone:d1" := d1_retiring]> st else st.

Definition retired_mid_tick : outcome scall (list pyval) unit (nat * (Q * store)) :=
  run (racing retire_at_3)
      (run_one_tick default_config Dispatcher.grid_km "d1" Dispatcher.zones1)
      [] (0%nat, (0%Q, <["drone:d1" := d1_charging]> ∅)).

Definition d1_written : pyval :=
  dict_set (dict_set (dict_set d1_retiring "pos" Dispatcher.rome)
                     "battery" (PNum 85))
           "at_charge" (PBool true).

Lemma run_one_tick_merge_write_witness :
  let t := events retired_mid_tick in
  cas_count t = 2%nat
  ∧ snd (snd (final_world retired_mid_tick)) !! "drone:d1" = Some d1_written
  ∧ t !! 6%nat = Some (Ev (KvCas "drone:d1" d1_retiring d1_written) true)
  ∧ dict_get d1_written "status" = Ok (PStr "retiring")
  ∧ dict_get d1_written "current_delivery" = Ok PNone.
Proof.
  split; [reflexivity|]. split; [reflexivity|]. split; [reflexivity|].
  pose proof (proj2 (proj2 (run_one_tick_merge_write default_config
                              Dispatcher.grid_km (racing retire_at_3)
                              (0%nat, (0%Q, <["drone:d1" := d1_charging]> ∅))
                              [] "d1" Dispatcher.zones1))
                6%nat (Ev (KvCas "drone:d1" d1_retiring d1_written) true)
                "drone:d1" d1_retiring d1_written eq_refl eq_refl)
    as (Hs & Hc & _).
  split; [by rewrite Hs | by rewrite Hc].
Defined.

(** ** The battery and the queue of events *)

Section Telemetry.
Variable cfg : config.
Variable haversine_km : pyval → pyval → res Q.

Lemma Qmax_spec (a b : Q) : (a <= Qmax a b)%Q ∧ (b <= Qmax a b)%Q
                            ∧ (Qmax a b = a ∨ Qmax a b = b).
Proof.
  unfold Qmax. destruct (Qltb a b) eqn:E.
  - apply Qltb_lt in E. repeat split; [lra|lra|by right].
  - apply Qltb_ge in E. repeat split; [lra|lra|by left].
Qed.

Lemma Qmin_spec (a b : Q) : (Qmin a b <= a)%Q ∧ (Qmin a b <= b)%Q
                            ∧ (Qmin a b = a ∨ Qmin a b = b).
Proof.
  unfold Qmin. destruct (Qltb b a) eqn:E.
  - apply Qltb_lt in E. repeat split; [lra|lra|by right].
  - apply Qltb_ge in E. repeat split; [lra|lra|by left].
Qed.

(** What a tick may do to the battery [b]: at a charge point it rises, by
    [CHARGE_PER_TICK] and to 100 at most; elsewhere it does not rise. *)
Definition battery_step (b nb : Q) (at_charge : bool) : Prop :=
  (0 <= nb)%Q ∧ (nb <= 100)%Q
  ∧ if at_charge
    then (b <= nb)%Q ∧ (nb <= b + CHARGE_PER_TICK cfg)%Q
    else (nb <= b)%Q.

Lemma advance_battery (pos target : pyval) (speed b : Q) (np : pyval) (nb : Q) :
  (∀ a c d, haversine_km a c = Ok d → (0 <= d)%Q) →
  (0 <= BATTERY_PER_KM cfg)%Q → (0 <= b)%Q → (b <= 100)%Q →
  advance cfg haversine_km pos target speed b = Ok (np, nb) →
  battery_step b nb false.
Proof.
  intros Hd Hk H0 H100 H. unfold advance in H.
  destruct (step pos target speed) as [p|e]; [|done]. cbn in H.
  destruct (haversine_km pos p) as [km|e] eqn:Ekm; [|done]. cbn in H.
  injection H as _ <-. apply Hd in Ekm.
  assert (Hcost : (0 <= km * BATTERY_PER_KM cfg)%Q)
    by (by apply Qmult_le_0_compat).
  destruct (Qmax_spec 0 (b - km * BATTERY_PER_KM cfg)) as (Ha & Hb & [Hc|Hc]);
    unfold battery_step; rewrite Hc in *; repeat split; lra.
Qed.

(** X25: the battery of a tick.  When distances, [BATTERY_PER_KM] and
    [CHARGE_PER_TICK] are not negative and the stored battery is between
    0 and 100, so is the new one.  It rises only when the tick sets
    [at_charge]: the drone is charging or retiring and close to the
    nearest charge point.  Otherwise it does not rise. *)
Theorem plan_battery_bounds {W : Type} (h : handler scall W) (w : W)
    (q : list pyval) (cur pos status current_delivery zcfg : pyval)
    (speed b : Q) (np : pyval) (nb : Q) (ac : bool) :
  (∀ a c d, haversine_km a c = Ok d → (0 <= d)%Q) →
  (0 <= BATTERY_PER_KM cfg)%Q → (0 <= CHARGE_PER_TICK cfg)%Q →
  dict_get_or cur "battery" (PNum 100) ≫= py_float = Ok b →
  (0 <= b)%Q → (b <= 100)%Q →
  result (run h (plan cfg haversine_km cur pos status current_delivery speed
                      zcfg) q w) = Ok (np, nb, ac) →
  battery_step b nb ac
  ∧ (ac = true →
     py_eqb status (PStr "charging") || py_eqb status (PStr "retiring") = true
     ∧ ∃ cp, nearest_charge_point haversine_km zcfg pos = Ok cp
             ∧ close_enough pos cp = Ok true).
Proof.
  intros Hd Hk Hc Hb H0 H100 Hres.
  assert (Hwp : wp (plan cfg haversine_km cur pos status current_delivery
                         speed zcfg)
                  (fun r _ _ =>
                     ∀ np nb ac, r = Ok (np, nb, ac) →
                       battery_step b nb ac
                       ∧ (ac = true →
                          py_eqb status (PStr "charging")
                          || py_eqb status (PStr "retiring") = true
                          ∧ ∃ cp,
                              nearest_charge_point haversine_km zcfg pos = Ok cp
                              ∧ close_enough pos cp = Ok true))
                  q []).
  { assert (Hsame : battery_step b b false).
    { unfold battery_step. repeat split; lra. }
    unfold plan. rewrite Hb.
    repeat lazymatch goal with
    | |- wp (_ ≫= _) _ _ _ => apply wp_mbind
    | |- wp (kv_get _) _ _ _ => unfold kv_get
    | |- wp (lift ?r) _ _ _ =>
        apply wp_lift; let E := fresh "E" in destruct r eqn:E; cbn [then_wp]
    | |- wp (call ?c) _ _ ?t =>
        apply wp_call; let r := fresh "r" in intros r; cbn [then_wp]
    | |- wp (mret _) _ _ _ => apply wp_mret; cbn [then_wp]
    | |- wp (if ?c then _ else _) _ _ _ =>
        let E := fresh "E" in destruct c eqn:E; cbn [negb]
    | |- wp (Ret _) _ _ _ => cbn [wp then_wp]
    | |- then_wp _ _ _ _ _ => cbn [then_wp]
    end.
    all: try done.
    all: repeat match goal with
                | H : Ok _ = Ok _ |- _ => injection H as <-
                end.
    all: intros np' nb' ac' [= <- <- <-]; (split; [|try done]).
    all: try exact Hsame.
    all: try (match goal with
              | E : advance _ _ _ _ _ _ = Ok ?m |- _ =>
                  destruct m as [p' b']; cbn [fst snd];
                  by apply (advance_battery _ _ _ _ _ _ Hd Hk H0 H100 E)
              end).
    - destruct (Qmin_spec 100 (b + CHARGE_PER_TICK cfg)) as (Ha & Hb' & [Hm|Hm]);
        unfold battery_step; rewrite Hm in *; repeat split; lra.
    - intros _. split; [done|].
      match goal with
      | E1 : nearest_charge_point _ _ _ = Ok ?cp,
        E2 : close_enough _ ?cp = Ok ?n |- _ =>
          exists cp; split; [done|]; by destruct n
      end. }
  pose proof (wp_sound h _ _ q w [] Hwp) as H. cbn [app] in H.
  by apply (H np).
Qed.

(** X26: the newest event is never lost.  [enqueue] puts the event last;
    when the queue is full it drops the oldest event to make room, and a
    queue within [EVENT_QUEUE_MAX] stays within it. *)
Theorem enqueue_keeps_newest {W : Type} (h : handler scall W) (w : W)
    (q : list pyval) (evt : pyval) :
  (0 < EVENT_QUEUE_MAX cfg →
   Z.of_nat (length q) <= EVENT_QUEUE_MAX cfg)%Z →
  let o := run h (enqueue cfg evt) q w in
  let full := (0 <? EVENT_QUEUE_MAX cfg)%Z
              && (EVENT_QUEUE_MAX cfg <=? Z.of_nat (length q))%Z in
  result o = Ok tt ∧ events o = []
  ∧ final_state o = (if full then tl q else q) ++ [evt]
  ∧ (0 < EVENT_QUEUE_MAX cfg →
     Z.of_nat (length (final_state o)) <= EVENT_QUEUE_MAX cfg)%Z.
Proof.
  intros Hq o full. subst o full. unfold enqueue. cbn [run].
  destruct (Z.ltb_spec 0 (EVENT_QUEUE_MAX cfg)) as [Hpos|Hneg]; cbn [andb].
  2:{ cbn. repeat split; try done. lia. }
  specialize (Hq Hpos).
  destruct (Z.leb_spec (EVENT_QUEUE_MAX cfg) (Z.of_nat (length q)))
    as [Hfull|Hroom].
  - destruct q as [|x q']; [cbn in *; lia|]. cbn [tl length] in *.
    rewrite (proj2 (Z.leb_gt (EVENT_QUEUE_MAX cfg) (Z.of_nat (length q'))))
      by lia.
    cbn. repeat split; try done. rewrite length_app. cbn. lia.
  - cbn. repeat split; try done. rewrite length_app. cbn. lia.
Qed.

End Telemetry.

Lemma grid_km_nonneg (a c : pyval) (d : Q) :
  Dispatcher.grid_km a c = Ok d → (0 <= d)%Q.
Proof.
  unfold Dispatcher.grid_km. intros H.
  destruct (subscript a "lat" ≫= py_num) as [alat|]; [|done].
  destruct (subscript a "lon" ≫= py_num) as [alon|]; [|done].
  destruct (subscript c "lat" ≫= py_num) as [clat|]; [|done].
  destruct (subscript c "lon" ≫= py_num) as [clon|]; [|done].
  cbn [mbind res_bind] in H.
  assert (Hd : d = Qred (111 * (Qabs (alat - clat) + Qabs (alon - clon))))
    by congruence.
  rewrite Hd, Qred_correct.
  pose proof (Qabs_nonneg (alat - clat)) as Hx.
  pose proof (Qabs_nonneg (alon - clon)) as Hy.
  lra.
Qed.

Lemma plan_battery_bounds_witness :
  let o := run (racing (fun _ st => st))
               (plan default_config Dispatcher.grid_km d1_charging
                     Dispatcher.rome (PStr "charging") PNone (4 # 10)
                     Dispatcher.zones1)
               [] (0%nat, (0%Q, ∅)) in
  result o = Ok (Dispatcher.rome, 85%Q, true)
  ∧ battery_step default_config 80 85 true.
Proof.
  split; [reflexivity|].
  apply (plan_battery_bounds default_config Dispatcher.grid_km
           (racing (fun _ st => st)) (0%nat, (0%Q, ∅)) [] d1_charging
           Dispatcher.rome (PStr "charging") PNone Dispatcher.zones1 (4 # 10)
           80 Dispatcher.rome 85 true).
  - apply grid_km_nonneg.
  - discriminate.
  - discriminate.
  - reflexivity.
  - discriminate.
  - discriminate.
  - reflexivity.
Defined.

Definition short_queue : config :=
  {| CHARGE_PER_TICK := 5; BATTERY_PER_KM := 12 # 10; TICK_SEC := 5 # 100;
     EVENT_QUEUE_MAX := 2 |}.

Lemma enqueue_keeps_newest_witness :
  final_state (run (racing (fun _ st => st))
                   (enqueue short_queue (PStr "c")) [PStr "a"; PStr "b"]
                   (0%nat, (0%Q, ∅)))
  = [PStr "b"; PStr "c"].
Proof.
  apply (enqueue_keeps_newest short_queue (racing (fun _ st => st))
           (0%nat, (0%Q, ∅)) [PStr "a"; PStr "b"] (PStr "c")).
  intros _. cbn. lia.
Defined.

End DroneSim.
